(** * ObjectFileDB: archive ingestion and de-duplicating object store

    A shallow embedding of [ObjectFileDB.cpp]: the store that collects the
    object files found in DGO archives ([add_obj_from_dgo]), the DGO container
    walk and the chunked decompression loop ([get_objs_from_dgo]), the header
    sanity check ([assert_string_empty_after]) and the top-level naming step of
    [analyze_functions].

    Conventions.  A [std::string] is a [string]; a byte buffer is a
    [list byte]; [std::unordered_map<std::string, std::vector<_>>] is a
    [gmap string (list _)]; a failed [assert] is an explicit error value. *)

From Stdlib Require Import ZArith Lia ZifyNat.
From Stdlib.Strings Require Import Byte Ascii.
From stdpp Require Import gmap strings list fin_maps pretty sorting.

Local Open Scope Z_scope.

Global Instance byte_eq_decision : EqDecision byte := Byte.byte_eq_dec.

(** ** Records of ObjectFileDB.h that the source file reads and writes *)

(** [ObjectFileRecord]: name, version and content fingerprint of one stored
    object file. *)
Record ObjectFileRecord := mkRecord {
  name : string;
  version : Z;
  hash : Z
}.

(** [ObjectFileRecord::to_unique_name]:
    [name + "-v" + std::to_string(version)]; [pretty] is the decimal rendering
    of an integer (a leading minus sign for negatives), as [std::to_string]. *)
Definition to_unique_name (r : ObjectFileRecord) : string :=
  name r +:+ "-v" +:+ pretty (version r).

(** Ingestion counters ([stats]).  Only their increments appear in the source
    file; they are kept as mathematical integers. *)
Record Stats := mkStats {
  total_dgo_bytes : Z;
  total_obj_files : Z;
  unique_obj_files : Z;
  unique_obj_bytes : Z
}.

Section Store.

(** The members of [Function] and [LinkedObjectFile] that this file never
    looks at are kept abstract. *)
Context {FunctionRest LinkedRest : Type}.

Record Function := mkFunction {
  guessed_name : string;
  function_rest : FunctionRest
}.

Record LinkedObjectFile := mkLinked {
  segments : Z;
  functions_by_seg : list (list Function);
  linked_rest : LinkedRest
}.

(** [ObjectFileData]: the owned bytes of one stored variant and its
    bookkeeping. *)
Record ObjectFileData := mkData {
  data : list byte;
  linked_data : LinkedObjectFile;
  record : ObjectFileRecord;
  reference_count : Z
}.

Record ObjectFileDB := mkDB {
  obj_files_by_name : gmap string (list ObjectFileData);
  obj_files_by_dgo : gmap string (list ObjectFileRecord);
  obj_file_order : list string;
  stats : Stats
}.

(** [crc32] comes from the utility library; any function of the bytes will
    do. *)
Variable crc32 : list byte → Z.

(** A default-constructed [ObjectFileData] ([ObjectFileData data;]) carries
    the default member values declared in ObjectFileDB.h.  The two members
    that [add_obj_from_dgo] leaves as constructed are parameters here. *)
Variable init_linked_data : LinkedObjectFile.
Variable init_reference_count : Z.

(** [m[k]] on an unordered_map of vectors: the value at [k] (an empty vector
    when the key is absent) ... *)
Definition subscript {A} (m : gmap string (list A)) (k : string) : list A :=
  default [] (m !! k).

(** ... and its side effect: an absent key is inserted with an empty
    vector. *)
Definition touch {A} (m : gmap string (list A)) (k : string)
  : gmap string (list A) :=
  match m !! k with
  | Some _ => m
  | None => <[k := []]> m
  end.

(** [m[k].push_back(x)]. *)
Definition push_back {A} (m : gmap string (list A)) (k : string) (x : A)
  : gmap string (list A) :=
  <[k := subscript m k ++ [x]]> m.

(** The condition of the scan, [e.data.size() == obj_size &&
    e.record.hash == hash]. *)
Definition same_content (e : ObjectFileData) (obj_size : nat) (h : Z) : bool :=
  Nat.eqb (length (data e)) obj_size && (hash (record e) =? h).

Definition bump (e : ObjectFileData) : ObjectFileData :=
  mkData (data e) (linked_data e) (record e) (reference_count e + 1).

(** The scan [for (auto& e : obj_files_by_name[obj_name])]: at the first
    entry with the same size and hash, [e.reference_count++] in place and the
    record is handed back; [None] when the loop falls through. *)
Fixpoint find_duplicate (es : list ObjectFileData) (obj_size : nat) (h : Z)
  : option (list ObjectFileData * ObjectFileRecord) :=
  match es with
  | [] => None
  | e :: es' =>
      if same_content e obj_size h
      then Some (bump e :: es', record e)
      else match find_duplicate es' obj_size h with
           | Some (es'', r) => Some (e :: es'', r)
           | None => None
           end
  end.

Definition count_obj (s : Stats) : Stats :=
  mkStats (total_dgo_bytes s) (total_obj_files s + 1)
          (unique_obj_files s) (unique_obj_bytes s).

Definition count_unique (s : Stats) (obj_size : nat) : Stats :=
  mkStats (total_dgo_bytes s) (total_obj_files s)
          (unique_obj_files s + 1) (unique_obj_bytes s + Z.of_nat obj_size).

(** [ObjectFileDB::add_obj_from_dgo].  The pair [(obj_data, obj_size)] of the
    source is the list of the [obj_size] bytes at [obj_data]. *)
Definition add_obj_from_dgo (obj_name : string) (obj_data : list byte)
    (dgo_name : string) (db : ObjectFileDB) : ObjectFileDB :=
  let obj_size := length obj_data in
  let st := count_obj (stats db) in
  let h := crc32 obj_data in
  let by_name := touch (obj_files_by_name db) obj_name in
  let variants := subscript by_name obj_name in
  match find_duplicate variants obj_size h with
  | Some (variants', rec) =>
      (* already got it! *)
      mkDB (<[obj_name := variants']> by_name)
           (push_back (obj_files_by_dgo db) dgo_name rec)
           (obj_file_order db)
           st
  | None =>
      (* nope, have to add a new one. *)
      let r := mkRecord obj_name (Z.of_nat (length variants)) h in
      let d := mkData obj_data init_linked_data r init_reference_count in
      let order :=
        match variants with
        | [] => obj_file_order db ++ [obj_name]
        | _ :: _ => obj_file_order db
        end in
      mkDB (push_back by_name obj_name d)
           (push_back (obj_files_by_dgo db) dgo_name r)
           order
           (count_unique st obj_size)
  end.

(** The store before the first archive is read: nothing stored, all counters
    at zero. *)
Definition empty_db : ObjectFileDB := mkDB ∅ ∅ [] (mkStats 0 0 0 0).

(** One call of [add_obj_from_dgo] per element, in order: the object name,
    its bytes and the name of the archive it was found in. *)
Definition add_all (ops : list (string * list byte * string))
    (db : ObjectFileDB) : ObjectFileDB :=
  foldl (λ db op, add_obj_from_dgo op.1.1 op.1.2 op.2 db) db ops.

End Store.

(** ** Vocabulary of the properties *)

(** The names of a sequence in first-seen order: each name once, at the place
    of its first occurrence. *)
Fixpoint first_seen (names : list string) : list string :=
  match names with
  | [] => []
  | n :: names' => n :: filter (λ m, m ≠ n) (first_seen names')
  end.

(** The sum of [f] over all elements of all vectors of a map. *)
Definition list_total {A} (f : A → Z) (l : list A) : Z :=
  foldr (λ x acc, f x + acc) 0 l.

Definition map_total {A} (f : A → Z) (m : gmap string (list A)) : Z :=
  map_fold (λ _ l acc, list_total f l + acc) 0 m.

(** The number of insertions of a sequence that come from archive [dgo]. *)
Definition occurrences_in (dgo : string)
    (ops : list (string * list byte * string)) : nat :=
  length (filter (λ op, op.2 = dgo) ops).

Arguments Function : clear implicits.
Arguments LinkedObjectFile : clear implicits.
Arguments ObjectFileData : clear implicits.
Arguments ObjectFileDB : clear implicits.

(** Modelled from the spec: the value of [reference_count] in a newly
    constructed [ObjectFileData].  It is a default member value of
    ObjectFileDB.h, which is not part of the sources at hand, and
    [add_obj_from_dgo] does not assign it; the specification creates an entry
    "with reference_count = 1". *)
Definition spec_reference_count : Z := 1.

(** A small fingerprint for the worked examples, where [crc32] has to be some
    concrete function: the sum of the bytes modulo 2^32. *)
Definition byte_sum (bs : list byte) : Z :=
  foldr (λ b acc, (Z.of_N (Byte.to_N b) + acc) mod 2 ^ 32) 0 bs.

(** The empty link data of the worked examples. *)
Definition no_link_data : LinkedObjectFile unit unit := mkLinked 0 [] tt.

(** Invariants of the store. *)
Section StoreInvariants.
Context {FunctionRest LinkedRest : Type}.
Implicit Type db : ObjectFileDB FunctionRest LinkedRest.

(** The variant at position [i] of the vector of name [n] carries the
    record [(n, i, _)]. *)
Definition versions_indexed db : Prop :=
  ∀ n i e, subscript (obj_files_by_name db) n !! i = Some e →
           name (record e) = n ∧ version (record e) = Z.of_nat i.

(** The order lists each name with a stored variant, once. *)
Definition order_complete db : Prop :=
  NoDup (obj_file_order db)
  ∧ ∀ n, n ∈ obj_file_order db ↔ subscript (obj_files_by_name db) n ≠ [].

(** The number of stored entries, and of their bytes. *)
Definition stored_entries db : Z :=
  map_total (λ _, 1) (obj_files_by_name db).

Definition stored_bytes db : Z :=
  map_total (λ e, Z.of_nat (length (data e))) (obj_files_by_name db).

(** The number of records over all membership lists. *)
Definition membership_records db : Z :=
  map_total (λ _, 1) (obj_files_by_dgo db).

(** The counters agree with what is stored, after [calls] insertions. *)
Definition counters_consistent db (calls : nat) : Prop :=
  total_obj_files (stats db) = Z.of_nat calls
  ∧ unique_obj_files (stats db) = stored_entries db
  ∧ unique_obj_bytes (stats db) = stored_bytes db
  ∧ membership_records db = total_obj_files (stats db)
  ∧ unique_obj_files (stats db) ≤ total_obj_files (stats db).

End StoreInvariants.

(** ** Failures

    The program stops at the first failed [assert]; the model returns the
    failure instead.  The first seven names are the error kinds of the
    specification; the last three are the places where the C++ leaves defined
    behaviour (a write past the end of [decompressed_data], a scan past the end
    of a name field, [vector::at] out of range). *)
Inductive Error :=
  | OutOfBounds
  | DecompressionError
  | MalformedHeader
  | ArchiveNameMismatch
  | TruncatedObject
  | TrailingData
  | InvariantViolation
  | OutputOverrun (output_offset len : nat)
  | UnterminatedName
  | OutOfRange
  | OutOfFuel.

Inductive result (A : Type) :=
  | Ok (a : A)
  | Err (e : Error).
Arguments Ok {A} a.
Arguments Err {A} e.

Global Instance result_ret : MRet result := λ A a, Ok a.

Global Instance result_bind : MBind result := λ A B k x,
  match x with
  | Ok a => k a
  | Err e => Err e
  end.

(** ** BinaryReader *)
Module BinaryReader.

(** Modelled from the spec: [BinaryReader] (util/BinaryReader.h is not part
    of the sources at hand), the "Binary Cursor" of the specification: a
    byte buffer with a current offset; a typed read or a fast-forward that
    needs more bytes than remain fails with [OutOfBounds]. *)
Record t := mk {
  buffer : list byte;
  seek : nat
}.

Definition bytes_left (r : t) : nat := length (buffer r) - seek r.
Definition get_seek (r : t) : nat := seek r.
Definition here (r : t) : list byte := drop (seek r) (buffer r).

Definition ffwd (amount : nat) (r : t) : result t :=
  if decide (amount ≤ bytes_left r)%nat
  then Ok (mk (buffer r) (seek r + amount))
  else Err OutOfBounds.

(** The [n] bytes at the cursor, which then moves past them. *)
Definition read_bytes (n : nat) (r : t) : result (list byte * t) :=
  r' ← ffwd n r ; Ok (take n (here r), r').

(** A 4-byte little-endian unsigned integer. *)
Definition le32 (bs : list byte) : Z :=
  foldr (λ b acc, Z.of_N (Byte.to_N b) + 256 * acc) 0 bs.

Definition read_u32 (r : t) : result (Z * t) :=
  '(bs, r') ← read_bytes 4 r ; Ok (le32 bs, r').

End BinaryReader.

(** ** Chunked decompression (the [is_jak2] branch of [get_objs_from_dgo]) *)

Definition MAX_CHUNK_SIZE : nat := Z.to_nat 0x8000.

(** [jak2_header], the bytes of ["oZlB"]. *)
Definition jak2_header : list byte := [x6f; x5a; x6c; x42].

(** The loop [for (int i = 0; i < 4; i++)] comparing [jak2_header[i]] with
    [dgo_data[i]]; a file of fewer than four bytes does not have the tag. *)
Definition is_jak2 (dgo_data : list byte) : bool :=
  forallb (λ i, bool_decide (jak2_header !! i = dgo_data !! i)) (seq 0 4).

(** A raw write of [bytes] at [decompressed_data.data() + output_offset]
    ([memcpy], or the output of [lzo1x_decompress]).  The vector was sized
    once by [resize]; a write that does not fit inside it is outside the
    allocation. *)
Definition write_at (out : list byte) (output_offset : nat)
    (bytes : list byte) : result (list byte) :=
  if decide (output_offset + length bytes ≤ length out)%nat
  then Ok (take output_offset out ++ bytes
           ++ drop (output_offset + length bytes) out)
  else Err (OutputOverrun output_offset (length bytes)).

Section Decompress.

(** [lzo1x_decompress] of minilzo, on the [chunk_size] input bytes: the
    bytes it wrote to the output ([bytes_written] is their number) and
    whether it returned [LZO_E_OK]. *)
Variable lzo1x_decompress : list byte → list byte * bool.

(** [while (!chunk_size) chunk_size = compressed_reader.read<uint32_t>();] *)
Fixpoint read_chunk_size (fuel : nat) (r : BinaryReader.t)
  : result (Z * BinaryReader.t) :=
  match fuel with
  | O => Err OutOfFuel
  | S fuel' =>
      '(chunk_size, r') ← BinaryReader.read_u32 r ;
      if chunk_size =? 0 then read_chunk_size fuel' r' else Ok (chunk_size, r')
  end.

(** [while (compressed_reader.get_seek() % 4) compressed_reader.ffwd(1);] *)
Fixpoint skip_alignment (fuel : nat) (r : BinaryReader.t)
  : result BinaryReader.t :=
  if (BinaryReader.get_seek r mod 4 =? 0)%nat then Ok r
  else match fuel with
       | O => Err OutOfFuel
       | S fuel' => r' ← BinaryReader.ffwd 1 r ; skip_alignment fuel' r'
       end.

(** One chunk: the block is expanded, or copied when
    [chunk_size >= MAX_CHUNK_SIZE], to [output_offset]; the reader moves
    past it.  Returns the reader, the output and the new offset.  The block
    is taken through the reader, so a block that runs past the end of the
    input is the reader's failure; the status of [lzo1x_decompress] is
    asserted after it has written. *)
Definition decompress_chunk (chunk_size : Z) (r : BinaryReader.t)
    (out : list byte) (output_offset : nat)
  : result (BinaryReader.t * list byte * nat) :=
  if chunk_size <? Z.of_nat MAX_CHUNK_SIZE then
    '(block, r') ← BinaryReader.read_bytes (Z.to_nat chunk_size) r ;
    let '(written, lzo_ok) := lzo1x_decompress block in
    out' ← write_at out output_offset written ;
    if lzo_ok then Ok (r', out', (output_offset + length written)%nat)
    else Err DecompressionError
  else
    '(block, r') ← BinaryReader.read_bytes MAX_CHUNK_SIZE r ;
    out' ← write_at out output_offset block ;
    Ok (r', out', (output_offset + MAX_CHUNK_SIZE)%nat).

(** The [while (true)] loop. *)
Fixpoint decompress_chunks (fuel : nat) (decompressed_size : nat)
    (r : BinaryReader.t) (out : list byte) (output_offset : nat)
  : result (list byte) :=
  match fuel with
  | O => Err OutOfFuel
  | S fuel' =>
      '(chunk_size, r1) ← read_chunk_size (S (BinaryReader.bytes_left r)) r ;
      '(r2, out', output_offset') ←
        decompress_chunk chunk_size r1 out output_offset ;
      if decide (decompressed_size ≤ output_offset')%nat then Ok out'
      else
        r3 ← skip_alignment 3 r2 ;
        decompress_chunks fuel' decompressed_size r3 out' output_offset'
  end.

(** The body of [if (is_jak2)]: the new contents of [dgo_data]. *)
Definition decompress (dgo_data : list byte) : result (list byte) :=
  let compressed_reader := BinaryReader.mk dgo_data 0 in
  (* seek past oZlB *)
  r ← BinaryReader.ffwd 4 compressed_reader ;
  '(decompressed_size, r) ← BinaryReader.read_u32 r ;
  let n := Z.to_nat decompressed_size in
  decompress_chunks (S (length dgo_data)) n r (replicate n x00) 0.

End Decompress.

(** ** DGO container *)

(** [struct DgoHeader { uint32_t size; char name[60]; }] *)
Module DgoHeader.
Record t := mk {
  size : Z;
  name : list byte
}.

(** [reader.read<DgoHeader>()]: 4 + 60 bytes at the cursor. *)
Definition read (r : BinaryReader.t) : result (t * BinaryReader.t) :=
  '(bs, r') ← BinaryReader.read_bytes 64 r ;
  Ok (mk (BinaryReader.le32 (take 4 bs)) (drop 4 bs), r').
End DgoHeader.

(** The length of the C string at [str]: the number of bytes before the first
    null byte, as found by the first [while] loop of
    [assert_string_empty_after], which advances [ptr] to the first null byte.
    [None] when the scan runs off the end of the array. *)
Fixpoint strlen (str : list byte) : option nat :=
  match str with
  | [] => None
  | b :: rest => if decide (b = x00) then Some O else S <$> strlen rest
  end.

(** [assert_string_empty_after(str, size)]: every byte from the terminator up
    to [size] must be null. *)
Definition assert_string_empty_after (str : list byte) (size : nat)
  : result unit :=
  match strlen str with
  | None => Err UnterminatedName
  | Some n =>
      if forallb (λ b, bool_decide (b = x00)) (drop n (take size str))
      then Ok ()
      else Err MalformedHeader
  end.

(** A [char name[60]] read as a C string (in a comparison with a
    [std::string], or converted to one). *)
Definition c_string (str : list byte) : result string :=
  match strlen str with
  | None => Err UnterminatedName
  | Some n => Ok (String.string_of_list_byte (take n str))
  end.

Section Ingest.

Context {FunctionRest LinkedRest : Type}.
Variable crc32 : list byte → Z.
Variable init_linked_data : LinkedObjectFile FunctionRest LinkedRest.
Variable init_reference_count : Z.
Variable lzo1x_decompress : list byte → list byte * bool.

Abbreviation DB := (ObjectFileDB FunctionRest LinkedRest).

Definition count_dgo_bytes (n : nat) (db : DB) : DB :=
  let s := stats db in
  mkDB (obj_files_by_name db) (obj_files_by_dgo db) (obj_file_order db)
       (mkStats (total_dgo_bytes s + Z.of_nat n) (total_obj_files s)
                (unique_obj_files s) (unique_obj_bytes s)).

(** The loop [for (uint32_t i = 0; i < header.size; i++)], with [n] objects
    still to read. *)
Fixpoint read_objs (n : nat) (dgo_base_name : string) (reader : BinaryReader.t)
    (db : DB) : result (BinaryReader.t * DB) :=
  match n with
  | O => Ok (reader, db)
  | S n' =>
      '(obj_header, reader) ← DgoHeader.read reader ;
      if decide (Z.of_nat (BinaryReader.bytes_left reader)
                 < DgoHeader.size obj_header)
      then Err TruncatedObject
      else
        _ ← assert_string_empty_after (DgoHeader.name obj_header) 60 ;
        obj_name ← c_string (DgoHeader.name obj_header) ;
        let obj_size := Z.to_nat (DgoHeader.size obj_header) in
        let db' :=
          add_obj_from_dgo crc32 init_linked_data init_reference_count
            obj_name (take obj_size (BinaryReader.here reader))
            dgo_base_name db in
        reader ← BinaryReader.ffwd obj_size reader ;
        read_objs n' dgo_base_name reader db'
  end.

(** [ObjectFileDB::get_objs_from_dgo], on the contents of the file
    ([read_binary_file(filename)]) and its base name
    ([base_name(filename)]). *)
Definition get_objs_from_dgo (dgo_base_name : string) (file : list byte)
    (db : DB) : result DB :=
  let db := count_dgo_bytes (length file) db in
  dgo_data ← (if is_jak2 file then decompress lzo1x_decompress file
              else Ok file) ;
  let reader := BinaryReader.mk dgo_data 0 in
  '(header, reader) ← DgoHeader.read reader ;
  header_name ← c_string (DgoHeader.name header) ;
  if decide (header_name = dgo_base_name) then
    _ ← assert_string_empty_after (DgoHeader.name header) 60 ;
    (* get all obj files... *)
    '(reader, db) ←
      read_objs (Z.to_nat (DgoHeader.size header)) dgo_base_name reader db ;
    (* check we're at the end *)
    if decide (BinaryReader.bytes_left reader = O) then Ok db
    else Err TrailingData
  else Err ArchiveNameMismatch.

(** ** The top-level step of [analyze_functions] *)

(** [Function::find_global_function_defs(LinkedObjectFile&)], called on the
    function at [functions_by_seg.at(seg)[idx]] of the file it is given: the
    function is a reference into that file, so the call is a change of the
    file as a whole. *)
Variable find_global_function_defs :
  nat → nat → LinkedObjectFile FunctionRest LinkedRest
  → LinkedObjectFile FunctionRest LinkedRest.

Definition set_guessed_name (s : string) (f : Function FunctionRest)
  : Function FunctionRest :=
  mkFunction s (function_rest f).

(** The body of the lambda handed to [for_each_obj] at the end of
    [analyze_functions]. *)
Definition name_top_level (d : ObjectFileData FunctionRest LinkedRest)
  : result (ObjectFileData FunctionRest LinkedRest) :=
  let ld := linked_data d in
  if segments ld =? 3 then
    match functions_by_seg ld !! 2%nat with
    | None => Err OutOfRange
    | Some fs =>
        (* the top level segment should have a single function *)
        if decide (length fs = 1%nat) then
          match fs with
          | func :: rest =>
              if decide (guessed_name func = "") then
                let func := set_guessed_name "(top-level-init)" func in
                let ld' :=
                  mkLinked (segments ld)
                           (<[2%nat := func :: rest]> (functions_by_seg ld))
                           (linked_rest ld) in
                Ok (mkData (data d) (find_global_function_defs 2 0 ld')
                           (record d) (reference_count d))
              else Err InvariantViolation
          | [] => Err InvariantViolation
          end
        else Err InvariantViolation
    end
  else Ok d.

(** The object after the step, when its third segment is the single
    function [func]. *)
Definition top_level_named (d : ObjectFileData FunctionRest LinkedRest)
    (func : Function FunctionRest)
  : ObjectFileData FunctionRest LinkedRest :=
  let ld := linked_data d in
  mkData (data d)
    (find_global_function_defs 2 0
       (mkLinked (segments ld)
          (<[2%nat := [set_guessed_name "(top-level-init)" func]]>
             (functions_by_seg ld))
          (linked_rest ld)))
    (record d) (reference_count d).

(** The monadic map of a fallible step over a vector, in order. *)
Fixpoint each {A} (f : A → result A) (l : list A) : result (list A) :=
  match l with
  | [] => Ok []
  | x :: l' => y ← f x ; l'' ← each f l' ; Ok (y :: l'')
  end.

(** Modelled from the spec: [for_each_obj] (declared in ObjectFileDB.h, which
    is not part of the sources at hand): "visits every stored ObjectEntry
    exactly once, in Global Insertion Order": the names of [obj_file_order]
    in turn, and for each name its variants in version order. *)
Fixpoint for_each_obj_in (f : ObjectFileData FunctionRest LinkedRest
                              → result (ObjectFileData FunctionRest LinkedRest))
    (order : list string)
    (by_name : gmap string (list (ObjectFileData FunctionRest LinkedRest)))
  : result (gmap string (list (ObjectFileData FunctionRest LinkedRest))) :=
  match order with
  | [] => Ok by_name
  | n :: order' =>
      match by_name !! n with
      | None => Err OutOfRange
      | Some objs =>
          objs' ← each f objs ;
          for_each_obj_in f order' (<[n := objs']> by_name)
      end
  end.

Definition for_each_obj (f : ObjectFileData FunctionRest LinkedRest
                           → result (ObjectFileData FunctionRest LinkedRest))
    (db : DB) : result DB :=
  by_name ← for_each_obj_in f (obj_file_order db) (obj_files_by_name db) ;
  Ok (mkDB by_name (obj_files_by_dgo db) (obj_file_order db) (stats db)).

(** The basic-block pass of [analyze_functions] runs only when the
    configuration asks for it and is the work of other modules. *)
Variable find_basic_blocks_pass : DB → DB.

(** [ObjectFileDB::analyze_functions] *)
Definition analyze_functions (find_basic_blocks : bool) (db : DB)
  : result DB :=
  let db := if find_basic_blocks then find_basic_blocks_pass db else db in
  for_each_obj name_top_level db.

End Ingest.

(** ** Compressed archives, as they are laid out

    The layout the decompression loop expects, written as an encoder: the
    properties of the loop are stated over the archives it builds. *)

(** The four bytes of a 32-bit word, least significant first. *)
Definition byte_of_Z (x : Z) : byte :=
  default x00 (Byte.of_N (Z.to_N (x mod 256))).

Definition u32_bytes (x : Z) : list byte :=
  [byte_of_Z x; byte_of_Z (x / 256); byte_of_Z (x / 65536);
   byte_of_Z (x / 16777216)].

(** A chunk: its size word followed by its block.  A literal chunk has a size
    word of [MAX_CHUNK_SIZE] or more and a block of [MAX_CHUNK_SIZE] bytes; the
    size word of a compressed chunk is the length of its block. *)
Inductive Chunk :=
  | LiteralChunk (chunk_size : Z) (block : list byte)
  | CompressedChunk (block : list byte).

Definition chunk_word (c : Chunk) : Z :=
  match c with
  | LiteralChunk chunk_size _ => chunk_size
  | CompressedChunk block => Z.of_nat (length block)
  end.

Definition chunk_block (c : Chunk) : list byte :=
  match c with
  | LiteralChunk _ block => block
  | CompressedChunk block => block
  end.

(** The number of bytes from offset [n] to the next multiple of four. *)
Definition alignment (n : nat) : nat := ((4 - n mod 4) mod 4)%nat.

(** A chunk in the stream: [zero_words] zero words, the size word, the block
    and null bytes up to the next multiple of four. *)
Definition encode_chunk (zc : nat * Chunk) : list byte :=
  let '(zero_words, c) := zc in
  mjoin (replicate zero_words (u32_bytes 0))
  ++ u32_bytes (chunk_word c) ++ chunk_block c
  ++ replicate (alignment (length (chunk_block c))) x00.

Definition encode_chunks (chunks : list (nat * Chunk)) : list byte :=
  mjoin (encode_chunk <$> chunks).

(** A compressed archive: the tag, the size of the expanded data, the
    chunks. *)
Definition compressed_archive (decompressed_size : Z)
    (chunks : list (nat * Chunk)) : list byte :=
  jak2_header ++ u32_bytes decompressed_size ++ encode_chunks chunks.

(** The size of the expanded data that a compressed archive declares in the
    four bytes after its tag. *)
Definition declared_size (dgo_data : list byte) : nat :=
  Z.to_nat (BinaryReader.le32 (take 4 (drop 4 dgo_data))).

Section ChunkContents.
Variable lzo1x_decompress : list byte → list byte * bool.

(** The bytes a chunk stands for. *)
Definition chunk_output (c : Chunk) : list byte :=
  match c with
  | LiteralChunk _ block => block
  | CompressedChunk block => (lzo1x_decompress block).1
  end.

Definition chunks_output (chunks : list (nat * Chunk)) : list byte :=
  mjoin ((λ zc, chunk_output zc.2) <$> chunks).

Definition chunk_well_formed (c : Chunk) : Prop :=
  match c with
  | LiteralChunk chunk_size block =>
      Z.of_nat MAX_CHUNK_SIZE ≤ chunk_size < 2 ^ 32
      ∧ length block = MAX_CHUNK_SIZE
  | CompressedChunk block =>
      (0 < length block < MAX_CHUNK_SIZE)%nat
      ∧ (lzo1x_decompress block).2 = true
  end.

(** The chunks expand to exactly [n] bytes, and no proper, non-empty prefix
    of them already does. *)
Definition chunks_fill (n : nat) (chunks : list (nat * Chunk)) : Prop :=
  chunks ≠ []
  ∧ length (chunks_output chunks) = n
  ∧ ∀ k, (0 < k < length chunks)%nat →
         (length (chunks_output (take k chunks)) < n)%nat.

(** The bytes written for the chunk that lies at the reader, and the number
    of input bytes the chunk takes up. *)
Definition chunk_write (chunk_size : Z) (r : BinaryReader.t) : list byte :=
  if chunk_size <? Z.of_nat MAX_CHUNK_SIZE
  then (lzo1x_decompress (take (Z.to_nat chunk_size) (BinaryReader.here r))).1
  else take MAX_CHUNK_SIZE (BinaryReader.here r).

Definition chunk_input (chunk_size : Z) : nat :=
  if chunk_size <? Z.of_nat MAX_CHUNK_SIZE then Z.to_nat chunk_size
  else MAX_CHUNK_SIZE.

End ChunkContents.

(** A block format for the worked examples, where [lzo1x_decompress] has to be
    some concrete function: the block is its own expansion. *)
Definition stored_block (block : list byte) : list byte * bool :=
  (block, true).

(** ** Uncompressed archives, as they are laid out *)

(** A name in its 60-byte field: the bytes of the name, then null bytes. *)
Definition name_field (nm : list byte) : list byte :=
  nm ++ replicate (60 - length nm) x00.

(** A name that fits its field: no null byte, at most 59 bytes. *)
Definition name_ok (nm : list byte) : Prop :=
  Forall (λ b, b ≠ x00) nm ∧ (length nm ≤ 59)%nat.

(** An object in an archive: its header (length and name) and its bytes. *)
Definition encode_obj (obj : list byte * list byte) : list byte :=
  u32_bytes (Z.of_nat (length obj.2)) ++ name_field obj.1 ++ obj.2.

Definition encode_objs (objs : list (list byte * list byte)) : list byte :=
  mjoin (encode_obj <$> objs).

Definition obj_ok (obj : list byte * list byte) : Prop :=
  name_ok obj.1 ∧ Z.of_nat (length obj.2) < 2 ^ 32.

(** An archive: its header (number of objects and name) and its objects. *)
Definition dgo_file (nm : list byte) (objs : list (list byte * list byte))
  : list byte :=
  u32_bytes (Z.of_nat (length objs)) ++ name_field nm ++ encode_objs objs.

(** The insertions an archive gives rise to. *)
Definition obj_insertions (dgo_base_name : string)
    (objs : list (list byte * list byte))
  : list (string * list byte * string) :=
  (λ obj, (String.string_of_list_byte obj.1, obj.2, dgo_base_name)) <$> objs.

(** A 60-byte name field with a byte that is not null somewhere after its
    first null byte. *)
Definition dirty_after_terminator (field : list byte) : Prop :=
  length field = 60%nat
  ∧ ∃ n j b, strlen field = Some n ∧ (n < j)%nat
             ∧ field !! j = Some b ∧ b ≠ x00.

(** ** Further vocabulary of the store *)

Section StoreContents.
Context {FunctionRest LinkedRest : Type}.
Implicit Type db : ObjectFileDB FunctionRest LinkedRest.

(** Entry [e] is variant [i] of name [n]. *)
Definition stored_at db (n : string) (i : nat)
    (e : ObjectFileData FunctionRest LinkedRest) : Prop :=
  subscript (obj_files_by_name db) n !! i = Some e.

(** The sum of the reference counts of all stored entries. *)
Definition total_references db : Z :=
  map_total reference_count (obj_files_by_name db).

(** The records of the variants of a name, in version order. *)
Definition variant_records db (n : string) : list ObjectFileRecord :=
  record <$> subscript (obj_files_by_name db) n.

(** Every stored entry carries the hash of its bytes, and no two variants
    of a name agree in both size and hash. *)
Definition store_distinct (crc32 : list byte → Z) db : Prop :=
  (∀ n i e, stored_at db n i e →
            hash (record e) = crc32 (data e))
  ∧ (∀ n i j ei ej,
       stored_at db n i ei → stored_at db n j ej →
       length (data ei) = length (data ej) →
       hash (record ei) = hash (record ej) → i = j).

(** Every membership record is the record of the stored entry it names. *)
Definition members_resolve db : Prop :=
  ∀ a r, r ∈ subscript (obj_files_by_dgo db) a →
         0 ≤ version r
         ∧ ∃ e, stored_at db (name r) (Z.to_nat (version r)) e
                ∧ record e = r.

(** No key of the map holds an empty vector. *)
Definition no_empty_vector {A} (m : gmap string (list A)) : Prop :=
  ∀ k l, m !! k = Some l → l ≠ [].

(** What the store keeps true of itself. *)
Definition consistent (crc32 : list byte → Z) db : Prop :=
  versions_indexed db ∧ order_complete db ∧ store_distinct crc32 db
  ∧ members_resolve db ∧ ∃ calls, counters_consistent db calls.

End StoreContents.

(** Character [c] occurs in string [s]. *)
Fixpoint occurs_in (c : Ascii.ascii) (s : string) : Prop :=
  match s with
  | EmptyString => False
  | String a s' => a = c ∨ occurs_in c s'
  end.

(** The ways in which the decompression fails. *)
Definition decompression_failure (e : Error) : Prop :=
  e = OutOfBounds ∨ e = DecompressionError ∨ ∃ o len, e = OutputOverrun o len.

(** ** The constructor *)

Section Construction.

Context {FunctionRest LinkedRest : Type}.
Variable crc32 : list byte → Z.
Variable init_linked_data : LinkedObjectFile FunctionRest LinkedRest.
Variable init_reference_count : Z.
Variable lzo1x_decompress : list byte → list byte * bool.

(** The loop [for (auto& dgo : _dgos) get_objs_from_dgo(dgo);] of the
    constructor.  Each file of [_dgos] is given by what [get_objs_from_dgo]
    takes from it: its base name and its contents.  A file that fails stops
    the construction. *)
Fixpoint load_dgos (_dgos : list (string * list byte))
    (db : ObjectFileDB FunctionRest LinkedRest)
  : result (ObjectFileDB FunctionRest LinkedRest) :=
  match _dgos with
  | [] => Ok db
  | dgo :: rest =>
      db ← get_objs_from_dgo crc32 init_linked_data init_reference_count
             lzo1x_decompress dgo.1 dgo.2 db ;
      load_dgos rest db
  end.

(** [ObjectFileDB::ObjectFileDB], without what it prints. *)
Definition new_ObjectFileDB (_dgos : list (string * list byte))
  : result (ObjectFileDB FunctionRest LinkedRest) :=
  load_dgos _dgos empty_db.

End Construction.

(** What a file expands to: the result of the decompression when it has the
    tag, the file itself when it has not. *)
Definition archive_of (lzo1x_decompress : list byte → list byte * bool)
    (file dgo_data : list byte) : Prop :=
  (if is_jak2 file then decompress lzo1x_decompress file else Ok file)
  = Ok dgo_data.

(** The sizes of the files, added up. *)
Definition total_size (_dgos : list (string * list byte)) : nat :=
  foldr (λ dgo n, (length dgo.2 + n)%nat) O _dgos.

(** File [dgo] expands to the well-formed archive of name [ar.1] and objects
    [ar.2], and is named as the archive is. *)
Definition well_formed_dgo (lzo1x_decompress : list byte → list byte * bool)
    (dgo : string * list byte)
    (ar : list byte * list (list byte * list byte)) : Prop :=
  archive_of lzo1x_decompress dgo.2 (dgo_file ar.1 ar.2)
  ∧ name_ok ar.1 ∧ String.string_of_list_byte ar.1 = dgo.1
  ∧ Forall obj_ok ar.2 ∧ Z.of_nat (length ar.2) < 2 ^ 32.

(** The insertions a list of files gives rise to: those of the first
    archive, then those of the second, and so on. *)
Definition dgo_insertions (_dgos : list (string * list byte))
    (archives : list (list byte * list (list byte * list byte)))
  : list (string * list byte * string) :=
  mjoin (zip_with (λ dgo ar, obj_insertions dgo.1 ar.2) _dgos archives).

(** ** The listing *)

Definition newline : string := String "010"%char EmptyString.
Definition double_quote : string := String "034"%char EmptyString.

Section Listing.

Context {FunctionRest LinkedRest : Type}.
Implicit Type db : ObjectFileDB FunctionRest LinkedRest.

(** One turn of the loop over the sorted names. *)
Definition list_dgo db (result : string) (dgo_name : string) : string :=
  let result := result +:+ ("(" +:+ double_quote +:+ dgo_name
                            +:+ double_quote +:+ newline) in
  let result :=
    foldl (λ result obj,
             result +:+ ("  " +:+ name obj +:+ " :version "
                         +:+ pretty (version obj) +:+ newline))
          result (subscript (obj_files_by_dgo db) dgo_name) in
  result +:+ ("  )" +:+ newline +:+ newline).

(** [ObjectFileDB::generate_dgo_listing].  [kvs] is the keys of
    [obj_files_by_dgo] in the order in which the iteration over the
    unordered map comes by them; [std::sort] on strings is the sort by
    [operator<], the byte-wise lexicographic order. *)
Definition generate_dgo_listing (kvs : list string) db : string :=
  let result := ";; DGO File Listing" +:+ newline +:+ newline in
  let dgo_names := kvs in
  let dgo_names := merge_sort String.le dgo_names in
  foldl (list_dgo db) result dgo_names.

(** [kvs] is an iteration over the keys of the membership index. *)
Definition iterates db (kvs : list string) : Prop :=
  kvs ≡ₚ (map_to_list (obj_files_by_dgo db)).*1.

End Listing.

(** ** The dumps *)

Section Dumps.

Context {FunctionRest LinkedRest : Type}.
Implicit Type db : ObjectFileDB FunctionRest LinkedRest.

(** [LinkedObjectFile::print_words], [LinkedObjectFile::print_disassembly]
    and [LinkedObjectFile::has_any_functions] are the work of another
    module, [combine_path] comes from util/FileIO.h. *)
Variable print_words print_disassembly :
  LinkedObjectFile FunctionRest LinkedRest → string.
Variable has_any_functions : LinkedObjectFile FunctionRest LinkedRest → bool.
Variable combine_path : string → string → string.

(** Modelled from the spec: [for_each_obj] (declared in ObjectFileDB.h, which
    is not part of the sources at hand), for a body that reads the entries:
    "visits every stored ObjectEntry exactly once, in Global Insertion
    Order".  The entries in the order of the visit: the names of
    [obj_file_order] in turn, and for each name its variants in version
    order. *)
Definition visited db : list (ObjectFileData FunctionRest LinkedRest) :=
  n ← obj_file_order db ; subscript (obj_files_by_name db) n.

(** [ObjectFileDB::write_object_file_words], as the calls of
    [write_text_file(file_name, file_text)] it makes, in order. *)
Definition write_object_file_words (output_dir : string) (dump_v3_only : bool)
    db : list (string * string) :=
  omap (λ obj,
          if (segments (linked_data obj) =? 3) || negb dump_v3_only then
            let file_text := print_words (linked_data obj) in
            let file_name :=
              combine_path output_dir
                (to_unique_name (record obj) +:+ ".txt") in
            Some (file_name, file_text)
          else None)
       (visited db).

(** [ObjectFileDB::write_disassembly], likewise. *)
Definition write_disassembly (output_dir : string)
    (disassemble_objects_without_functions : bool) db
  : list (string * string) :=
  omap (λ obj,
          if has_any_functions (linked_data obj)
             || disassemble_objects_without_functions then
            let file_text := print_disassembly (linked_data obj) in
            let file_name :=
              combine_path output_dir
                (to_unique_name (record obj) +:+ ".func") in
            Some (file_name, file_text)
          else None)
       (visited db).

End Dumps.

(** ** Data of the worked examples *)

Definition eight_bytes : list byte := [x01; x02; x03; x04; x05; x06; x07; x08].

(** The archive [MAIN] with the single object [a] of three bytes. *)
Definition main_name : list byte := [x4d; x41; x49; x4e].
Definition one_object : list (list byte * list byte) :=
  [([x61], [x01; x02; x03])].

(** An object with three segments and one unnamed function in the third, and
    a search for global definitions that leaves the link data alone. *)
Definition same_link_data (seg idx : nat) (ld : LinkedObjectFile unit unit)
  : LinkedObjectFile unit unit := ld.

Definition three_segments : ObjectFileData unit unit :=
  mkData [x01] (mkLinked 3 [[]; []; [mkFunction "" tt]] tt)
         (mkRecord "foo" 0 1) 1.

(** A decompressor that fails on every block, having written nothing. *)
Definition failing_block (block : list byte) : list byte * bool := ([], false).

(** A store that holds [three_segments] under its name, and the store after
    the analysis. *)
Definition foo_store : ObjectFileDB unit unit :=
  mkDB (<["foo" := [three_segments]]> ∅) ∅ ["foo"] (mkStats 0 1 1 1).

Definition foo_store_analyzed : ObjectFileDB unit unit :=
  mkDB (<["foo" := [mkData [x01]
                      (mkLinked 3 [[]; []; [mkFunction "(top-level-init)" tt]]
                                tt)
                      (mkRecord "foo" 0 1) 1]]>
          (<["foo" := [three_segments]]> ∅))
       ∅ ["foo"] (mkStats 0 1 1 1).

(** A store with members in the two archives [A] and [B]. *)
Definition two_archives : ObjectFileDB unit unit :=
  mkDB ∅
       (<["A" := [mkRecord "x" 0 1]]> (<["B" := [mkRecord "y" 0 2]]> ∅))
       [] (mkStats 0 0 0 0).

(** * Properties *)

(** ** Maps of vectors *)

Section MapsOfVectors.
Context {A : Type}.
Implicit Types (m : gmap string (list A)) (k : string) (l : list A).

Lemma subscript_insert_eq m k l : subscript (<[k := l]> m) k = l.
Proof. unfold subscript. by rewrite lookup_insert_eq. Qed.

Lemma subscript_insert_ne m k k' l :
  k ≠ k' → subscript (<[k := l]> m) k' = subscript m k'.
Proof. intros Hne. unfold subscript. by rewrite lookup_insert_ne. Qed.

Lemma subscript_touch m k k' : subscript (touch m k) k' = subscript m k'.
Proof.
  unfold touch. destruct (m !! k) eqn:Hk; [done|].
  destruct (decide (k = k')) as [<-|Hne].
  - rewrite subscript_insert_eq. unfold subscript. by rewrite Hk.
  - by rewrite subscript_insert_ne.
Qed.

Lemma subscript_empty k : subscript (∅ : gmap string (list A)) k = [].
Proof. unfold subscript. by rewrite lookup_empty. Qed.

Lemma subscript_push_back_eq m k x :
  subscript (push_back m k x) k = subscript m k ++ [x].
Proof. apply subscript_insert_eq. Qed.

Lemma subscript_push_back_ne m k k' x :
  k ≠ k' → subscript (push_back m k x) k' = subscript m k'.
Proof. apply subscript_insert_ne. Qed.

Lemma insert_touch m k l : <[k := l]> (touch m k) = <[k := l]> m.
Proof.
  unfold touch. destruct (m !! k); [done|]. by rewrite insert_insert_eq.
Qed.

Lemma push_back_touch m k x : push_back (touch m k) k x = push_back m k x.
Proof. unfold push_back. by rewrite subscript_touch, insert_touch. Qed.

Variable f : A → Z.

Lemma list_total_app l1 l2 :
  list_total f (l1 ++ l2) = list_total f l1 + list_total f l2.
Proof. induction l1 as [|x l1 IH]; simpl; lia. Qed.

Lemma map_total_empty : map_total f (∅ : gmap string (list A)) = 0.
Proof. unfold map_total. by rewrite map_fold_empty. Qed.

Lemma map_total_insert_fresh m k l :
  m !! k = None → map_total f (<[k := l]> m) = list_total f l + map_total f m.
Proof.
  intros Hk. unfold map_total.
  rewrite map_fold_insert_L; [done| |done]. intros. lia.
Qed.

(** Replacing the vector at [k] moves the total by the difference of the
    two vectors' sums. *)
Lemma map_total_insert m k l :
  map_total f (<[k := l]> m)
  = map_total f m - list_total f (subscript m k) + list_total f l.
Proof.
  unfold subscript. destruct (m !! k) as [l0|] eqn:Hk; simpl.
  - rewrite <- (insert_delete_id m k l0 Hk) at 2.
    rewrite <- (insert_delete_eq m k l).
    rewrite !map_total_insert_fresh; try apply lookup_delete_eq. lia.
  - rewrite map_total_insert_fresh; [|done]. lia.
Qed.

Lemma map_total_push_back m k x :
  map_total f (push_back m k x) = map_total f m + f x.
Proof.
  unfold push_back. rewrite map_total_insert, list_total_app. simpl. lia.
Qed.

End MapsOfVectors.

(** ** The de-duplicating store *)

Section StoreFacts.
Context {FunctionRest LinkedRest : Type}.
Variable crc32 : list byte → Z.
Variable init_linked_data : LinkedObjectFile FunctionRest LinkedRest.
Variable init_reference_count : Z.

Abbreviation Entry := (ObjectFileData FunctionRest LinkedRest).
Abbreviation Store := (ObjectFileDB FunctionRest LinkedRest).
Abbreviation add :=
  (add_obj_from_dgo crc32 init_linked_data init_reference_count).
Abbreviation add_seq :=
  (add_all crc32 init_linked_data init_reference_count).

Implicit Types (es : list Entry) (e : Entry) (db : Store).

(** *** The scan for a stored duplicate *)

Lemma find_duplicate_None es n h :
  find_duplicate es n h = None ↔ Forall (λ e, same_content e n h = false) es.
Proof.
  induction es as [|e es IH]; simpl.
  - split; [constructor|done].
  - destruct (same_content e n h) eqn:He.
    + split; [done|]. intros Hall. inversion Hall; congruence.
    + destruct (find_duplicate es n h) as [[es' r]|].
      * split; [done|]. intros Hall. inversion Hall as [|? ? _ Hes]; subst.
        apply IH in Hes. done.
      * split; [|done]. intros _. constructor; [done|]. by apply IH.
Qed.

(** A successful scan stops at the first entry [i] with the same size and
    hash, and changes that entry's [reference_count] only. *)
Lemma find_duplicate_Some es n h es' r :
  find_duplicate es n h = Some (es', r) ↔
  ∃ i e, es !! i = Some e ∧ same_content e n h = true
         ∧ Forall (λ e', same_content e' n h = false) (take i es)
         ∧ es' = <[i := bump e]> es ∧ r = record e.
Proof.
  revert es' r. induction es as [|e0 es IH]; intros es' r; simpl.
  - split; [done|]. intros (i & e & Hi & _). by rewrite lookup_nil in Hi.
  - destruct (same_content e0 n h) eqn:He0.
    + split.
      * intros [= <- <-]. exists O, e0. simpl. repeat split; auto.
      * intros (i & e & Hi & He & Hbefore & -> & ->).
        destruct i as [|i]; simpl in *.
        -- by injection Hi as ->.
        -- inversion Hbefore; congruence.
    + destruct (find_duplicate es n h) as [[es1 r1]|] eqn:Hscan.
      * split.
        -- intros [= <- <-].
           destruct (proj1 (IH es1 r1) eq_refl)
             as (i & e & Hi & He & Hbefore & -> & ->).
           exists (S i), e. simpl. repeat split; auto.
        -- intros (i & e & Hi & He & Hbefore & -> & ->).
           destruct i as [|i]; simpl in *.
           ++ injection Hi as ->. congruence.
           ++ inversion Hbefore; subst.
              assert (Some (es1, r1) = Some (<[i := bump e]> es, record e))
                as [= -> ->]; [|done].
              apply IH. exists i, e. auto.
      * split; [done|].
        intros (i & e & Hi & He & Hbefore & -> & ->).
        destruct i as [|i]; simpl in *.
        -- injection Hi as ->. congruence.
        -- inversion Hbefore; subst.
           assert (None = Some (<[i := bump e]> es, record e));
             [|done].
           apply IH. exists i, e. auto.
Qed.

(** *** The two paths of [add_obj_from_dgo] *)

Lemma add_duplicate obj_name obj_data dgo db es' r :
  find_duplicate (subscript (obj_files_by_name db) obj_name)
                 (length obj_data) (crc32 obj_data) = Some (es', r) →
  add obj_name obj_data dgo db
  = mkDB (<[obj_name := es']> (obj_files_by_name db))
         (push_back (obj_files_by_dgo db) dgo r)
         (obj_file_order db)
         (count_obj (stats db)).
Proof.
  intros Hscan. unfold add_obj_from_dgo.
  rewrite subscript_touch, Hscan. by rewrite insert_touch.
Qed.

Lemma add_new_variant obj_name obj_data dgo db :
  find_duplicate (subscript (obj_files_by_name db) obj_name)
                 (length obj_data) (crc32 obj_data) = None →
  let variants := subscript (obj_files_by_name db) obj_name in
  let r := mkRecord obj_name (Z.of_nat (length variants)) (crc32 obj_data) in
  add obj_name obj_data dgo db
  = mkDB (push_back (obj_files_by_name db) obj_name
            (mkData obj_data init_linked_data r init_reference_count))
         (push_back (obj_files_by_dgo db) dgo r)
         (match variants with
          | [] => obj_file_order db ++ [obj_name]
          | _ :: _ => obj_file_order db
          end)
         (count_unique (count_obj (stats db)) (length obj_data)).
Proof.
  intros Hscan. unfold add_obj_from_dgo.
  rewrite subscript_touch, Hscan. by rewrite push_back_touch.
Qed.

(** *** What one insertion leaves alone *)

Lemma bump_fields e :
  data (bump e) = data e ∧ record (bump e) = record e
  ∧ linked_data (bump e) = linked_data e
  ∧ reference_count (bump e) = reference_count e + 1.
Proof. done. Qed.

(** Variants stored under another name are not touched. *)
Lemma add_other_name obj_name obj_data dgo db n :
  n ≠ obj_name →
  obj_files_by_name (add obj_name obj_data dgo db) !! n
  = obj_files_by_name db !! n.
Proof.
  intros Hne.
  destruct (find_duplicate (subscript (obj_files_by_name db) obj_name)
              (length obj_data) (crc32 obj_data)) as [[es' r]|] eqn:Hscan.
  - rewrite (add_duplicate _ _ _ _ _ _ Hscan). simpl.
    by rewrite lookup_insert_ne.
  - rewrite (add_new_variant _ _ _ _ Hscan). simpl.
    unfold push_back. by rewrite lookup_insert_ne.
Qed.

(** The path taken when some stored variant has the size and hash of the
    new bytes: entry [i] is the first such variant. *)
Lemma add_duplicate_at obj_name obj_data dgo db i e :
  let variants := subscript (obj_files_by_name db) obj_name in
  variants !! i = Some e →
  same_content e (length obj_data) (crc32 obj_data) = true →
  Forall (λ e', same_content e' (length obj_data) (crc32 obj_data) = false)
         (take i variants) →
  add obj_name obj_data dgo db
  = mkDB (<[obj_name := <[i := bump e]> variants]> (obj_files_by_name db))
         (push_back (obj_files_by_dgo db) dgo (record e))
         (obj_file_order db)
         (count_obj (stats db)).
Proof.
  intros variants Hi He Hbefore. apply add_duplicate.
  apply find_duplicate_Some. exists i, e. auto.
Qed.

(** C7 (as amended).  When an insertion matches a stored variant (entry [i]
    is the first one of that name with the size and hash of the new bytes),
    what changes is: that variant's [reference_count], one higher; the
    membership list of the inserting archive, one record longer; and the
    counter of all occurrences, one higher.  The variant's bytes, record
    (name, version, hash) and link data, every other variant of the name,
    the variants of every other name, the membership lists of the other
    archives, the insertion order and the counters of distinct objects and
    distinct bytes are as before, and the number of stored entries is the
    same. *)
Theorem duplicate_insert_frame obj_name obj_data dgo db i e :
  let variants := subscript (obj_files_by_name db) obj_name in
  variants !! i = Some e →
  same_content e (length obj_data) (crc32 obj_data) = true →
  Forall (λ e', same_content e' (length obj_data) (crc32 obj_data) = false)
         (take i variants) →
  let db' := add obj_name obj_data dgo db in
  let variants' := subscript (obj_files_by_name db') obj_name in
  (∃ e', variants' !! i = Some e'
         ∧ reference_count e' = reference_count e + 1
         ∧ data e' = data e ∧ record e' = record e
         ∧ linked_data e' = linked_data e)
  ∧ length variants' = length variants
  ∧ (∀ j, j ≠ i → variants' !! j = variants !! j)
  ∧ (∀ n, n ≠ obj_name →
       obj_files_by_name db' !! n = obj_files_by_name db !! n)
  ∧ subscript (obj_files_by_dgo db') dgo
    = subscript (obj_files_by_dgo db) dgo ++ [record e]
  ∧ (∀ a, a ≠ dgo → obj_files_by_dgo db' !! a = obj_files_by_dgo db !! a)
  ∧ obj_file_order db' = obj_file_order db
  ∧ unique_obj_files (stats db') = unique_obj_files (stats db)
  ∧ unique_obj_bytes (stats db') = unique_obj_bytes (stats db)
  ∧ total_dgo_bytes (stats db') = total_dgo_bytes (stats db)
  ∧ total_obj_files (stats db') = total_obj_files (stats db) + 1
  ∧ map_total (λ _, 1) (obj_files_by_name db')
    = map_total (λ _, 1) (obj_files_by_name db).
Proof.
  intros variants Hi He Hbefore db' variants'.
  assert (Hdb' : db' = mkDB
    (<[obj_name := <[i := bump e]> variants]> (obj_files_by_name db))
    (push_back (obj_files_by_dgo db) dgo (record e))
    (obj_file_order db) (count_obj (stats db)))
    by (by apply add_duplicate_at).
  assert (Hv' : variants' = <[i := bump e]> variants).
  { unfold variants'. rewrite Hdb'. simpl. apply subscript_insert_eq. }
  assert (Hlt : (i < length variants)%nat) by (by eapply lookup_lt_Some).
  split.
  { exists (bump e). rewrite Hv'. split; [by apply list_lookup_insert_eq|].
    done. }
  split; [by rewrite Hv', length_insert|].
  split; [intros j Hj; rewrite Hv'; by apply list_lookup_insert_ne|].
  split; [intros n Hn; by apply add_other_name|].
  rewrite Hdb'. simpl.
  split; [apply subscript_push_back_eq|].
  split; [intros a Ha; unfold push_back; by rewrite lookup_insert_ne|].
  repeat (split; [done|]).
  rewrite map_total_insert. fold variants.
  assert (Hlen : ∀ l : list Entry,
    list_total (λ _, 1) l = Z.of_nat (length l)).
  { induction l; simpl in *; lia. }
  rewrite !Hlen, length_insert. lia.
Qed.

(** *** Two insertions of one content *)

(** On the duplicate path the new bytes are looked at through their length
    and hash only. *)
Lemma add_duplicate_by_size_and_hash obj_name c c' dgo db :
  is_Some (find_duplicate (subscript (obj_files_by_name db) obj_name)
                          (length c) (crc32 c)) →
  length c' = length c → crc32 c' = crc32 c →
  add obj_name c' dgo db = add obj_name c dgo db.
Proof.
  intros [[es' r] Hscan] Hlen Hcrc.
  rewrite (add_duplicate _ c _ _ _ _ Hscan).
  apply add_duplicate. by rewrite Hlen, Hcrc.
Qed.

Lemma same_content_fresh obj_name c v rc :
  same_content (mkData c init_linked_data (mkRecord obj_name v (crc32 c)) rc)
               (length c) (crc32 c) = true.
Proof.
  unfold same_content. simpl. rewrite Nat.eqb_refl, Z.eqb_refl. done.
Qed.

Lemma add_twice obj_name c dgo1 dgo2 db :
  subscript (obj_files_by_name db) obj_name = [] →
  dgo1 ≠ dgo2 →
  let r := mkRecord obj_name 0 (crc32 c) in
  let db' := add obj_name c dgo2 (add obj_name c dgo1 db) in
  obj_files_by_name db'
  = <[obj_name := [mkData c init_linked_data r (init_reference_count + 1)]]>
      (obj_files_by_name db)
  ∧ subscript (obj_files_by_dgo db') dgo1
    = subscript (obj_files_by_dgo db) dgo1 ++ [r]
  ∧ subscript (obj_files_by_dgo db') dgo2
    = subscript (obj_files_by_dgo db) dgo2 ++ [r]
  ∧ obj_file_order db' = obj_file_order db ++ [obj_name].
Proof.
  intros Hfresh Hne r db'.
  assert (Hscan1 : find_duplicate (subscript (obj_files_by_name db) obj_name)
                     (length c) (crc32 c) = None) by (by rewrite Hfresh).
  pose proof (add_new_variant _ _ dgo1 _ Hscan1) as H1.
  rewrite Hfresh in H1. simpl in H1. fold r in H1.
  set (db1 := add obj_name c dgo1 db) in *.
  set (e := mkData c init_linked_data r init_reference_count) in *.
  assert (Hv1 : subscript (obj_files_by_name db1) obj_name = [e]).
  { rewrite H1. simpl. rewrite subscript_push_back_eq. by rewrite Hfresh. }
  assert (H2 : db' = mkDB
    (<[obj_name := <[O := bump e]> [e]]> (obj_files_by_name db1))
    (push_back (obj_files_by_dgo db1) dgo2 (record e))
    (obj_file_order db1) (count_obj (stats db1))).
  { unfold db'. rewrite <- Hv1. apply add_duplicate_at.
    - by rewrite Hv1.
    - apply same_content_fresh.
    - constructor. }
  rewrite H2, H1. simpl. unfold push_back at 1.
  rewrite insert_insert_eq.
  repeat split.
  - rewrite subscript_push_back_ne by done. apply subscript_push_back_eq.
  - rewrite subscript_push_back_eq. by rewrite subscript_push_back_ne.
Qed.

(** *** Sequences of insertions *)

Lemma add_seq_nil db : add_seq [] db = db.
Proof. done. Qed.

Lemma add_seq_cons op ops db :
  add_seq (op :: ops) db = add_seq ops (add op.1.1 op.1.2 op.2 db).
Proof. done. Qed.

Lemma add_seq_snoc ops op db :
  add_seq (ops ++ [op]) db = add op.1.1 op.1.2 op.2 (add_seq ops db).
Proof. unfold add_all. by rewrite foldl_app. Qed.

(** A property kept by every insertion is kept by every sequence. *)
Lemma add_seq_preserves (P : Store → Prop) :
  (∀ obj_name obj_data dgo db, P db → P (add obj_name obj_data dgo db)) →
  ∀ ops db, P db → P (add_seq ops db).
Proof.
  intros Hstep ops. induction ops as [|op ops IH]; intros db Hdb; [done|].
  rewrite add_seq_cons. apply IH, Hstep, Hdb.
Qed.

(** *** Stored entries stay *)

(** An insertion keeps every stored entry at its place; its bytes, record
    and link data are not written. *)
Lemma add_keeps_entry obj_name obj_data dgo db n i e :
  subscript (obj_files_by_name db) n !! i = Some e →
  ∃ e', subscript (obj_files_by_name (add obj_name obj_data dgo db)) n !! i
        = Some e'
        ∧ record e' = record e ∧ data e' = data e
        ∧ linked_data e' = linked_data e.
Proof.
  intros Hi. destruct (decide (n = obj_name)) as [->|Hne].
  - destruct (find_duplicate (subscript (obj_files_by_name db) obj_name)
                (length obj_data) (crc32 obj_data)) as [[es' r]|] eqn:Hscan.
    + rewrite (add_duplicate _ _ _ _ _ _ Hscan). simpl.
      rewrite subscript_insert_eq.
      apply find_duplicate_Some in Hscan
        as (i0 & e0 & Hi0 & _ & _ & -> & _).
      destruct (decide (i0 = i)) as [->|Hii].
      * exists (bump e0). split.
        -- apply list_lookup_insert_eq. by eapply lookup_lt_Some.
        -- assert (e0 = e) as -> by congruence. done.
      * exists e. by rewrite list_lookup_insert_ne.
    + rewrite (add_new_variant _ _ _ _ Hscan). simpl.
      rewrite subscript_push_back_eq. exists e.
      by rewrite (lookup_app_l_Some _ _ _ _ Hi).
  - exists e. unfold subscript in *. by rewrite add_other_name.
Qed.

Lemma add_seq_keeps_entry ops db n i e :
  subscript (obj_files_by_name db) n !! i = Some e →
  ∃ e', subscript (obj_files_by_name (add_seq ops db)) n !! i = Some e'
        ∧ record e' = record e ∧ data e' = data e
        ∧ linked_data e' = linked_data e.
Proof.
  revert db e. induction ops as [|op ops IH]; intros db e Hi.
  - exists e. done.
  - rewrite add_seq_cons.
    destruct (add_keeps_entry op.1.1 op.1.2 op.2 db n i e Hi)
      as (e1 & Hi1 & Hr1 & Hd1 & Hl1).
    destruct (IH _ _ Hi1) as (e2 & Hi2 & Hr2 & Hd2 & Hl2).
    exists e2. repeat split; congruence.
Qed.

(** *** Versions are positions *)

Lemma versions_indexed_empty : versions_indexed (empty_db : Store).
Proof.
  intros n i e. simpl. rewrite subscript_empty, lookup_nil. done.
Qed.

Lemma versions_indexed_add obj_name obj_data dgo db :
  versions_indexed db → versions_indexed (add obj_name obj_data dgo db).
Proof.
  intros Hinv n i e'.
  destruct (decide (n = obj_name)) as [->|Hne].
  - destruct (find_duplicate (subscript (obj_files_by_name db) obj_name)
                (length obj_data) (crc32 obj_data)) as [[es' r]|] eqn:Hscan.
    + rewrite (add_duplicate _ _ _ _ _ _ Hscan). simpl.
      rewrite subscript_insert_eq.
      apply find_duplicate_Some in Hscan
        as (i0 & e0 & Hi0 & _ & _ & -> & _).
      destruct (decide (i0 = i)) as [->|Hii].
      * rewrite list_lookup_insert_eq by (by eapply lookup_lt_Some).
        intros [= <-]. simpl. by apply Hinv.
      * rewrite list_lookup_insert_ne by done. apply Hinv.
    + rewrite (add_new_variant _ _ _ _ Hscan). simpl.
      rewrite subscript_push_back_eq.
      intros Hlook. apply lookup_app_Some in Hlook as [Hold|[Hle Hnew]].
      * by apply Hinv.
      * apply list_lookup_singleton_Some in Hnew as [Hi <-]. simpl.
        split; [done|]. f_equal. lia.
  - unfold subscript. rewrite add_other_name by done. apply Hinv.
Qed.

Lemma versions_indexed_add_seq ops db :
  versions_indexed db → versions_indexed (add_seq ops db).
Proof.
  apply (add_seq_preserves versions_indexed).
  intros. by apply versions_indexed_add.
Qed.

(** *** Unique names *)

Lemma to_unique_name_inj (r1 r2 : ObjectFileRecord) :
  name r1 = name r2 → to_unique_name r1 = to_unique_name r2 →
  version r1 = version r2.
Proof.
  unfold to_unique_name. intros -> Heq.
  apply (inj (String.app (name r2))) in Heq.
  apply (inj (String.app "-v")) in Heq.
  by apply (inj pretty) in Heq.
Qed.

(** Two entries stored at different positions of one name have the same
    name and different unique names. *)
Lemma unique_names_differ db n i j ei ej :
  versions_indexed db → i ≠ j →
  subscript (obj_files_by_name db) n !! i = Some ei →
  subscript (obj_files_by_name db) n !! j = Some ej →
  name (record ei) = name (record ej)
  ∧ to_unique_name (record ei) ≠ to_unique_name (record ej).
Proof.
  intros Hinv Hij Hi Hj.
  destruct (Hinv _ _ _ Hi) as [Hni Hvi], (Hinv _ _ _ Hj) as [Hnj Hvj].
  split; [congruence|]. intros Heq.
  apply to_unique_name_inj in Heq; [|congruence]. lia.
Qed.

(** C2.  In a store built by insertions, inserting bytes under a name that
    has stored variants, none of them with the size and hash of the new
    bytes, appends one entry for that name; its version is the number of
    variants the name had (1 when it had a single one) and its name is the
    given one.  Whatever is inserted later, the entry stays at its position
    with the same record, and any two variants of the name have the same
    name and different unique names. *)
Theorem versioning ops0 obj_name obj_data dgo ops :
  let db := add_seq ops0 empty_db in
  let variants := subscript (obj_files_by_name db) obj_name in
  variants ≠ [] →
  Forall (λ e, same_content e (length obj_data) (crc32 obj_data) = false)
         variants →
  let db1 := add obj_name obj_data dgo db in
  let db2 := add_seq ops db1 in
  ∃ e,
    subscript (obj_files_by_name db1) obj_name = variants ++ [e]
    ∧ data e = obj_data
    ∧ name (record e) = obj_name
    ∧ version (record e) = Z.of_nat (length variants)
    ∧ (length variants = 1%nat → version (record e) = 1)
    ∧ (∃ e', subscript (obj_files_by_name db2) obj_name !! length variants
             = Some e'
             ∧ record e' = record e ∧ data e' = data e)
    ∧ (∀ i j ei ej, i ≠ j →
         subscript (obj_files_by_name db2) obj_name !! i = Some ei →
         subscript (obj_files_by_name db2) obj_name !! j = Some ej →
         name (record ei) = name (record ej)
         ∧ to_unique_name (record ei) ≠ to_unique_name (record ej)).
Proof.
  intros db variants Hsome Hnomatch db1 db2.
  assert (Hscan : find_duplicate variants (length obj_data) (crc32 obj_data)
                  = None) by (by apply find_duplicate_None).
  pose proof (add_new_variant _ _ dgo _ Hscan) as Hdb1. simpl in Hdb1.
  fold variants db1 in Hdb1.
  set (r := mkRecord obj_name (Z.of_nat (length variants)) (crc32 obj_data))
    in *.
  set (e := mkData obj_data init_linked_data r init_reference_count) in *.
  assert (Hv1 : subscript (obj_files_by_name db1) obj_name = variants ++ [e]).
  { rewrite Hdb1. simpl. apply subscript_push_back_eq. }
  exists e. repeat (split; [done|]).
  split; [intros Hone; simpl; by rewrite Hone|].
  split.
  - destruct (add_seq_keeps_entry ops db1 obj_name (length variants) e)
      as (e' & He' & Hr & Hd & _).
    + rewrite Hv1. by apply list_lookup_middle.
    + by exists e'.
  - intros i j ei ej Hij. apply unique_names_differ; [|done].
    apply versions_indexed_add_seq, versions_indexed_add.
    apply versions_indexed_add_seq, versions_indexed_empty.
Qed.

(** *** The insertion order *)

Lemma first_seen_elem_of names n : n ∈ first_seen names ↔ n ∈ names.
Proof.
  induction names as [|m names IH]; simpl; [done|].
  rewrite !elem_of_cons, list_elem_of_filter, IH.
  destruct (decide (n = m)); naive_solver.
Qed.

Lemma first_seen_NoDup names : NoDup (first_seen names).
Proof.
  induction names as [|m names IH]; simpl; constructor.
  - rewrite list_elem_of_filter. naive_solver.
  - by apply NoDup_filter.
Qed.

(** After an insertion the name has a stored variant. *)
Lemma add_stores obj_name obj_data dgo db :
  subscript (obj_files_by_name (add obj_name obj_data dgo db)) obj_name ≠ [].
Proof.
  destruct (find_duplicate (subscript (obj_files_by_name db) obj_name)
              (length obj_data) (crc32 obj_data)) as [[es' r]|] eqn:Hscan.
  - rewrite (add_duplicate _ _ _ _ _ _ Hscan). simpl.
    rewrite subscript_insert_eq.
    apply find_duplicate_Some in Hscan as (i & e & Hi & _ & _ & -> & _).
    intros Hnil. apply (f_equal length) in Hnil.
    rewrite length_insert in Hnil. apply lookup_lt_Some in Hi.
    simpl in Hnil. lia.
  - rewrite (add_new_variant _ _ _ _ Hscan). simpl.
    rewrite subscript_push_back_eq. by intros [? ?]%app_eq_nil.
Qed.

(** The name is appended to the order exactly when it has no stored variant
    yet; a duplicate and a later variant leave the order alone. *)
Lemma add_order obj_name obj_data dgo db :
  obj_file_order (add obj_name obj_data dgo db)
  = if decide (subscript (obj_files_by_name db) obj_name = [])
    then obj_file_order db ++ [obj_name]
    else obj_file_order db.
Proof.
  destruct (find_duplicate (subscript (obj_files_by_name db) obj_name)
              (length obj_data) (crc32 obj_data)) as [[es' r]|] eqn:Hscan.
  - rewrite (add_duplicate _ _ _ _ _ _ Hscan). simpl.
    rewrite decide_False; [done|]. intros Hnil.
    by rewrite Hnil in Hscan.
  - rewrite (add_new_variant _ _ _ _ Hscan). simpl.
    destruct (subscript (obj_files_by_name db) obj_name); by case_decide.
Qed.

Lemma order_complete_empty : order_complete (empty_db : Store).
Proof.
  split; simpl; [constructor|]. intros n. rewrite subscript_empty.
  split; [by intros ?%elem_of_nil|done].
Qed.

Lemma order_complete_add obj_name obj_data dgo db :
  order_complete db → order_complete (add obj_name obj_data dgo db).
Proof.
  intros [Hnodup Hiff]. unfold order_complete. rewrite add_order.
  assert (Hother : ∀ n, n ≠ obj_name →
    subscript (obj_files_by_name (add obj_name obj_data dgo db)) n
    = subscript (obj_files_by_name db) n).
  { intros n Hn. unfold subscript. by rewrite add_other_name. }
  pose proof (add_stores obj_name obj_data dgo db) as Hstored.
  case_decide as Hnil.
  - split.
    + apply NoDup_app. split; [done|]. split; [|apply NoDup_singleton].
      intros n Hn ->%list_elem_of_singleton. by apply Hiff in Hn.
    + intros n. rewrite elem_of_app, list_elem_of_singleton.
      destruct (decide (n = obj_name)) as [->|Hne]; [naive_solver|].
      rewrite Hother by done. rewrite Hiff. naive_solver.
  - split; [done|]. intros n.
    destruct (decide (n = obj_name)) as [->|Hne].
    + rewrite Hiff. naive_solver.
    + by rewrite Hother.
Qed.

Lemma add_seq_order ops db :
  order_complete db →
  obj_file_order (add_seq ops db)
  = obj_file_order db
    ++ filter (λ n, n ∉ obj_file_order db) (first_seen (ops.*1.*1)).
Proof.
  revert db. induction ops as [|[[n d] a] ops IH]; intros db Hinv.
  - simpl. by rewrite app_nil_r.
  - rewrite add_seq_cons. simpl.
    rewrite IH by (by apply order_complete_add).
    rewrite add_order. destruct Hinv as [_ Hiff].
    case_decide as Hnil.
    + assert (Hn : n ∉ obj_file_order db) by (rewrite Hiff; naive_solver).
      rewrite filter_cons_True by done.
      rewrite <- app_assoc. simpl. do 2 f_equal.
      rewrite list_filter_filter. apply list_filter_iff.
      intros m. rewrite elem_of_app, list_elem_of_singleton. naive_solver.
    + assert (Hn : n ∈ obj_file_order db) by (by apply Hiff).
      rewrite filter_cons_False by naive_solver.
      rewrite list_filter_filter. f_equal. apply list_filter_iff.
      intros m. split; [|naive_solver]. intros Hm. split; [done|].
      by intros ->.
Qed.

(** C3.  After any sequence of insertions into the empty store, the order
    is the sequence of the inserted names in first-seen order, each name
    once: a function of the sequence of names alone.  At each further
    insertion the name is appended exactly when no variant of it is stored
    yet, and the order is left as it is otherwise (a duplicate or a later
    variant). *)
Theorem global_insertion_order ops :
  let db := add_seq ops empty_db in
  obj_file_order db = first_seen (ops.*1.*1)
  ∧ NoDup (obj_file_order db)
  ∧ (∀ n, n ∈ obj_file_order db ↔ n ∈ ops.*1.*1)
  ∧ ∀ obj_name obj_data dgo,
      obj_file_order (add obj_name obj_data dgo db)
      = if decide (obj_name ∈ ops.*1.*1)
        then obj_file_order db
        else obj_file_order db ++ [obj_name].
Proof.
  intros db.
  assert (Horder : obj_file_order db = first_seen (ops.*1.*1)).
  { unfold db. rewrite add_seq_order by apply order_complete_empty.
    simpl. induction (first_seen _) as [|m l IHl]; [done|].
    rewrite filter_cons_True by apply not_elem_of_nil. by rewrite IHl. }
  assert (Hinv : order_complete db).
  { unfold db. apply (add_seq_preserves order_complete).
    - intros. by apply order_complete_add.
    - apply order_complete_empty. }
  split; [done|]. rewrite Horder.
  split; [apply first_seen_NoDup|].
  split; [apply first_seen_elem_of|].
  intros obj_name obj_data dgo. rewrite add_order, Horder.
  destruct Hinv as [_ Hiff]. specialize (Hiff obj_name).
  rewrite Horder, first_seen_elem_of in Hiff.
  repeat case_decide; naive_solver.
Qed.

(** *** Counters *)

Lemma list_total_insert {A} (f : A → Z) (l : list A) i x y :
  l !! i = Some x → f y = f x → list_total f (<[i := y]> l) = list_total f l.
Proof.
  revert i. induction l as [|z l IH]; intros [|i] Hi Hf; simpl in *;
    try done.
  - injection Hi as ->. lia.
  - by rewrite IH.
Qed.

Lemma list_total_count {A} (l : list A) :
  list_total (λ _, 1) l = Z.of_nat (length l).
Proof. induction l; simpl in *; lia. Qed.

(** What one insertion does to the counters: the occurrence counter goes up
    by one on both paths, the two counters of distinct content on the
    new-variant path only. *)
Lemma add_stats obj_name obj_data dgo db :
  let s := stats db in
  let s' := stats (add obj_name obj_data dgo db) in
  total_obj_files s' = total_obj_files s + 1
  ∧ total_dgo_bytes s' = total_dgo_bytes s
  ∧ match find_duplicate (subscript (obj_files_by_name db) obj_name)
            (length obj_data) (crc32 obj_data) with
    | Some _ =>
        unique_obj_files s' = unique_obj_files s
        ∧ unique_obj_bytes s' = unique_obj_bytes s
    | None =>
        unique_obj_files s' = unique_obj_files s + 1
        ∧ unique_obj_bytes s' = unique_obj_bytes s
                                + Z.of_nat (length obj_data)
    end.
Proof.
  destruct (find_duplicate (subscript (obj_files_by_name db) obj_name)
              (length obj_data) (crc32 obj_data)) as [[es' r]|] eqn:Hscan.
  - by rewrite (add_duplicate _ _ _ _ _ _ Hscan).
  - by rewrite (add_new_variant _ _ _ _ Hscan).
Qed.

(** What one insertion does to the stored entries. *)
Lemma add_stored obj_name obj_data dgo db :
  let db' := add obj_name obj_data dgo db in
  match find_duplicate (subscript (obj_files_by_name db) obj_name)
          (length obj_data) (crc32 obj_data) with
  | Some _ =>
      stored_entries db' = stored_entries db
      ∧ stored_bytes db' = stored_bytes db
  | None =>
      stored_entries db' = stored_entries db + 1
      ∧ stored_bytes db' = stored_bytes db + Z.of_nat (length obj_data)
  end.
Proof.
  unfold stored_entries, stored_bytes.
  destruct (find_duplicate (subscript (obj_files_by_name db) obj_name)
              (length obj_data) (crc32 obj_data)) as [[es' r]|] eqn:Hscan.
  - rewrite (add_duplicate _ _ _ _ _ _ Hscan). simpl.
    apply find_duplicate_Some in Hscan as (i & e & Hi & _ & _ & -> & _).
    rewrite !map_total_insert.
    rewrite !(list_total_insert _ _ _ _ _ Hi) by done. lia.
  - rewrite (add_new_variant _ _ _ _ Hscan). simpl.
    by rewrite !map_total_push_back.
Qed.

(** Every insertion appends exactly one record to the membership list of
    its archive, on either path, and leaves the other lists alone. *)
Lemma add_membership obj_name obj_data dgo db :
  ∃ r, obj_files_by_dgo (add obj_name obj_data dgo db)
       = push_back (obj_files_by_dgo db) dgo r.
Proof.
  destruct (find_duplicate (subscript (obj_files_by_name db) obj_name)
              (length obj_data) (crc32 obj_data)) as [[es' r]|] eqn:Hscan.
  - rewrite (add_duplicate _ _ _ _ _ _ Hscan). by eexists.
  - rewrite (add_new_variant _ _ _ _ Hscan). by eexists.
Qed.

Lemma counters_consistent_empty : counters_consistent (empty_db : Store) 0.
Proof.
  unfold counters_consistent, stored_entries, stored_bytes,
    membership_records. simpl. by rewrite !map_total_empty.
Qed.

Lemma counters_consistent_add obj_name obj_data dgo db calls :
  counters_consistent db calls →
  counters_consistent (add obj_name obj_data dgo db) (S calls).
Proof.
  intros (Htotal & Hunique & Hbytes & Hmember & Hle).
  pose proof (add_stats obj_name obj_data dgo db) as (Ht & _ & Hs).
  pose proof (add_stored obj_name obj_data dgo db) as Hst.
  destruct (add_membership obj_name obj_data dgo db) as [r Hr].
  unfold counters_consistent, membership_records in *.
  rewrite Hr, map_total_push_back.
  destruct (find_duplicate _ _ _); simpl in *; lia.
Qed.

Lemma counters_consistent_add_seq ops db calls :
  counters_consistent db calls →
  counters_consistent (add_seq ops db) (calls + length ops).
Proof.
  revert db calls. induction ops as [|op ops IH]; intros db calls Hinv.
  - simpl. by rewrite Nat.add_0_r.
  - rewrite add_seq_cons. simpl length.
    replace (calls + S (length ops))%nat with (S calls + length ops)%nat
      by lia.
    by apply IH, counters_consistent_add.
Qed.

(** C4.  After any sequence of insertions into the empty store, the counter
    of all occurrences is the number of insertions made; the counter of
    distinct objects is the number of stored entries and is at most the
    occurrence counter; the counter of distinct bytes is the sum of the byte
    lengths of the stored entries; the occurrence counter is also the number
    of records over the membership lists of all archives.  Each further
    insertion adds one to the occurrence counter, and changes the two
    counters of distinct content on the new-variant path only (by one, and by
    the length of the bytes). *)
Theorem statistics_consistency ops :
  let db := add_seq ops empty_db in
  total_obj_files (stats db) = Z.of_nat (length ops)
  ∧ unique_obj_files (stats db) = stored_entries db
  ∧ unique_obj_files (stats db) ≤ total_obj_files (stats db)
  ∧ unique_obj_bytes (stats db) = stored_bytes db
  ∧ total_obj_files (stats db) = membership_records db
  ∧ ∀ obj_name obj_data dgo,
      let s := stats db in
      let s' := stats (add obj_name obj_data dgo db) in
      total_obj_files s' = total_obj_files s + 1
      ∧ match find_duplicate (subscript (obj_files_by_name db) obj_name)
                (length obj_data) (crc32 obj_data) with
        | Some _ =>
            unique_obj_files s' = unique_obj_files s
            ∧ unique_obj_bytes s' = unique_obj_bytes s
        | None =>
            unique_obj_files s' = unique_obj_files s + 1
            ∧ unique_obj_bytes s' = unique_obj_bytes s
                                    + Z.of_nat (length obj_data)
        end.
Proof.
  intros db.
  destruct (counters_consistent_add_seq ops empty_db 0
              counters_consistent_empty) as (Ht & Hu & Hb & Hm & Hle).
  fold db in Ht, Hu, Hb, Hm, Hle. simpl in Ht.
  repeat (split; [done|]).
  intros obj_name obj_data dgo.
  pose proof (add_stats obj_name obj_data dgo db) as (Ht' & _ & Hs).
  by split.
Qed.

(** *** Membership lists *)

Lemma occurrences_in_cons dgo op ops :
  occurrences_in dgo (op :: ops)
  = ((if decide (op.2 = dgo) then 1 else 0) + occurrences_in dgo ops)%nat.
Proof.
  unfold occurrences_in. rewrite filter_cons. by case_decide.
Qed.

Lemma add_seq_membership ops db dgo :
  length (subscript (obj_files_by_dgo (add_seq ops db)) dgo)
  = (length (subscript (obj_files_by_dgo db) dgo)
     + occurrences_in dgo ops)%nat.
Proof.
  revert db. induction ops as [|[[n d] a] ops IH]; intros db.
  - unfold occurrences_in. simpl. lia.
  - rewrite add_seq_cons, IH, occurrences_in_cons. simpl.
    destruct (add_membership n d a db) as [r ->].
    case_decide as Ha.
    + subst a. rewrite subscript_push_back_eq, length_app. simpl. lia.
    + rewrite subscript_push_back_ne by done. lia.
Qed.

(** C9.  Every insertion appends exactly one record to the membership list
    of its archive, on the duplicate path and on the new-variant path, and
    leaves the lists of the other archives as they are.  So after any
    sequence of insertions into the empty store the membership list of each
    archive is as long as the number of insertions made from that archive,
    and the lengths of all membership lists add up to the counter of all
    occurrences. *)
Theorem membership_counts ops :
  let db := add_seq ops empty_db in
  (∀ dgo, length (subscript (obj_files_by_dgo db) dgo)
          = occurrences_in dgo ops)
  ∧ membership_records db = total_obj_files (stats db)
  ∧ ∀ obj_name obj_data dgo,
      let db' := add obj_name obj_data dgo db in
      (∃ r, subscript (obj_files_by_dgo db') dgo
            = subscript (obj_files_by_dgo db) dgo ++ [r])
      ∧ ∀ a, a ≠ dgo → obj_files_by_dgo db' !! a = obj_files_by_dgo db !! a.
Proof.
  intros db. split.
  { intros dgo. unfold db. rewrite add_seq_membership. simpl.
    by rewrite subscript_empty. }
  split.
  { by destruct (counters_consistent_add_seq ops empty_db 0
                   counters_consistent_empty) as (_ & _ & _ & Hm & _). }
  intros obj_name obj_data dgo db'.
  destruct (add_membership obj_name obj_data dgo db) as [r Hr].
  fold db' in Hr. rewrite Hr. split.
  - exists r. apply subscript_push_back_eq.
  - intros a Ha. unfold push_back. by rewrite lookup_insert_ne.
Qed.

End StoreFacts.

(** ** Identity of content across archives *)

(** C1.  With a new entry created at reference count 1: inserting the same
    bytes under one name from two different archives, the name having no
    stored variant before, leaves exactly one entry under that name, with
    version 0 and reference count 2 and the bytes of the first insertion, and
    appends the record (name, 0, hash) to the membership list of both
    archives.  The second insertion looks at the length and the hash of its
    bytes only: any bytes of the same length and hash give the same store. *)
Theorem deduplication_identity {FunctionRest LinkedRest : Type}
    (crc32 : list byte → Z)
    (init_linked_data : LinkedObjectFile FunctionRest LinkedRest)
    (obj_name : string) (c : list byte) (dgo1 dgo2 : string)
    (db : ObjectFileDB FunctionRest LinkedRest) :
  subscript (obj_files_by_name db) obj_name = [] →
  dgo1 ≠ dgo2 →
  let add := add_obj_from_dgo crc32 init_linked_data spec_reference_count in
  let r := mkRecord obj_name 0 (crc32 c) in
  let db' := add obj_name c dgo2 (add obj_name c dgo1 db) in
  obj_files_by_name db'
  = <[obj_name := [mkData c init_linked_data r 2]]> (obj_files_by_name db)
  ∧ subscript (obj_files_by_name db') obj_name
    = [mkData c init_linked_data r 2]
  ∧ subscript (obj_files_by_dgo db') dgo1
    = subscript (obj_files_by_dgo db) dgo1 ++ [r]
  ∧ subscript (obj_files_by_dgo db') dgo2
    = subscript (obj_files_by_dgo db) dgo2 ++ [r]
  ∧ ∀ c', length c' = length c → crc32 c' = crc32 c →
          add obj_name c' dgo2 (add obj_name c dgo1 db) = db'.
Proof.
  intros Hfresh Hne. cbv zeta.
  destruct (add_twice crc32 init_linked_data spec_reference_count
              obj_name c dgo1 dgo2 db Hfresh Hne) as (Hmap & Hm1 & Hm2 & _).
  change (spec_reference_count + 1) with 2 in Hmap.
  split; [done|].
  split; [by rewrite Hmap, subscript_insert_eq|].
  repeat (split; [done|]).
  intros c' Hlen Hcrc. apply add_duplicate_by_size_and_hash; [|done..].
  pose proof (add_new_variant crc32 init_linked_data spec_reference_count
                obj_name c dgo1 db) as Hdb1.
  rewrite Hfresh in Hdb1. specialize (Hdb1 eq_refl). simpl in Hdb1.
  rewrite Hdb1. simpl.
  rewrite subscript_push_back_eq, Hfresh. simpl.
  rewrite same_content_fresh. by eexists.
Qed.

Lemma deduplication_identity_witness :
  let add := add_obj_from_dgo byte_sum no_link_data spec_reference_count in
  let r := mkRecord "foo" 0 3 in
  let db' := add "foo" [x01; x02] "b.dgo"
               (add "foo" [x01; x02] "a.dgo" empty_db) in
  obj_files_by_name db' = {[ "foo" := [mkData [x01; x02] no_link_data r 2] ]}
  ∧ subscript (obj_files_by_name db') "foo"
    = [mkData [x01; x02] no_link_data r 2]
  ∧ subscript (obj_files_by_dgo db') "a.dgo" = [r]
  ∧ subscript (obj_files_by_dgo db') "b.dgo" = [r]
  ∧ ∀ c', length c' = 2%nat → byte_sum c' = 3 →
          add "foo" c' "b.dgo" (add "foo" [x01; x02] "a.dgo" empty_db) = db'.
Proof.
  apply (deduplication_identity byte_sum no_link_data "foo" [x01; x02]
           "a.dgo" "b.dgo" empty_db).
  - reflexivity.
  - discriminate.
Defined.

(** The bytes [02 01] are taken for the stored [01 02]: same length, same
    fingerprint. *)
Example colliding_bytes_are_a_duplicate :
  let add := add_obj_from_dgo byte_sum no_link_data spec_reference_count in
  subscript
    (obj_files_by_name
       (add "foo" [x02; x01] "b.dgo" (add "foo" [x01; x02] "a.dgo" empty_db)))
    "foo"
  = [mkData [x01; x02] no_link_data (mkRecord "foo" 0 3) 2].
Proof. vm_compute. reflexivity. Qed.

(** ** Worked insertions *)

Lemma duplicate_insert_frame_witness :
  let add := add_obj_from_dgo byte_sum no_link_data spec_reference_count in
  let db := add "foo" [x01; x02] "a.dgo" empty_db in
  let db' := add "foo" [x01; x02] "b.dgo" db in
  subscript (obj_files_by_dgo db') "b.dgo" = [mkRecord "foo" 0 3]
  ∧ obj_file_order db' = ["foo"]
  ∧ unique_obj_files (stats db') = 1
  ∧ unique_obj_bytes (stats db') = 2
  ∧ total_obj_files (stats db') = 2.
Proof.
  pose (db := add_obj_from_dgo byte_sum no_link_data spec_reference_count
                "foo" [x01; x02] "a.dgo" empty_db).
  pose (e := mkData [x01; x02] no_link_data (mkRecord "foo" 0 3) 1).
  assert (H0 : subscript (obj_files_by_name db) "foo" !! O = Some e)
    by reflexivity.
  assert (H1 : same_content e (length [x01; x02]) (byte_sum [x01; x02]) = true)
    by reflexivity.
  assert (H2 : Forall
    (λ e', same_content e' (length [x01; x02]) (byte_sum [x01; x02]) = false)
    (take O (subscript (obj_files_by_name db) "foo"))) by constructor.
  destruct (duplicate_insert_frame byte_sum no_link_data spec_reference_count
              "foo" [x01; x02] "b.dgo" db O e H0 H1 H2)
    as (_ & _ & _ & _ & Hm & _ & Ho & Hu & Hb & _ & Ht & _).
  exact (conj Hm (conj Ho (conj Hu (conj Hb Ht)))).
Defined.

(** The statement that a duplicate insertion changes the matched variant's
    reference count and the archive's membership list and nothing else fails
    on the second insertion of [foo]: the counter of all occurrences has
    changed as well. *)
Lemma duplicate_insert_counts_occurrence :
  let add := add_obj_from_dgo byte_sum no_link_data spec_reference_count in
  let db := add "foo" [x01; x02] "a.dgo" empty_db in
  let e := mkData [x01; x02] no_link_data (mkRecord "foo" 0 3) 1 in
  subscript (obj_files_by_name db) "foo" = [e]
  ∧ same_content e 2 (byte_sum [x01; x02]) = true
  ∧ add "foo" [x01; x02] "b.dgo" db
    ≠ mkDB (<["foo" := [bump e]]> (obj_files_by_name db))
           (push_back (obj_files_by_dgo db) "b.dgo" (record e))
           (obj_file_order db)
           (stats db).
Proof.
  split; [reflexivity|]. split; [reflexivity|].
  intros Heq. apply (f_equal (λ d, total_obj_files (stats d))) in Heq.
  vm_compute in Heq. discriminate.
Qed.

Lemma versioning_witness :
  let add := add_obj_from_dgo byte_sum no_link_data spec_reference_count in
  let db := add "foo" [x01; x02] "a.dgo" empty_db in
  ∃ e,
    subscript (obj_files_by_name (add "foo" [x07] "b.dgo" db)) "foo"
    = subscript (obj_files_by_name db) "foo" ++ [e]
    ∧ version (record e) = 1
    ∧ to_unique_name (record e) = "foo-v1".
Proof.
  assert (H1 : subscript
    (obj_files_by_name
       (add_all byte_sum no_link_data spec_reference_count
          [("foo", [x01; x02], "a.dgo")] empty_db)) "foo" ≠ [])
    by discriminate.
  assert (H2 : Forall
    (λ e, same_content e (length [x07]) (byte_sum [x07]) = false)
    (subscript
       (obj_files_by_name
          (add_all byte_sum no_link_data spec_reference_count
             [("foo", [x01; x02], "a.dgo")] empty_db)) "foo"))
    by (repeat constructor).
  destruct (versioning byte_sum no_link_data spec_reference_count
              [("foo", [x01; x02], "a.dgo")] "foo" [x07] "b.dgo" [] H1 H2)
    as (e & Hv & _ & Hn & _ & Hone & _).
  exists e. split; [exact Hv|]. split; [by apply Hone|].
  unfold to_unique_name. rewrite Hn, (Hone eq_refl). reflexivity.
Defined.

Example unique_names_foo :
  to_unique_name (mkRecord "foo" 0 17) = "foo-v0"
  ∧ to_unique_name (mkRecord "foo" 1 42) = "foo-v1".
Proof. split; reflexivity. Qed.

Example first_seen_example :
  first_seen ["a"; "b"; "a"; "c"; "b"; "d"] = ["a"; "b"; "c"; "d"].
Proof. reflexivity. Qed.

(** ** The reader *)

Section ReaderFacts.
Import BinaryReader.
Implicit Types (r : BinaryReader.t) (bs rest : list byte).

Lemma bytes_left_here r : bytes_left r = length (here r).
Proof. unfold bytes_left, here. by rewrite length_drop. Qed.

Lemma ffwd_Ok r n :
  (n ≤ bytes_left r)%nat → ffwd n r = Ok (mk (buffer r) (seek r + n)).
Proof. intros Hn. unfold ffwd. by rewrite decide_True. Qed.

Lemma ffwd_inv r n r' :
  ffwd n r = Ok r' →
  (n ≤ bytes_left r)%nat ∧ r' = mk (buffer r) (seek r + n).
Proof. unfold ffwd. case_decide; [|done]. by intros [= <-]. Qed.

Lemma ffwd_Err r n e : ffwd n r = Err e → e = OutOfBounds.
Proof. unfold ffwd. case_decide; [done|]. by intros [= <-]. Qed.

Lemma here_advance r n :
  here (mk (buffer r) (seek r + n)) = drop n (here r).
Proof. unfold here. simpl. by rewrite drop_drop. Qed.

Lemma bytes_left_advance r n :
  (n ≤ bytes_left r)%nat →
  bytes_left (mk (buffer r) (seek r + n)) = (bytes_left r - n)%nat.
Proof. unfold bytes_left. simpl. lia. Qed.

(** Reading the bytes that lie at the cursor. *)
Lemma read_bytes_here r bs rest :
  here r = bs ++ rest →
  read_bytes (length bs) r
  = Ok (bs, mk (buffer r) (seek r + length bs))
  ∧ here (mk (buffer r) (seek r + length bs)) = rest.
Proof.
  intros Hhere. unfold read_bytes.
  rewrite ffwd_Ok by (rewrite bytes_left_here, Hhere, length_app; lia).
  simpl. rewrite here_advance, Hhere.
  by rewrite take_app_length, drop_app_length.
Qed.

Lemma read_bytes_inv r n bs r' :
  read_bytes n r = Ok (bs, r') →
  (n ≤ bytes_left r)%nat ∧ length bs = n
  ∧ r' = mk (buffer r) (seek r + n) ∧ bs = take n (here r).
Proof.
  unfold read_bytes. destruct (ffwd n r) as [r1|e] eqn:Hffwd; [|done].
  simpl. intros [= <- <-]. apply ffwd_inv in Hffwd as [Hn ->].
  repeat split; [done|]. rewrite length_take, <- bytes_left_here. lia.
Qed.

Lemma read_bytes_Err r n e : read_bytes n r = Err e → e = OutOfBounds.
Proof.
  unfold read_bytes. destruct (ffwd n r) as [r1|e'] eqn:Hffwd; [done|].
  simpl. intros [= <-]. by eapply ffwd_Err.
Qed.

Lemma read_u32_inv r w r' :
  read_u32 r = Ok (w, r') →
  (4 ≤ bytes_left r)%nat ∧ r' = mk (buffer r) (seek r + 4).
Proof.
  unfold read_u32. destruct (read_bytes 4 r) as [[bs r1]|e] eqn:Hread;
    [|done].
  simpl. intros [= <- <-]. apply read_bytes_inv in Hread. naive_solver.
Qed.

Lemma read_u32_Err r e : read_u32 r = Err e → e = OutOfBounds.
Proof.
  unfold read_u32. destruct (read_bytes 4 r) as [[bs r1]|e'] eqn:Hread;
    [done|].
  simpl. intros [= <-]. by eapply read_bytes_Err.
Qed.

(** *** Words *)

Lemma to_N_byte_of_Z x : Z.of_N (Byte.to_N (byte_of_Z x)) = x mod 256.
Proof.
  unfold byte_of_Z.
  assert (Hlt : (Z.to_N (x mod 256) < 256)%N).
  { pose proof (Z.mod_pos_bound x 256). lia. }
  destruct (Byte.of_N (Z.to_N (x mod 256))) as [b|] eqn:Hb.
  - apply Byte.to_of_N in Hb. simpl. rewrite Hb.
    pose proof (Z.mod_pos_bound x 256). lia.
  - apply Byte.of_N_None_iff in Hb. lia.
Qed.

Lemma le32_u32_bytes x : 0 ≤ x < 2 ^ 32 → le32 (u32_bytes x) = x.
Proof.
  intros Hx. unfold le32, u32_bytes. simpl.
  rewrite !to_N_byte_of_Z.
  pose proof (Z.div_mod x 256). pose proof (Z.div_mod (x / 256) 256).
  pose proof (Z.div_mod (x / 256 / 256) 256).
  replace (x / 65536) with (x / 256 / 256)
    by (rewrite Z.div_div by lia; done).
  replace (x / 16777216) with (x / 256 / 256 / 256)
    by (rewrite !Z.div_div by lia; done).
  assert (x / 256 / 256 / 256 < 256).
  { rewrite !Z.div_div by lia. apply Z.div_lt_upper_bound; lia. }
  assert (0 ≤ x / 256 / 256 / 256) by (repeat apply Z.div_pos; lia).
  rewrite (Z.mod_small (x / 256 / 256 / 256)) by lia.
  lia.
Qed.

Lemma read_u32_here r x rest :
  0 ≤ x < 2 ^ 32 → here r = u32_bytes x ++ rest →
  read_u32 r = Ok (x, mk (buffer r) (seek r + 4))
  ∧ here (mk (buffer r) (seek r + 4)) = rest.
Proof.
  intros Hx Hhere. destruct (read_bytes_here _ _ _ Hhere) as [Hread Hrest].
  change (length (u32_bytes x)) with 4%nat in *.
  unfold read_u32. rewrite Hread. unfold mbind, result_bind.
  cbv beta iota. by rewrite le32_u32_bytes.
Qed.

End ReaderFacts.

(** ** Decompression *)

(** Division and remainder by a constant are linear arithmetic. *)
Ltac Zify.zify_post_hook ::= Z.to_euclidean_division_equations.

Lemma MAX_CHUNK_SIZE_value : Z.of_nat MAX_CHUNK_SIZE = 32768.
Proof. unfold MAX_CHUNK_SIZE. by rewrite Z2Nat.id. Qed.

(** [MAX_CHUNK_SIZE] is used as a symbol: its unary numeral is never written
    out. *)
Opaque MAX_CHUNK_SIZE.
#[local] Arguments Nat.modulo : simpl never.
#[local] Arguments Nat.div : simpl never.

Section DecompressFacts.
Import BinaryReader.
Variable lzo1x_decompress : list byte → list byte * bool.

Abbreviation chunk_step := (decompress_chunk lzo1x_decompress).
Abbreviation chunk_loop := (decompress_chunks lzo1x_decompress).

Implicit Types (r : BinaryReader.t) (out bytes : list byte).

(** *** Raw writes *)

Lemma write_at_Ok out off bytes out' :
  write_at out off bytes = Ok out' →
  (off + length bytes ≤ length out)%nat ∧ length out' = length out
  ∧ out' = take off out ++ bytes ++ drop (off + length bytes) out.
Proof.
  unfold write_at. case_decide as Hfit; [|done]. intros [= <-].
  repeat split; [done|].
  rewrite !length_app, length_take, length_drop. lia.
Qed.

Lemma write_at_Err out off bytes e :
  write_at out off bytes = Err e →
  e = OutputOverrun off (length bytes)
  ∧ (length out < off + length bytes)%nat.
Proof.
  unfold write_at. case_decide as Hfit; [done|]. intros [= <-].
  split; [done|lia].
Qed.

Lemma write_at_overrun out off bytes :
  (length out < off + length bytes)%nat →
  write_at out off bytes = Err (OutputOverrun off (length bytes)).
Proof. intros Hlt. unfold write_at. rewrite decide_False; [done|lia]. Qed.

(** Writing at the end of what has been written so far. *)
Lemma write_at_fill written k bytes :
  (length bytes ≤ k)%nat →
  write_at (written ++ replicate k x00) (length written) bytes
  = Ok ((written ++ bytes) ++ replicate (k - length bytes) x00).
Proof.
  intros Hk. unfold write_at.
  rewrite decide_True by (rewrite length_app, length_replicate; lia).
  f_equal. rewrite take_app_length, <- app_assoc. do 2 f_equal.
  rewrite drop_app_add'; [|done]. by rewrite drop_replicate.
Qed.

(** *** One chunk *)

Lemma chunk_step_Ok chunk_size r out off r' out' off' :
  chunk_step chunk_size r out off = Ok (r', out', off') →
  (chunk_input chunk_size ≤ bytes_left r)%nat
  ∧ r' = mk (buffer r) (seek r + chunk_input chunk_size)
  ∧ write_at out off (chunk_write lzo1x_decompress chunk_size r) = Ok out'
  ∧ length out' = length out
  ∧ (off ≤ off')%nat ∧ (off' ≤ length out)%nat.
Proof.
  unfold decompress_chunk, chunk_write, chunk_input.
  destruct (chunk_size <? Z.of_nat MAX_CHUNK_SIZE) eqn:Hsmall.
  - destruct (read_bytes (Z.to_nat chunk_size) r) as [[block r1]|e]
      eqn:Hread; [|done].
    apply read_bytes_inv in Hread as (Hn & Hlen & -> & ->).
    unfold mbind, result_bind at 1. cbv beta iota.
    destruct (lzo1x_decompress _) as [written lzo_ok].
    destruct (write_at out off written) as [out1|e] eqn:Hwrite; [|done].
    simpl. destruct lzo_ok; [|done]. intros [= <- <- <-].
    pose proof Hwrite as (Hfit & Hlen' & _)%write_at_Ok.
    repeat split; try done; lia.
  - destruct (read_bytes MAX_CHUNK_SIZE r) as [[block r1]|e] eqn:Hread;
      [|done].
    apply read_bytes_inv in Hread as (Hn & Hlen & -> & ->).
    unfold mbind, result_bind at 1. cbv beta iota.
    destruct (write_at out off _) as [out1|e] eqn:Hwrite; [|done].
    simpl. intros [= <- <- <-].
    pose proof Hwrite as (Hfit & Hlen' & _)%write_at_Ok.
    rewrite Hlen in Hfit.
    repeat split; try done; lia.
Qed.

(** A chunk fails with an overrun exactly when the bytes written for it do
    not fit between [output_offset] and the end of the output. *)
Lemma chunk_step_overrun chunk_size r out off o len :
  chunk_step chunk_size r out off = Err (OutputOverrun o len) ↔
  (chunk_input chunk_size ≤ bytes_left r)%nat
  ∧ o = off ∧ len = length (chunk_write lzo1x_decompress chunk_size r)
  ∧ (length out < off + len)%nat.
Proof.
  unfold decompress_chunk, chunk_write, chunk_input.
  destruct (chunk_size <? Z.of_nat MAX_CHUNK_SIZE) eqn:Hsmall.
  - destruct (read_bytes (Z.to_nat chunk_size) r) as [[block r1]|e]
      eqn:Hread.
    + apply read_bytes_inv in Hread as (Hn & Hlen & -> & ->).
      unfold mbind, result_bind at 1. cbv beta iota.
      destruct (lzo1x_decompress _) as [written lzo_ok]. simpl.
      destruct (write_at out off written) as [out1|e] eqn:Hwrite.
      * apply write_at_Ok in Hwrite as (Hfit & _).
        simpl. destruct lzo_ok; (split; [done|]); intros (_ & _ & -> & ?);
          lia.
      * apply write_at_Err in Hwrite as [-> Hlt]. simpl.
        split; [by intros [= <- <-]|]. by intros (_ & -> & -> & _).
    + pose proof (read_bytes_Err _ _ _ Hread) as ->. simpl.
      split; [done|]. intros (Hn & _).
      unfold read_bytes in Hread. by rewrite ffwd_Ok in Hread.
  - destruct (read_bytes MAX_CHUNK_SIZE r) as [[block r1]|e] eqn:Hread.
    + apply read_bytes_inv in Hread as (Hn & Hlen & -> & ->).
      unfold mbind, result_bind at 1. cbv beta iota.
      destruct (write_at out off _) as [out1|e] eqn:Hwrite.
      * apply write_at_Ok in Hwrite as (Hfit & _).
        simpl. split; [done|]. intros (_ & _ & -> & ?). lia.
      * apply write_at_Err in Hwrite as [-> Hlt]. simpl.
        split; [by intros [= <- <-]|]. by intros (_ & -> & -> & _).
    + pose proof (read_bytes_Err _ _ _ Hread) as ->. simpl.
      split; [done|]. intros (Hn & _).
      unfold read_bytes in Hread. by rewrite ffwd_Ok in Hread.
Qed.

(** *** The scan for the next size word *)

Lemma read_chunk_size_Ok fuel r chunk_size r' :
  read_chunk_size fuel r = Ok (chunk_size, r') →
  chunk_size ≠ 0 ∧ buffer r' = buffer r
  ∧ (bytes_left r' + 4 ≤ bytes_left r)%nat.
Proof.
  revert r. induction fuel as [|fuel IH]; intros r; simpl; [done|].
  destruct (read_u32 r) as [[w r1]|e] eqn:Hread; [|done]. simpl.
  apply read_u32_inv in Hread as [Hleft ->].
  destruct (w =? 0) eqn:Hw.
  - intros (Hne & Hbuf & Hle)%IH. simpl in *.
    rewrite bytes_left_advance in Hle by lia.
    split; [done|]. split; [done|lia].
  - intros [= <- <-]. simpl. rewrite bytes_left_advance by lia.
    apply Z.eqb_neq in Hw. split; [done|]. split; [done|lia].
Qed.

Lemma read_chunk_size_Err fuel r e :
  read_chunk_size fuel r = Err e → e = OutOfBounds ∨ e = OutOfFuel.
Proof.
  revert r. induction fuel as [|fuel IH]; intros r; simpl.
  - intros [= <-]. by right.
  - destruct (read_u32 r) as [[w r1]|e1] eqn:Hread; simpl.
    + destruct (w =? 0); [apply IH|done].
    + rewrite (read_u32_Err _ _ Hread). intros [= <-]. by left.
Qed.

(** With more fuel than bytes the scan ends by itself. *)
Lemma read_chunk_size_fuel fuel r :
  (bytes_left r < fuel)%nat → read_chunk_size fuel r ≠ Err OutOfFuel.
Proof.
  revert r. induction fuel as [|fuel IH]; intros r Hfuel; [lia|]. simpl.
  destruct (read_u32 r) as [[w r1]|e] eqn:Hread; simpl.
  - apply read_u32_inv in Hread as [Hleft ->].
    destruct (w =? 0); [|done]. apply IH.
    rewrite bytes_left_advance by lia. lia.
  - by rewrite (read_u32_Err _ _ Hread).
Qed.

(** The scan over [zero_words] zero words and one size word. *)
Lemma read_chunk_size_here fuel r zero_words w rest :
  0 < w < 2 ^ 32 → (zero_words < fuel)%nat →
  here r = mjoin (replicate zero_words (u32_bytes 0)) ++ u32_bytes w ++ rest →
  read_chunk_size fuel r
  = Ok (w, mk (buffer r) (seek r + (4 * zero_words + 4)))
  ∧ here (mk (buffer r) (seek r + (4 * zero_words + 4))) = rest.
Proof.
  intros Hw. revert r fuel.
  induction zero_words as [|z IH]; intros r fuel Hfuel Hhere;
    (destruct fuel as [|fuel]; [lia|]); simpl in Hhere |- *.
  - destruct (read_u32_here r w rest) as [-> Hrest]; [lia|done|].
    simpl. rewrite (proj2 (Z.eqb_neq w 0)) by lia. done.
  - destruct (read_u32_here r 0
                (mjoin (replicate z (u32_bytes 0)) ++ u32_bytes w ++ rest))
      as [-> Hrest]; [lia|done|].
    simpl. destruct (IH _ fuel ltac:(lia) Hrest) as [-> Hrest'].
    cbn [buffer seek] in *. split.
    + do 3 f_equal. lia.
    + rewrite <- Hrest'. do 2 f_equal. lia.
Qed.

(** *** Alignment *)

Lemma skip_alignment_spec fuel r :
  (alignment (seek r) ≤ fuel)%nat →
  skip_alignment fuel r
  = if decide (alignment (seek r) ≤ bytes_left r)%nat
    then Ok (mk (buffer r) (seek r + alignment (seek r)))
    else Err OutOfBounds.
Proof.
  revert r. induction fuel as [|fuel IH]; intros [buf pos] Hfuel;
    unfold alignment, get_seek in *; simpl in *.
  - destruct (pos mod 4 =? 0)%nat eqn:Hmod.
    + apply Nat.eqb_eq in Hmod. rewrite decide_True by lia.
      do 2 f_equal. lia.
    + apply Nat.eqb_neq in Hmod. lia.
  - destruct (pos mod 4 =? 0)%nat eqn:Hmod.
    + apply Nat.eqb_eq in Hmod. rewrite decide_True by lia.
      do 2 f_equal. lia.
    + apply Nat.eqb_neq in Hmod. unfold ffwd, bytes_left. simpl.
      case_decide as Hone; simpl.
      * rewrite IH by (simpl; lia). unfold bytes_left. simpl.
        repeat case_decide; try done; try lia; do 2 f_equal; lia.
      * rewrite decide_False by lia. done.
Qed.

Lemma alignment_bound n : (alignment n ≤ 3)%nat.
Proof. unfold alignment. lia. Qed.

Lemma skip_alignment_Ok r r' :
  skip_alignment 3 r = Ok r' →
  buffer r' = buffer r ∧ (bytes_left r' ≤ bytes_left r)%nat.
Proof.
  rewrite skip_alignment_spec by apply alignment_bound.
  case_decide; [|done]. intros [= <-]. simpl. split; [done|].
  unfold bytes_left. simpl. lia.
Qed.

Lemma skip_alignment_fuel r : skip_alignment 3 r ≠ Err OutOfFuel.
Proof.
  rewrite skip_alignment_spec by apply alignment_bound. by case_decide.
Qed.

(** *** The loop ends, and keeps the size of the output *)

Lemma chunk_step_Err chunk_size r out off e :
  chunk_step chunk_size r out off = Err e → e ≠ OutOfFuel.
Proof.
  unfold decompress_chunk.
  destruct (chunk_size <? Z.of_nat MAX_CHUNK_SIZE).
  - destruct (read_bytes (Z.to_nat chunk_size) r) as [[block r1]|e1]
      eqn:Hread.
    + unfold mbind, result_bind at 1. cbv beta iota.
      destruct (lzo1x_decompress block) as [written lzo_ok].
      destruct (write_at out off written) as [out1|e1] eqn:Hwrite; simpl.
      * destruct lzo_ok; [done|]. by intros [= <-].
      * apply write_at_Err in Hwrite as [-> _]. by intros [= <-].
    + rewrite (read_bytes_Err _ _ _ Hread). by intros [= <-].
  - destruct (read_bytes MAX_CHUNK_SIZE r) as [[block r1]|e1] eqn:Hread.
    + unfold mbind, result_bind at 1. cbv beta iota.
      destruct (write_at out off block) as [out1|e1] eqn:Hwrite; simpl.
      * done.
      * apply write_at_Err in Hwrite as [-> _]. by intros [= <-].
    + rewrite (read_bytes_Err _ _ _ Hread). by intros [= <-].
Qed.

Lemma chunk_loop_fuel fuel n r out off :
  (bytes_left r < fuel)%nat → chunk_loop fuel n r out off ≠ Err OutOfFuel.
Proof.
  revert r out off. induction fuel as [|fuel IH]; intros r out off Hfuel;
    [lia|].
  cbn [decompress_chunks].
  destruct (read_chunk_size (S (bytes_left r)) r) as [[w r1]|e] eqn:Hsize.
  2: { simpl. intros [= ->].
       by apply (read_chunk_size_fuel (S (bytes_left r)) r); [lia|]. }
  apply read_chunk_size_Ok in Hsize as (_ & _ & Hleft1).
  unfold mbind, result_bind at 1. cbv beta iota.
  destruct (chunk_step w r1 out off) as [[[r2 out'] off']|e] eqn:Hstep.
  2: { simpl. intros [= ->]. by eapply chunk_step_Err. }
  apply chunk_step_Ok in Hstep as (Hin & -> & _).
  unfold mbind, result_bind at 1. cbv beta iota.
  case_decide; [done|].
  destruct (skip_alignment 3 _) as [r3|e] eqn:Halign.
  2: { simpl. intros [= ->]. by eapply skip_alignment_fuel. }
  apply skip_alignment_Ok in Halign as [_ Hleft3]. simpl.
  apply IH. rewrite bytes_left_advance in Hleft3 by done. lia.
Qed.

Lemma chunk_loop_length fuel n r out off out' :
  chunk_loop fuel n r out off = Ok out' → length out' = length out.
Proof.
  revert r out off. induction fuel as [|fuel IH]; intros r out off; [done|].
  cbn [decompress_chunks].
  destruct (read_chunk_size (S (bytes_left r)) r) as [[w r1]|e]; [|done].
  unfold mbind, result_bind at 1. cbv beta iota.
  destruct (chunk_step w r1 out off) as [[[r2 out1] off1]|e] eqn:Hstep;
    [|done].
  apply chunk_step_Ok in Hstep as (_ & _ & _ & Hlen & _).
  unfold mbind, result_bind at 1. cbv beta iota.
  case_decide; [by intros [= <-]|].
  destruct (skip_alignment 3 r2) as [r3|e]; [|done]. simpl.
  intros Hloop%IH. congruence.
Qed.

(** *** A well-formed chunk *)

Lemma chunk_step_well_formed c r rest written k :
  chunk_well_formed lzo1x_decompress c →
  here r = chunk_block c ++ rest →
  (length (chunk_output lzo1x_decompress c) ≤ k)%nat →
  chunk_step (chunk_word c) r (written ++ replicate k x00) (length written)
  = Ok (mk (buffer r) (seek r + length (chunk_block c)),
        (written ++ chunk_output lzo1x_decompress c)
        ++ replicate (k - length (chunk_output lzo1x_decompress c)) x00,
        (length written + length (chunk_output lzo1x_decompress c))%nat).
Proof.
  intros Hwf Hhere Hk. pose proof MAX_CHUNK_SIZE_value as Hmax.
  destruct (read_bytes_here _ _ _ Hhere) as [Hread _].
  unfold decompress_chunk.
  destruct c as [chunk_size block|block]; simpl in *.
  - destruct Hwf as [Hsize Hlen].
    rewrite (proj2 (Z.ltb_ge _ _)) by lia.
    rewrite <- Hlen at 1. rewrite Hread.
    unfold mbind, result_bind at 1. cbv beta iota.
    rewrite write_at_fill by done. simpl. by rewrite Hlen.
  - destruct Hwf as [Hsize Hok].
    rewrite (proj2 (Z.ltb_lt _ _)) by lia.
    rewrite Nat2Z.id, Hread.
    unfold mbind, result_bind at 1. cbv beta iota.
    destruct (lzo1x_decompress block) as [written' lzo_ok]. simpl in *.
    subst lzo_ok. by rewrite write_at_fill.
Qed.

(** *** A stream of well-formed chunks *)

Lemma chunks_output_cons zc chunks :
  chunks_output lzo1x_decompress (zc :: chunks)
  = chunk_output lzo1x_decompress zc.2
    ++ chunks_output lzo1x_decompress chunks.
Proof. done. Qed.

Lemma encode_chunks_cons zc chunks :
  encode_chunks (zc :: chunks) = encode_chunk zc ++ encode_chunks chunks.
Proof. done. Qed.

Lemma length_encode_chunks chunks :
  (4 * length chunks ≤ length (encode_chunks chunks))%nat.
Proof.
  induction chunks as [|[z c] chunks IH]; [done|].
  rewrite encode_chunks_cons, length_app. unfold encode_chunk.
  rewrite !length_app. change (length (u32_bytes _)) with 4%nat.
  simpl length. lia.
Qed.

Lemma length_encode_chunk z c :
  length (encode_chunk (z, c))
  = (4 * z + 4 + length (chunk_block c)
     + alignment (length (chunk_block c)))%nat.
Proof.
  unfold encode_chunk. rewrite !length_app, length_join.
  rewrite fmap_replicate, sum_list_replicate, length_replicate.
  change (length (u32_bytes _)) with 4%nat. lia.
Qed.

Lemma chunk_word_range c :
  chunk_well_formed lzo1x_decompress c → 0 < chunk_word c < 2 ^ 32.
Proof.
  pose proof MAX_CHUNK_SIZE_value. destruct c; simpl; lia.
Qed.

(** One turn of the loop on a well-formed chunk whose bytes fit: the bytes
    are appended to what was written, and the loop stops there when the
    output is full and goes on behind the chunk otherwise. *)
Lemma chunk_loop_turn fuel n written r z c rest :
  chunk_well_formed lzo1x_decompress c →
  (seek r mod 4 = 0)%nat →
  here r = encode_chunk (z, c) ++ rest →
  let o := chunk_output lzo1x_decompress c in
  let r' := mk (buffer r) (seek r + length (encode_chunk (z, c))) in
  (length written + length o ≤ n)%nat →
  (seek r' mod 4 = 0)%nat ∧ here r' = rest
  ∧ chunk_loop (S fuel) n r (written ++ replicate (n - length written) x00)
               (length written)
    = if decide (n ≤ length written + length o)%nat
      then Ok (written ++ o)
      else chunk_loop fuel n r'
             ((written ++ o) ++ replicate (n - length (written ++ o)) x00)
             (length (written ++ o)).
Proof.
  intros Hc Haligned Hhere o r' Hfit.
  set (block := chunk_block c) in *.
  assert (Hlen' : length (encode_chunk (z, c))
                  = (4 * z + 4 + length block + alignment (length block))%nat)
    by apply length_encode_chunk.
  assert (Hseek' : (seek r' mod 4 = 0)%nat).
  { unfold r'. cbn [seek]. rewrite Hlen'. unfold alignment. lia. }
  assert (Hhere' : here r' = rest).
  { unfold r'. by rewrite here_advance, Hhere, drop_app_length. }
  split; [done|]. split; [done|].
  unfold encode_chunk in Hhere. fold block in Hhere.
  rewrite <- !app_assoc in Hhere.
  cbn [decompress_chunks].
  edestruct (read_chunk_size_here (S (bytes_left r)) r z (chunk_word c))
    as [-> Hhere1]; [by apply chunk_word_range| |exact Hhere|].
  { rewrite bytes_left_here, Hhere, length_app, length_join.
    rewrite fmap_replicate, sum_list_replicate.
    change (length (u32_bytes 0)) with 4%nat. lia. }
  set (r1 := mk (buffer r) (seek r + (4 * z + 4))) in *.
  unfold mbind, result_bind at 1. cbv beta iota.
  rewrite (chunk_step_well_formed c r1 _ written _ Hc Hhere1)
    by (fold o; lia).
  fold o block.
  destruct (read_bytes_here _ _ _ Hhere1) as [_ Hhere2].
  set (r2 := mk (buffer r1) (seek r1 + length block)) in *.
  unfold mbind, result_bind at 1. cbv beta iota.
  case_decide as Hfull.
  - replace (n - length written - length o)%nat with O by lia.
    simpl. by rewrite app_nil_r.
  - assert (Hseek2 : seek r2 = (seek r + (4 * z + 4) + length block)%nat)
      by done.
    assert (Hal : alignment (seek r2) = alignment (length block)).
    { rewrite Hseek2. unfold alignment. lia. }
    rewrite skip_alignment_spec by apply alignment_bound.
    rewrite Hal.
    rewrite decide_True
      by (rewrite bytes_left_here, Hhere2, length_app, length_replicate;
          lia).
    unfold mbind, result_bind at 1.
    replace (mk (buffer r2) (seek r2 + alignment (length block))) with r'.
    2: { unfold r'. rewrite Hlen', Hseek2. cbn [buffer]. f_equal. lia. }
    by rewrite length_app, Nat.sub_add_distr.
Qed.

(** One turn of the loop on a well-formed chunk whose bytes do not fit in
    what is left of the output: they are written past its end. *)
Lemma chunk_loop_overrun fuel n written r z c rest :
  chunk_well_formed lzo1x_decompress c →
  here r = encode_chunk (z, c) ++ rest →
  let o := chunk_output lzo1x_decompress c in
  (length written ≤ n)%nat →
  (n < length written + length o)%nat →
  chunk_loop (S fuel) n r (written ++ replicate (n - length written) x00)
             (length written)
  = Err (OutputOverrun (length written) (length o)).
Proof.
  intros Hc Hhere o Hwritten Hover.
  set (block := chunk_block c) in *.
  unfold encode_chunk in Hhere. fold block in Hhere.
  rewrite <- !app_assoc in Hhere.
  cbn [decompress_chunks].
  edestruct (read_chunk_size_here (S (bytes_left r)) r z (chunk_word c))
    as [-> Hhere1]; [by apply chunk_word_range| |exact Hhere|].
  { rewrite bytes_left_here, Hhere, length_app, length_join.
    rewrite fmap_replicate, sum_list_replicate.
    change (length (u32_bytes 0)) with 4%nat. lia. }
  set (r1 := mk (buffer r) (seek r + (4 * z + 4))) in *.
  unfold mbind, result_bind at 1. cbv beta iota.
  assert (Hstep : chunk_step (chunk_word c) r1
                    (written ++ replicate (n - length written) x00)
                    (length written)
                  = Err (OutputOverrun (length written) (length o))).
  { pose proof MAX_CHUNK_SIZE_value as Hmax.
    apply chunk_step_overrun.
    assert (Hblock : take (length block) (here r1) = block)
      by (by rewrite Hhere1, take_app_length).
    assert (Hleft : (length block ≤ bytes_left r1)%nat)
      by (rewrite bytes_left_here, Hhere1, length_app; lia).
    unfold chunk_input, chunk_write, o. clear Hhere Hhere1.
    destruct c as [chunk_size blk|blk]; subst block; simpl in *.
    - destruct Hc as [Hsize Hlen].
      rewrite (proj2 (Z.ltb_ge _ _)) by lia.
      rewrite <- Hlen, Hblock.
      rewrite length_app, length_replicate. subst o.
      repeat split; [done|lia].
    - destruct Hc as [Hsize Hok].
      rewrite (proj2 (Z.ltb_lt _ _)) by lia.
      rewrite Nat2Z.id, Hblock.
      rewrite length_app, length_replicate. subst o.
      repeat split; [done|lia]. }
  by rewrite Hstep.
Qed.

(** The loop over a stream that starts at an aligned offset, with [written]
    already in the output: it appends what the chunks stand for. *)
Lemma chunk_loop_chunks chunks :
  ∀ fuel n written r trailing,
  Forall (λ zc, chunk_well_formed lzo1x_decompress zc.2) chunks →
  chunks ≠ [] →
  (length chunks ≤ fuel)%nat →
  (seek r mod 4 = 0)%nat →
  here r = encode_chunks chunks ++ trailing →
  (length written + length (chunks_output lzo1x_decompress chunks))%nat = n →
  (∀ k, (0 < k < length chunks)%nat →
     (length written
      + length (chunks_output lzo1x_decompress (take k chunks)) < n)%nat) →
  chunk_loop fuel n r (written ++ replicate (n - length written) x00)
             (length written)
  = Ok (written ++ chunks_output lzo1x_decompress chunks).
Proof.
  induction chunks as [|[z c] chunks IH];
    intros fuel n written r trailing Hwf Hne Hfuel Haligned Hhere Hsum Hpre;
    [done|].
  destruct fuel as [|fuel]; [simpl in Hfuel; lia|].
  apply Forall_cons in Hwf as [Hc Hwf]. cbn [snd] in Hc.
  rewrite chunks_output_cons, length_app in Hsum. cbn [snd] in Hsum.
  rewrite encode_chunks_cons, <- app_assoc in Hhere.
  destruct (chunk_loop_turn fuel n written r z c _ Hc Haligned Hhere)
    as (Haligned' & Hhere' & ->); [lia|].
  rewrite chunks_output_cons. cbn [snd].
  set (o := chunk_output lzo1x_decompress c) in *.
  destruct chunks as [|zc' chunks'].
  - rewrite decide_True by (simpl in Hsum; lia).
    unfold chunks_output. simpl. by rewrite app_nil_r.
  - assert (Hone : (length written + length o < n)%nat).
    { pose proof (Hpre 1%nat ltac:(simpl; lia)) as Hone.
      unfold chunks_output in Hone. simpl in Hone.
      by rewrite app_nil_r in Hone. }
    rewrite decide_False by lia.
    rewrite (IH fuel n (written ++ o) _ trailing); try done.
    + by rewrite app_assoc.
    + simpl in Hfuel |- *. lia.
    + rewrite length_app. lia.
    + intros k Hk. specialize (Hpre (S k)). simpl in Hpre.
      rewrite length_app.
      rewrite (chunks_output_cons (z, c)), length_app in Hpre.
      simpl in Hpre, Hk. fold o in Hpre. lia.
Qed.

(** A stream in which the chunks [pre] fit and leave room, and the next
    chunk does not fit in that room. *)
Lemma chunk_loop_overrun_after pre :
  ∀ fuel n written r z c rest,
  Forall (λ zc, chunk_well_formed lzo1x_decompress zc.2) pre →
  chunk_well_formed lzo1x_decompress c →
  (length pre < fuel)%nat →
  (seek r mod 4 = 0)%nat →
  here r = encode_chunks pre ++ encode_chunk (z, c) ++ rest →
  (∀ k, (k ≤ length pre)%nat →
     (length written
      + length (chunks_output lzo1x_decompress (take k pre)) < n)%nat) →
  (n < length written + length (chunks_output lzo1x_decompress pre)
       + length (chunk_output lzo1x_decompress c))%nat →
  chunk_loop fuel n r (written ++ replicate (n - length written) x00)
             (length written)
  = Err (OutputOverrun
           (length written + length (chunks_output lzo1x_decompress pre))
           (length (chunk_output lzo1x_decompress c))).
Proof.
  induction pre as [|[z0 c0] pre IH];
    intros fuel n written r z c rest Hwf Hc Hfuel Haligned Hhere Hpre Hover;
    (destruct fuel as [|fuel]; [simpl in Hfuel; lia|]).
  - pose proof (Hpre O ltac:(done)) as Hzero. simpl in Hzero, Hover, Hhere.
    unfold chunks_output. simpl. rewrite Nat.add_0_r.
    eapply chunk_loop_overrun; [done|exact Hhere|lia..].
  - apply Forall_cons in Hwf as [Hc0 Hwf]. cbn [snd] in Hc0.
    rewrite encode_chunks_cons, <- app_assoc in Hhere.
    assert (Hone : (length written
                    + length (chunk_output lzo1x_decompress c0) < n)%nat).
    { pose proof (Hpre 1%nat ltac:(simpl; lia)) as Hone.
      unfold chunks_output in Hone. simpl in Hone.
      by rewrite app_nil_r in Hone. }
    destruct (chunk_loop_turn fuel n written r z0 c0 _ Hc0 Haligned Hhere)
      as (Haligned' & Hhere' & ->); [lia|].
    rewrite decide_False by lia.
    rewrite chunks_output_cons, length_app in Hover. cbn [snd] in Hover.
    rewrite (IH fuel n (written ++ chunk_output lzo1x_decompress c0) _
               z c rest Hwf Hc); try done.
    + rewrite chunks_output_cons, !length_app. cbn [snd].
      do 2 f_equal. lia.
    + simpl in Hfuel. lia.
    + intros k Hk. specialize (Hpre (S k) ltac:(simpl; lia)).
      simpl in Hpre. rewrite chunks_output_cons, length_app in Hpre.
      cbn [snd] in Hpre. rewrite length_app. lia.
    + rewrite length_app. lia.
Qed.


(** *** The whole of [decompress] *)

Abbreviation expand := (decompress lzo1x_decompress).

Lemma decompress_unfold dgo_data :
  (8 ≤ length dgo_data)%nat →
  expand dgo_data
  = chunk_loop (S (length dgo_data)) (declared_size dgo_data)
      (mk dgo_data 8) (replicate (declared_size dgo_data) x00) 0.
Proof.
  intros Hlen. unfold decompress, declared_size.
  rewrite ffwd_Ok by (unfold bytes_left; simpl; lia). simpl.
  unfold read_u32, read_bytes.
  rewrite ffwd_Ok by (unfold bytes_left; simpl; lia). simpl.
  done.
Qed.

Lemma decompress_short dgo_data :
  (length dgo_data < 8)%nat → expand dgo_data = Err OutOfBounds.
Proof.
  intros Hlen. unfold decompress, ffwd at 1. case_decide as H4; [|done].
  simpl. unfold read_u32, read_bytes, ffwd.
  rewrite decide_False; [done|]. unfold bytes_left in *. simpl in *. lia.
Qed.

Lemma decompress_fuel dgo_data : expand dgo_data ≠ Err OutOfFuel.
Proof.
  destruct (decide (8 ≤ length dgo_data)%nat) as [Hlen|Hlen].
  - rewrite decompress_unfold by done. apply chunk_loop_fuel.
    unfold bytes_left. simpl. lia.
  - by rewrite decompress_short by lia.
Qed.

Lemma decompress_length dgo_data out :
  expand dgo_data = Ok out → length out = declared_size dgo_data.
Proof.
  destruct (decide (8 ≤ length dgo_data)%nat) as [Hlen|Hlen].
  - rewrite decompress_unfold by done. intros ->%chunk_loop_length.
    apply length_replicate.
  - by rewrite decompress_short by lia.
Qed.


Lemma compressed_archive_header n chunks trailing :
  0 ≤ n < 2 ^ 32 →
  let dgo_data := compressed_archive n chunks ++ trailing in
  (8 ≤ length dgo_data)%nat
  ∧ declared_size dgo_data = Z.to_nat n
  ∧ here (mk dgo_data 8) = encode_chunks chunks ++ trailing
  ∧ (4 * length chunks + 8 ≤ length dgo_data)%nat.
Proof.
  intros Hn dgo_data. unfold dgo_data, compressed_archive, declared_size.
  rewrite <- !app_assoc. pose proof (length_encode_chunks chunks).
  repeat split.
  - rewrite !length_app. simpl. lia.
  - change (drop 4 (jak2_header ++ ?l)) with l.
    change (take 4 (u32_bytes n ++ ?l)) with (u32_bytes n).
    by rewrite le32_u32_bytes.
  - rewrite !length_app. simpl. lia.
Qed.

(** An archive of well-formed chunks that fill the declared size expands to
    what its chunks stand for. *)
Lemma decompress_archive n chunks trailing :
  0 ≤ n < 2 ^ 32 →
  Forall (λ zc, chunk_well_formed lzo1x_decompress zc.2) chunks →
  chunks_fill lzo1x_decompress (Z.to_nat n) chunks →
  expand (compressed_archive n chunks ++ trailing)
  = Ok (chunks_output lzo1x_decompress chunks).
Proof.
  intros Hn Hwf (Hne & Hsum & Hpre).
  destruct (compressed_archive_header n chunks trailing Hn)
    as (Hlen & Hsize & Hhere & Hfuel).
  rewrite decompress_unfold, Hsize by done.
  pose proof (chunk_loop_chunks chunks
                (S (length (compressed_archive n chunks ++ trailing)))
                (Z.to_nat n) []
                (mk (compressed_archive n chunks ++ trailing) 8)
                trailing Hwf Hne) as Hloop.
  cbn [length app] in Hloop. rewrite Nat.sub_0_r in Hloop.
  apply Hloop; try done. lia.
Qed.

(** An archive in which the chunks [pre] fit and leave room, and the next
    chunk does not fit in that room: its bytes are written past the end of
    the output. *)
Lemma decompress_overrun n pre z c rest :
  0 ≤ n < 2 ^ 32 →
  Forall (λ zc, chunk_well_formed lzo1x_decompress zc.2) pre →
  chunk_well_formed lzo1x_decompress c →
  (∀ k, (k ≤ length pre)%nat →
     (length (chunks_output lzo1x_decompress (take k pre)) < Z.to_nat n)%nat) →
  (Z.to_nat n < length (chunks_output lzo1x_decompress pre)
                + length (chunk_output lzo1x_decompress c))%nat →
  expand (compressed_archive n (pre ++ [(z, c)]) ++ rest)
  = Err (OutputOverrun (length (chunks_output lzo1x_decompress pre))
                       (length (chunk_output lzo1x_decompress c))).
Proof.
  intros Hn Hwf Hc Hpre Hover.
  destruct (compressed_archive_header n (pre ++ [(z, c)]) rest Hn)
    as (Hlen & Hsize & Hhere & Hfuel).
  rewrite decompress_unfold, Hsize by done.
  rewrite length_app in Hfuel. cbn [length] in Hfuel.
  pose proof (chunk_loop_overrun_after pre
                (S (length (compressed_archive n (pre ++ [(z, c)]) ++ rest)))
                (Z.to_nat n) []
                (mk (compressed_archive n (pre ++ [(z, c)]) ++ rest) 8)
                z c rest Hwf Hc) as Hloop.
  cbn [length app] in Hloop. rewrite Nat.sub_0_r in Hloop.
  apply Hloop; try done.
  - lia.
  - rewrite Hhere. unfold encode_chunks.
    rewrite fmap_app, join_app. simpl.
    by rewrite app_nil_r, <- app_assoc.
Qed.

(** With fewer than [MAX_CHUNK_SIZE] bytes declared, an archive whose first
    size word asks for a literal copy gives no output, whatever follows the
    word. *)
Lemma decompress_literal_first n zero_words chunk_size rest out :
  0 ≤ n < Z.of_nat MAX_CHUNK_SIZE →
  Z.of_nat MAX_CHUNK_SIZE ≤ chunk_size < 2 ^ 32 →
  expand (jak2_header ++ u32_bytes n
          ++ mjoin (replicate zero_words (u32_bytes 0))
          ++ u32_bytes chunk_size ++ rest)
  ≠ Ok out.
Proof.
  intros Hn Hsize. pose proof MAX_CHUNK_SIZE_value as Hmax.
  set (body := mjoin (replicate zero_words (u32_bytes 0))
               ++ u32_bytes chunk_size ++ rest).
  set (dgo_data := jak2_header ++ u32_bytes n ++ body).
  assert (Hlen : (8 ≤ length dgo_data)%nat).
  { unfold dgo_data. rewrite !length_app. simpl. lia. }
  assert (Hdecl : declared_size dgo_data = Z.to_nat n).
  { unfold declared_size, dgo_data.
    change (drop 4 (jak2_header ++ ?l)) with l.
    change (take 4 (u32_bytes n ++ ?l)) with (u32_bytes n).
    rewrite le32_u32_bytes; [done|lia]. }
  rewrite decompress_unfold, Hdecl by done.
  cbn [decompress_chunks].
  edestruct (read_chunk_size_here (S (bytes_left (mk dgo_data 8)))
               (mk dgo_data 8) zero_words chunk_size rest)
    as [-> _]; [lia| |done|].
  { rewrite bytes_left_here.
    change (here (mk dgo_data 8)) with body. unfold body.
    rewrite length_app, length_join, fmap_replicate, sum_list_replicate.
    change (length (u32_bytes 0)) with 4%nat. lia. }
  unfold mbind, result_bind at 1. cbv beta iota.
  destruct (chunk_step chunk_size _ _ _) as [[[r2 out'] off']|e] eqn:Hstep;
    [|done].
  apply chunk_step_Ok in Hstep as (Hin & _ & Hwrite & _).
  apply write_at_Ok in Hwrite as (Hfit & _).
  unfold chunk_input, chunk_write in *.
  rewrite (proj2 (Z.ltb_ge _ _)) in Hin, Hfit by lia.
  rewrite length_take, <- bytes_left_here, length_replicate in Hfit. lia.
Qed.

(** C5 (as amended).  Decompression always ends, and a buffer it returns
    has exactly the declared number of bytes.  It returns one for every
    archive of well-formed chunks (zero words skipped, a size word below
    0x8000 followed by a compressed block of that size, a size word of
    0x8000 or more followed by a literal block of exactly 0x8000 bytes,
    null bytes to the next multiple of four after each block) that fill the
    declared size: the expansion of the chunks in order, of exactly that
    size.  A literal chunk always stands for 0x8000 bytes of output: with a
    declared size below 0x8000, an archive that starts with a literal chunk
    gives no buffer. *)
Theorem decompression_output_size :
  (∀ dgo_data, expand dgo_data ≠ Err OutOfFuel)
  ∧ (∀ dgo_data out,
       expand dgo_data = Ok out → length out = declared_size dgo_data)
  ∧ (∀ n chunks trailing,
       0 ≤ n < 2 ^ 32 →
       Forall (λ zc, chunk_well_formed lzo1x_decompress zc.2) chunks →
       chunks_fill lzo1x_decompress (Z.to_nat n) chunks →
       expand (compressed_archive n chunks ++ trailing)
       = Ok (chunks_output lzo1x_decompress chunks)
       ∧ length (chunks_output lzo1x_decompress chunks) = Z.to_nat n)
  ∧ (∀ n zero_words chunk_size rest out,
       0 ≤ n < Z.of_nat MAX_CHUNK_SIZE →
       Z.of_nat MAX_CHUNK_SIZE ≤ chunk_size < 2 ^ 32 →
       expand (jak2_header ++ u32_bytes n
               ++ mjoin (replicate zero_words (u32_bytes 0))
               ++ u32_bytes chunk_size ++ rest)
       ≠ Ok out).
Proof.
  split; [apply decompress_fuel|].
  split; [apply decompress_length|].
  split.
  - intros n chunks trailing Hn Hwf Hfill.
    split; [by apply decompress_archive|]. by destruct Hfill as (_ & ? & _).
  - intros. by apply decompress_literal_first.
Qed.


End DecompressFacts.

(** ** Worked archives *)

Lemma literal_block_well_formed chunk_size b :
  32768 ≤ chunk_size < 2 ^ 32 →
  chunk_well_formed stored_block
    (LiteralChunk chunk_size (replicate MAX_CHUNK_SIZE b)).
Proof.
  intros Hsize. pose proof MAX_CHUNK_SIZE_value. simpl.
  rewrite length_replicate. split; [lia|done].
Qed.

Lemma eight_bytes_well_formed :
  chunk_well_formed stored_block (CompressedChunk eight_bytes).
Proof. pose proof MAX_CHUNK_SIZE_value. simpl. split; [lia|done]. Qed.

(** A literal chunk with a nominal size of 40000, a zero word, and a
    compressed chunk of eight bytes expand to 0x8000 + 8 bytes. *)
Lemma decompression_output_size_witness :
  decompress stored_block
    (compressed_archive 32776
       [(O, LiteralChunk 40000 (replicate MAX_CHUNK_SIZE x2a));
        (1%nat, CompressedChunk eight_bytes)] ++ [])
  = Ok (chunks_output stored_block
          [(O, LiteralChunk 40000 (replicate MAX_CHUNK_SIZE x2a));
           (1%nat, CompressedChunk eight_bytes)])
  ∧ length (chunks_output stored_block
              [(O, LiteralChunk 40000 (replicate MAX_CHUNK_SIZE x2a));
               (1%nat, CompressedChunk eight_bytes)])
    = Z.to_nat 32776.
Proof.
  pose proof MAX_CHUNK_SIZE_value as Hmax.
  destruct (decompression_output_size stored_block) as (_ & _ & Hexpand & _).
  apply Hexpand.
  - lia.
  - constructor; [apply literal_block_well_formed; lia|].
    constructor; [apply eight_bytes_well_formed|constructor].
  - split; [done|]. unfold chunks_output. cbn [fmap list_fmap mjoin list_join snd
      chunk_output stored_block fst].
    rewrite app_nil_r. split.
    + rewrite length_app, length_replicate. simpl length. lia.
    + intros k Hk. assert (k = 1%nat) as -> by (simpl in Hk; lia).
      cbn [take fmap list_fmap mjoin list_join snd chunk_output stored_block
           fst].
      rewrite app_nil_r, length_replicate. lia.
Defined.

(** The scenario of a literal chunk in an archive that declares 40 bytes: the
    literal chunk is copied in full, 0x8000 bytes at offset 0 of a buffer of
    40, and no buffer of 40 bytes comes back. *)
Lemma literal_chunk_scenario_fails :
  let archive :=
    compressed_archive 40
      [(O, LiteralChunk 32768 (replicate MAX_CHUNK_SIZE x2a));
       (1%nat, CompressedChunk eight_bytes)] in
  declared_size archive = 40%nat
  ∧ decompress stored_block archive = Err (OutputOverrun 0 MAX_CHUNK_SIZE)
  ∧ ¬ ∃ out, decompress stored_block archive = Ok out ∧ length out = 40%nat.
Proof.
  pose proof MAX_CHUNK_SIZE_value as Hmax.
  set (lit := LiteralChunk 32768 (replicate MAX_CHUNK_SIZE x2a)).
  set (rest := encode_chunks [(1%nat, CompressedChunk eight_bytes)]).
  assert (Harchive :
    compressed_archive 40 [(O, lit); (1%nat, CompressedChunk eight_bytes)]
    = compressed_archive 40 ([] ++ [(O, lit)]) ++ rest).
  { unfold compressed_archive, rest. rewrite <- !app_assoc.
    by do 2 f_equal. }
  assert (Hrun : decompress stored_block
                   (compressed_archive 40 ([] ++ [(O, lit)]) ++ rest)
                 = Err (OutputOverrun 0 MAX_CHUNK_SIZE)).
  { rewrite (decompress_overrun stored_block 40 [] O lit rest).
    - unfold lit. simpl. by rewrite length_replicate.
    - lia.
    - constructor.
    - apply literal_block_well_formed. lia.
    - intros k Hk. simpl in Hk. assert (k = O) as -> by lia. simpl. lia.
    - unfold lit. simpl. rewrite length_replicate. lia. }
  cbv zeta. rewrite Harchive. split; [|split].
  - destruct (compressed_archive_header stored_block 40 ([] ++ [(O, lit)])
                rest) as (_ & Hsize & _); [lia|]. exact Hsize.
  - exact Hrun.
  - intros (out & Hout & _). by rewrite Hrun in Hout.
Qed.



(** Two small chunks, evaluated. *)
Example decompress_two_chunks :
  decompress stored_block
    (compressed_archive 11
       [(O, CompressedChunk [x0a; x0b; x0c]);
        (1%nat, CompressedChunk eight_bytes)])
  = Ok [x0a; x0b; x0c; x01; x02; x03; x04; x05; x06; x07; x08].
Proof. vm_compute. reflexivity. Qed.

(** ** The container *)

Section NameFields.
Implicit Types (nm field str : list byte).

Lemma strlen_null str : strlen (x00 :: str) = Some O.
Proof. done. Qed.

Lemma strlen_app nm str :
  Forall (λ b, b ≠ x00) nm →
  strlen (nm ++ str) = (λ n, length nm + n)%nat <$> strlen str.
Proof.
  induction 1 as [|b nm Hb _ IH]; simpl.
  - by destruct (strlen str).
  - rewrite decide_False by done. rewrite IH. by destruct (strlen str).
Qed.

Lemma strlen_name_field nm :
  name_ok nm → strlen (name_field nm) = Some (length nm).
Proof.
  intros [Hnm Hlen]. unfold name_field. rewrite strlen_app by done.
  destruct (60 - length nm)%nat as [|k] eqn:Hk; [lia|]. simpl.
  by rewrite Nat.add_0_r.
Qed.

Lemma length_name_field nm :
  (length nm ≤ 60)%nat → length (name_field nm) = 60%nat.
Proof.
  intros Hlen. unfold name_field. rewrite length_app, length_replicate. lia.
Qed.

(** A well-formed name field passes the check ... *)
Lemma assert_string_empty_after_name_field nm :
  name_ok nm → assert_string_empty_after (name_field nm) 60 = Ok ().
Proof.
  intros Hok. unfold assert_string_empty_after.
  rewrite strlen_name_field by done. destruct Hok as [_ Hlen].
  rewrite firstn_all2 by (rewrite length_name_field; lia).
  unfold name_field. rewrite drop_app_length.
  induction (60 - length nm)%nat as [|k IH]; [done|]. simpl in *.
  by destruct (forallb _ _).
Qed.

(** ... and reads as the name. *)
Lemma c_string_name_field nm :
  name_ok nm → c_string (name_field nm) = Ok (String.string_of_list_byte nm).
Proof.
  intros Hok. unfold c_string. rewrite strlen_name_field by done.
  unfold name_field. by rewrite take_app_length.
Qed.

(** A field with a byte that is not null after its terminator fails it. *)
Lemma assert_string_empty_after_dirty field :
  dirty_after_terminator field →
  assert_string_empty_after field 60 = Err MalformedHeader.
Proof.
  intros (Hlen & n & j & b & Hstrlen & Hnj & Hj & Hb).
  unfold assert_string_empty_after. rewrite Hstrlen.
  rewrite firstn_all2 by lia.
  destruct (forallb _ (drop n field)) eqn:Hall; [|done].
  exfalso. rewrite forallb_forall in Hall.
  specialize (Hall b). rewrite bool_decide_eq_true in Hall.
  apply Hb, Hall, list_elem_of_In, list_elem_of_lookup.
  exists (j - n)%nat. rewrite lookup_drop. rewrite <- Hj. f_equal. lia.
Qed.

End NameFields.

Section ContainerFacts.
Import BinaryReader.
Context {FunctionRest LinkedRest : Type}.
Variable crc32 : list byte → Z.
Variable init_linked_data : LinkedObjectFile FunctionRest LinkedRest.
Variable init_reference_count : Z.
Variable lzo1x_decompress : list byte → list byte * bool.

Abbreviation Db := (ObjectFileDB FunctionRest LinkedRest).
Abbreviation insert_all :=
  (add_all crc32 init_linked_data init_reference_count).
Abbreviation walk :=
  (read_objs crc32 init_linked_data init_reference_count).
Abbreviation ingest :=
  (get_objs_from_dgo crc32 init_linked_data init_reference_count
     lzo1x_decompress).

Implicit Types (r : BinaryReader.t) (db : Db) (field rest : list byte).

Lemma header_read_here r size field rest :
  0 ≤ size < 2 ^ 32 → length field = 60%nat →
  here r = u32_bytes size ++ field ++ rest →
  DgoHeader.read r
  = Ok (DgoHeader.mk size field, mk (buffer r) (seek r + 64))
  ∧ here (mk (buffer r) (seek r + 64)) = rest.
Proof.
  intros Hsize Hlen Hhere. rewrite app_assoc in Hhere.
  destruct (read_bytes_here _ _ _ Hhere) as [Hread Hrest].
  rewrite length_app, Hlen in Hread, Hrest.
  change (length (u32_bytes size) + 60)%nat with 64%nat in *.
  unfold DgoHeader.read. rewrite Hread.
  unfold mbind, result_bind. cbv beta iota. split; [|done].
  change (take 4 (u32_bytes size ++ field)) with (u32_bytes size).
  change (drop 4 (u32_bytes size ++ field)) with field.
  by rewrite le32_u32_bytes.
Qed.

Lemma length_encode_obj obj :
  (length obj.1 ≤ 60)%nat →
  length (encode_obj obj) = (64 + length obj.2)%nat.
Proof.
  intros Hlen. unfold encode_obj.
  rewrite !length_app, length_name_field by done.
  change (length (u32_bytes _)) with 4%nat. lia.
Qed.

(** One turn of the loop on a well-formed object: it is inserted, and the
    reader is behind it. *)
Lemma read_objs_turn n base r obj rest db :
  obj_ok obj → here r = encode_obj obj ++ rest →
  let r' := mk (buffer r) (seek r + length (encode_obj obj)) in
  here r' = rest
  ∧ walk (S n) base r db
    = walk n base r'
        (add_obj_from_dgo crc32 init_linked_data init_reference_count
           (String.string_of_list_byte obj.1) obj.2 base db).
Proof.
  destruct obj as [nm bytes]. intros [Hname Hsize] Hhere r'.
  cbn [fst snd] in *.
  assert (Hnm : (length nm ≤ 60)%nat) by (destruct Hname; lia).
  assert (Hhere' : here r' = rest).
  { unfold r'. by rewrite here_advance, Hhere, drop_app_length. }
  split; [done|].
  unfold encode_obj in Hhere. cbn [fst snd] in Hhere.
  rewrite <- !app_assoc in Hhere.
  destruct (header_read_here r (Z.of_nat (length bytes)) (name_field nm)
              (bytes ++ rest)) as [Hread Hhere1];
    [lia|by apply length_name_field|done|].
  cbn [read_objs]. rewrite Hread. unfold mbind, result_bind at 1.
  cbv beta iota. cbn [DgoHeader.size DgoHeader.name].
  set (r1 := mk (buffer r) (seek r + 64)) in *.
  assert (Hleft : bytes_left r1 = (length bytes + length rest)%nat)
    by (by rewrite bytes_left_here, Hhere1, length_app).
  rewrite decide_False by lia.
  rewrite assert_string_empty_after_name_field by done.
  rewrite c_string_name_field by done.
  unfold mbind, result_bind at 1 2. rewrite Nat2Z.id.
  rewrite ffwd_Ok by lia. rewrite Hhere1, take_app_length.
  unfold mbind, result_bind at 1.
  replace (mk (buffer r1) (seek r1 + length bytes)) with r'; [done|].
  unfold r', r1. cbn [buffer seek].
  rewrite (length_encode_obj (nm, bytes)) by done. cbn [snd]. f_equal. lia.
Qed.

(** The loop over a run of well-formed objects. *)
Lemma read_objs_run objs :
  ∀ n base r rest db,
  Forall obj_ok objs → here r = encode_objs objs ++ rest →
  let r' := mk (buffer r) (seek r + length (encode_objs objs)) in
  here r' = rest
  ∧ walk (length objs + n) base r db
    = walk n base r' (insert_all (obj_insertions base objs) db).
Proof.
  induction objs as [|obj objs IH]; intros n base r rest db Hok Hhere.
  - simpl. rewrite Nat.add_0_r. destruct r. done.
  - apply Forall_cons in Hok as [Hobj Hok].
    change (encode_objs (obj :: objs))
      with (encode_obj obj ++ encode_objs objs) in *.
    rewrite <- app_assoc in Hhere.
    destruct (read_objs_turn (length objs + n) base r obj _ db Hobj Hhere)
      as [Hhere1 Hturn].
    cbn [length Nat.add]. rewrite Hturn.
    destruct (IH n base _ rest
                (add_obj_from_dgo crc32 init_linked_data
                   init_reference_count (String.string_of_list_byte obj.1)
                   obj.2 base db) Hok Hhere1) as [Hhere2 Hrun].
    cbn [buffer seek] in *. rewrite length_app, Nat.add_assoc.
    split; [done|]. by rewrite Hrun.
Qed.

(** [get_objs_from_dgo] on an uncompressed file, once its header is read
    and its name agrees with the file name. *)
Lemma get_objs_unfold base file count field body db :
  is_jak2 file = false →
  file = u32_bytes count ++ field ++ body →
  0 ≤ count < 2 ^ 32 → length field = 60%nat →
  c_string field = Ok base →
  here (mk file 64) = body
  ∧ ingest base file db
    = (_ ← assert_string_empty_after field 60 ;
       '(reader, db') ←
         walk (Z.to_nat count) base (mk file 64)
              (count_dgo_bytes (length file) db) ;
       if decide (bytes_left reader = O) then Ok db' else Err TrailingData).
Proof.
  intros Hplain Hfile Hcount Hlen Hname.
  destruct (header_read_here (mk file 0) count field body Hcount Hlen)
    as [Hread Hhere]; [by rewrite Hfile|].
  split; [done|].
  unfold get_objs_from_dgo. rewrite Hplain.
  unfold mbind, result_bind at 1. rewrite Hread.
  unfold mbind, result_bind at 1. cbv beta iota.
  cbn [DgoHeader.name DgoHeader.size]. rewrite Hname.
  unfold mbind, result_bind at 1. by rewrite decide_True.
Qed.

Lemma bytes_left_nil r : bytes_left r = O ↔ here r = [].
Proof.
  rewrite bytes_left_here. split.
  - by intros ?%nil_length_inv.
  - by intros ->.
Qed.

(** C6.  For a file that is not compressed.  A header whose name field has
    a byte that is not null after its null terminator stops the parse with
    [MalformedHeader], in the archive header (the name read from it being
    that of the file) and in the header of an object (the objects before it
    being well formed and its bytes being there).  An object whose declared
    length is more than the bytes left behind its header stops it with
    [TruncatedObject].  Bytes left over behind the declared number of
    well-formed objects stop it with [TrailingData].  A well-formed archive
    raises none of them: the parse succeeds and has inserted its objects in
    order. *)
Theorem container_validation (base : string) (nm : list byte) db :
  name_ok nm → String.string_of_list_byte nm = base →
  (* the archive header *)
  (∀ file count field body,
     is_jak2 file = false →
     file = u32_bytes count ++ field ++ body →
     0 ≤ count < 2 ^ 32 →
     dirty_after_terminator field → c_string field = Ok base →
     ingest base file db = Err MalformedHeader)
  (* an object header *)
  ∧ (∀ file count good size field rest,
       is_jak2 file = false →
       file = u32_bytes count ++ name_field nm ++ encode_objs good
              ++ u32_bytes size ++ field ++ rest →
       Forall obj_ok good → Z.of_nat (length good) < count < 2 ^ 32 →
       0 ≤ size < 2 ^ 32 → size ≤ Z.of_nat (length rest) →
       dirty_after_terminator field →
       ingest base file db = Err MalformedHeader)
  (* a length that is not there *)
  ∧ (∀ file count good size field rest,
       is_jak2 file = false →
       file = u32_bytes count ++ name_field nm ++ encode_objs good
              ++ u32_bytes size ++ field ++ rest →
       Forall obj_ok good → Z.of_nat (length good) < count < 2 ^ 32 →
       length field = 60%nat →
       Z.of_nat (length rest) < size < 2 ^ 32 →
       ingest base file db = Err TruncatedObject)
  (* left-over bytes *)
  ∧ (∀ objs extra,
       is_jak2 (dgo_file nm objs ++ extra) = false →
       Forall obj_ok objs → Z.of_nat (length objs) < 2 ^ 32 →
       extra ≠ [] →
       ingest base (dgo_file nm objs ++ extra) db = Err TrailingData)
  (* a well-formed archive *)
  ∧ (∀ objs,
       is_jak2 (dgo_file nm objs) = false →
       Forall obj_ok objs → Z.of_nat (length objs) < 2 ^ 32 →
       ingest base (dgo_file nm objs) db
       = Ok (insert_all (obj_insertions base objs)
               (count_dgo_bytes (length (dgo_file nm objs)) db))).
Proof.
  intros Hnm Hbase.
  assert (Hfield : length (name_field nm) = 60%nat)
    by (apply length_name_field; destruct Hnm; lia).
  assert (Hcstr : c_string (name_field nm) = Ok base)
    by (by rewrite c_string_name_field, Hbase).
  split; [|split; [|split; [|split]]].
  - intros file count field body Hplain Hfile Hcount Hdirty Hname.
    destruct (get_objs_unfold base file count field body db Hplain Hfile
                Hcount (proj1 Hdirty) Hname) as [_ ->].
    by rewrite assert_string_empty_after_dirty.
  - intros file count good size field rest Hplain Hfile Hgood Hcount Hsize
      Hthere Hdirty.
    destruct (get_objs_unfold base file count (name_field nm) _ db Hplain
                Hfile ltac:(lia) Hfield Hcstr) as [Hhere ->].
    rewrite assert_string_empty_after_name_field by done.
    unfold mbind, result_bind at 1.
    replace (Z.to_nat count)
      with (length good + S (Z.to_nat count - length good - 1))%nat by lia.
    destruct (read_objs_run good (S (Z.to_nat count - length good - 1)) base
                _ _ (count_dgo_bytes (length file) db) Hgood Hhere)
      as [Hhere1 ->].
    cbn [read_objs].
    destruct (header_read_here _ size field rest ltac:(lia) (proj1 Hdirty)
                Hhere1) as [-> Hhere2].
    unfold mbind, result_bind at 2. cbv beta iota.
    cbn [DgoHeader.size DgoHeader.name].
    rewrite decide_False by (rewrite bytes_left_here, Hhere2; lia).
    by rewrite assert_string_empty_after_dirty.
  - intros file count good size field rest Hplain Hfile Hgood Hcount Hlen
      Hsize.
    destruct (get_objs_unfold base file count (name_field nm) _ db Hplain
                Hfile ltac:(lia) Hfield Hcstr) as [Hhere ->].
    rewrite assert_string_empty_after_name_field by done.
    unfold mbind, result_bind at 1.
    replace (Z.to_nat count)
      with (length good + S (Z.to_nat count - length good - 1))%nat by lia.
    destruct (read_objs_run good (S (Z.to_nat count - length good - 1)) base
                _ _ (count_dgo_bytes (length file) db) Hgood Hhere)
      as [Hhere1 ->].
    cbn [read_objs].
    destruct (header_read_here _ size field rest ltac:(lia) Hlen Hhere1)
      as [-> Hhere2].
    unfold mbind, result_bind at 2. cbv beta iota.
    cbn [DgoHeader.size].
    by rewrite decide_True by (rewrite bytes_left_here, Hhere2; lia).
  - intros objs extra Hplain Hobjs Hcount Hextra.
    destruct (get_objs_unfold base (dgo_file nm objs ++ extra)
                (Z.of_nat (length objs)) (name_field nm)
                (encode_objs objs ++ extra) db Hplain)
      as [Hhere ->]; [by unfold dgo_file; rewrite <- !app_assoc|lia|done..|].
    rewrite assert_string_empty_after_name_field by done.
    unfold mbind, result_bind at 1. rewrite Nat2Z.id.
    rewrite <- (Nat.add_0_r (length objs)) at 1.
    destruct (read_objs_run objs O base _ _
                (count_dgo_bytes (length (dgo_file nm objs ++ extra)) db)
                Hobjs Hhere) as [Hhere1 ->].
    cbn [read_objs]. unfold mbind, result_bind. cbv beta iota.
    rewrite decide_False; [done|].
    rewrite bytes_left_nil, Hhere1. done.
  - intros objs Hplain Hobjs Hcount.
    destruct (get_objs_unfold base (dgo_file nm objs)
                (Z.of_nat (length objs)) (name_field nm)
                (encode_objs objs ++ []) db Hplain)
      as [Hhere ->]; [by rewrite app_nil_r|lia|done..|].
    rewrite assert_string_empty_after_name_field by done.
    unfold mbind, result_bind at 1. rewrite Nat2Z.id.
    rewrite <- (Nat.add_0_r (length objs)) at 1.
    destruct (read_objs_run objs O base _ _
                (count_dgo_bytes (length (dgo_file nm objs)) db)
                Hobjs Hhere) as [Hhere1 ->].
    cbn [read_objs]. unfold mbind, result_bind. cbv beta iota.
    rewrite decide_True; [done|].
    by rewrite bytes_left_nil, Hhere1.
Qed.

End ContainerFacts.

(** ** The top-level function *)

Section TopLevelFacts.
Context {FunctionRest LinkedRest : Type}.
Variable find_global_function_defs :
  nat → nat → LinkedObjectFile FunctionRest LinkedRest
  → LinkedObjectFile FunctionRest LinkedRest.
Variable find_basic_blocks_pass :
  ObjectFileDB FunctionRest LinkedRest → ObjectFileDB FunctionRest LinkedRest.

Abbreviation Obj := (ObjectFileData FunctionRest LinkedRest).
Abbreviation name_step := (name_top_level find_global_function_defs).
Abbreviation analyze :=
  (analyze_functions find_global_function_defs find_basic_blocks_pass).

Implicit Types (d : Obj) (func : Function FunctionRest).

Lemma name_step_other d :
  segments (linked_data d) ≠ 3 → name_step d = Ok d.
Proof.
  intros Hseg. unfold name_top_level.
  by rewrite (proj2 (Z.eqb_neq _ _) Hseg).
Qed.

Lemma name_step_single d func :
  segments (linked_data d) = 3 →
  functions_by_seg (linked_data d) !! 2%nat = Some [func] →
  guessed_name func = "" →
  name_step d = Ok (top_level_named find_global_function_defs d func).
Proof.
  intros Hseg Hfs Hname. unfold name_top_level, top_level_named.
  rewrite (proj2 (Z.eqb_eq _ _) Hseg), Hfs.
  rewrite decide_True by done. by rewrite decide_True.
Qed.

Lemma name_step_count d fs :
  segments (linked_data d) = 3 →
  functions_by_seg (linked_data d) !! 2%nat = Some fs →
  length fs ≠ 1%nat →
  name_step d = Err InvariantViolation.
Proof.
  intros Hseg Hfs Hlen. unfold name_top_level.
  rewrite (proj2 (Z.eqb_eq _ _) Hseg), Hfs. by rewrite decide_False.
Qed.

Lemma name_step_named d func :
  segments (linked_data d) = 3 →
  functions_by_seg (linked_data d) !! 2%nat = Some [func] →
  guessed_name func ≠ "" →
  name_step d = Err InvariantViolation.
Proof.
  intros Hseg Hfs Hname. unfold name_top_level.
  rewrite (proj2 (Z.eqb_eq _ _) Hseg), Hfs.
  rewrite decide_True by done. by rewrite decide_False.
Qed.

(** What a successful step says about the object it was run on. *)
Lemma name_step_Ok d d' :
  name_step d = Ok d' →
  (segments (linked_data d) ≠ 3 ∧ d' = d)
  ∨ (segments (linked_data d) = 3
     ∧ ∃ func, functions_by_seg (linked_data d) !! 2%nat = Some [func]
               ∧ guessed_name func = ""
               ∧ d' = top_level_named find_global_function_defs d func).
Proof.
  unfold name_top_level.
  destruct (segments (linked_data d) =? 3) eqn:Hseg.
  - apply Z.eqb_eq in Hseg.
    destruct (functions_by_seg (linked_data d) !! 2%nat) as [fs|] eqn:Hfs;
      [|done].
    case_decide as Hlen; [|done].
    destruct fs as [|func [|? ?]]; try done.
    case_decide as Hname; [|done].
    intros [= <-]. right. split; [done|]. by exists func.
  - apply Z.eqb_neq in Hseg. intros [= <-]. by left.
Qed.

(** *** The traversal *)

Lemma each_Ok {A} (f : A → result A) l l' :
  each f l = Ok l' → Forall2 (λ x y, f x = Ok y) l l'.
Proof.
  revert l'. induction l as [|x l IH]; intros l'; simpl.
  - intros [= <-]. constructor.
  - destruct (f x) as [y|e] eqn:Hx; [|done]. simpl.
    destruct (each f l) as [l1|e]; [|done]. simpl.
    intros [= <-]. constructor; [done|]. by apply IH.
Qed.

Lemma each_Err {A} (f : A → result A) l x e :
  x ∈ l → f x = Err e → ∃ e', each f l = Err e'.
Proof.
  induction l as [|y l IH]; intros Hin Hx; [by apply elem_of_nil in Hin|].
  simpl. destruct (f y) as [y'|e1] eqn:Hy; [|by eexists].
  apply elem_of_cons in Hin as [->|Hin]; [congruence|].
  destruct (IH Hin Hx) as [e' ->]. by eexists.
Qed.

Lemma for_each_obj_in_Ok (f : Obj → result Obj) order :
  ∀ by_name by_name',
  NoDup order →
  for_each_obj_in f order by_name = Ok by_name' →
  (∀ n, n ∈ order →
     ∃ objs objs', by_name !! n = Some objs ∧ by_name' !! n = Some objs'
                   ∧ Forall2 (λ x y, f x = Ok y) objs objs')
  ∧ (∀ n, n ∉ order → by_name' !! n = by_name !! n).
Proof.
  induction order as [|m order IH]; intros by_name by_name' Hnodup; simpl.
  - intros [= <-]. split; [|done]. by intros n ?%elem_of_nil.
  - apply NoDup_cons in Hnodup as [Hm Hnodup].
    destruct (by_name !! m) as [objs|] eqn:Hobjs; [|done].
    destruct (each f objs) as [objs'|e] eqn:Heach; [|done]. simpl.
    intros Hrest. destruct (IH _ _ Hnodup Hrest) as [Hin Hout].
    split.
    + intros n [->|Hn]%elem_of_cons.
      * exists objs, objs'. split; [done|].
        rewrite (Hout m Hm), lookup_insert_eq. split; [done|].
        by apply each_Ok.
      * destruct (Hin n Hn) as (o1 & o2 & Ho1 & Ho2 & Hall).
        rewrite lookup_insert_ne in Ho1 by (intros ->; done).
        by exists o1, o2.
    + intros n Hn. apply not_elem_of_cons in Hn as [Hne Hn].
      rewrite (Hout n Hn). by rewrite lookup_insert_ne.
Qed.

Lemma for_each_obj_in_Err (f : Obj → result Obj) order :
  ∀ by_name n objs x e,
  NoDup order → n ∈ order → by_name !! n = Some objs → x ∈ objs →
  f x = Err e →
  ∃ e', for_each_obj_in f order by_name = Err e'.
Proof.
  induction order as [|m order IH];
    intros by_name n objs x e Hnodup Hn Hobjs Hx Hfx;
    [by apply elem_of_nil in Hn|].
  apply NoDup_cons in Hnodup as [Hm Hnodup]. simpl.
  destruct (by_name !! m) as [objs0|] eqn:Hobjs0; [|by eexists].
  apply elem_of_cons in Hn as [->|Hn].
  - assert (objs0 = objs) as -> by congruence.
    destruct (each_Err f objs x e Hx Hfx) as [e' ->]. by eexists.
  - destruct (each f objs0) as [objs0'|e0]; [|by eexists]. simpl.
    apply (IH _ n objs x e); try done.
    rewrite lookup_insert_ne; [done|]. by intros ->.
Qed.

(** C8.  The step run on each stored object at the end of
    [analyze_functions].  An object whose link data has a number of segments
    other than three is left as it is.  For an object with three segments
    the third segment must hold exactly one function: none, or more than
    one, is an [InvariantViolation].  That function, whose guessed name is
    empty (a name already there is an [InvariantViolation] too), is given the
    name ["(top-level-init)"], and its global function definitions are looked
    for in the link data that has the function under that name.  Over the
    whole store (its order without repetition): a successful analysis has
    treated every object of every name of the order in this way, and it fails
    when a stored object with three segments does not have exactly one
    function in the third. *)
Theorem top_level_entry_convention :
  (∀ d, segments (linked_data d) ≠ 3 → name_step d = Ok d)
  ∧ (∀ d fs,
       segments (linked_data d) = 3 →
       functions_by_seg (linked_data d) !! 2%nat = Some fs →
       length fs ≠ 1%nat →
       name_step d = Err InvariantViolation)
  ∧ (∀ d func,
       segments (linked_data d) = 3 →
       functions_by_seg (linked_data d) !! 2%nat = Some [func] →
       guessed_name func = "" →
       name_step d = Ok (top_level_named find_global_function_defs d func)
       ∧ guessed_name (set_guessed_name "(top-level-init)" func)
         = "(top-level-init)")
  ∧ (∀ d func,
       segments (linked_data d) = 3 →
       functions_by_seg (linked_data d) !! 2%nat = Some [func] →
       guessed_name func ≠ "" →
       name_step d = Err InvariantViolation)
  ∧ (∀ (find_basic_blocks : bool)
       (db db' : ObjectFileDB FunctionRest LinkedRest),
       let db1 :=
         if find_basic_blocks then find_basic_blocks_pass db else db in
       NoDup (obj_file_order db1) →
       analyze find_basic_blocks db = Ok db' →
       ∀ n, n ∈ obj_file_order db1 →
         ∃ objs objs',
           obj_files_by_name db1 !! n = Some objs
           ∧ obj_files_by_name db' !! n = Some objs'
           ∧ Forall2
               (λ d d',
                  (segments (linked_data d) ≠ 3 ∧ d' = d)
                  ∨ (segments (linked_data d) = 3
                     ∧ ∃ func,
                         functions_by_seg (linked_data d) !! 2%nat
                         = Some [func]
                         ∧ guessed_name func = ""
                         ∧ d' = top_level_named find_global_function_defs
                                  d func))
               objs objs')
  ∧ (∀ (find_basic_blocks : bool)
       (db : ObjectFileDB FunctionRest LinkedRest) n objs d fs,
       let db1 :=
         if find_basic_blocks then find_basic_blocks_pass db else db in
       NoDup (obj_file_order db1) →
       n ∈ obj_file_order db1 →
       obj_files_by_name db1 !! n = Some objs → d ∈ objs →
       segments (linked_data d) = 3 →
       functions_by_seg (linked_data d) !! 2%nat = Some fs →
       length fs ≠ 1%nat →
       ∃ e, analyze find_basic_blocks db = Err e).
Proof.
  split; [apply name_step_other|].
  split; [apply name_step_count|].
  split; [intros d func Hseg Hfs Hname; split;
          [by apply name_step_single|done]|].
  split; [apply name_step_named|].
  split.
  - intros find_basic_blocks db db' db1 Hnodup Hrun n Hn.
    unfold analyze_functions, for_each_obj in Hrun. fold db1 in Hrun.
    destruct (for_each_obj_in name_step (obj_file_order db1)
                (obj_files_by_name db1)) as [by_name'|e] eqn:Hwalk;
      [|done].
    simpl in Hrun. injection Hrun as <-. simpl.
    destruct (for_each_obj_in_Ok _ _ _ _ Hnodup Hwalk) as [Hin _].
    destruct (Hin n Hn) as (objs & objs' & Ho & Ho' & Hall).
    exists objs, objs'. split; [done|]. split; [done|].
    eapply Forall2_impl; [exact Hall|]. intros d d'. apply name_step_Ok.
  - intros find_basic_blocks db n objs d fs db1 Hnodup Hn Hobjs Hd Hseg Hfs
      Hlen.
    unfold analyze_functions, for_each_obj. fold db1.
    destruct (for_each_obj_in_Err name_step (obj_file_order db1)
                (obj_files_by_name db1) n objs d InvariantViolation)
      as [e ->]; try done.
    + by eapply name_step_count.
    + by exists e.
Qed.

End TopLevelFacts.

(** ** Worked containers and objects *)

Lemma container_validation_witness :
  let ingest :=
    get_objs_from_dgo byte_sum no_link_data spec_reference_count stored_block
  in
  ingest "MAIN" (dgo_file main_name one_object) empty_db
  = Ok (add_all byte_sum no_link_data spec_reference_count
          [("a", [x01; x02; x03], "MAIN")]
          (count_dgo_bytes (length (dgo_file main_name one_object)) empty_db))
  ∧ ingest "MAIN" (dgo_file main_name one_object ++ [xff]) empty_db
    = Err TrailingData.
Proof.
  assert (Hname : name_ok main_name).
  { split; [|simpl; lia]. repeat constructor; discriminate. }
  assert (Hobjs : Forall obj_ok one_object).
  { constructor; [|constructor]. split; [|simpl; lia].
    split; [|simpl; lia]. repeat constructor; discriminate. }
  destruct (container_validation byte_sum no_link_data spec_reference_count
              stored_block "MAIN" main_name empty_db Hname eq_refl)
    as (_ & _ & _ & Htrailing & Hgood).
  split.
  - apply (Hgood one_object); [reflexivity|exact Hobjs|simpl; lia].
  - apply (Htrailing one_object [xff]);
      [reflexivity|exact Hobjs|simpl; lia|discriminate].
Defined.

(** The same archive with a stray byte behind the name of the object, and
    with an object that declares more bytes than follow. *)
Example dirty_object_header :
  get_objs_from_dgo byte_sum no_link_data spec_reference_count stored_block
    "MAIN"
    (u32_bytes 1 ++ name_field main_name
     ++ u32_bytes 3 ++ ([x61; x00; x62] ++ replicate 57 x00)
     ++ [x01; x02; x03])
    empty_db
  = Err MalformedHeader.
Proof. vm_compute. reflexivity. Qed.

Example truncated_object :
  get_objs_from_dgo byte_sum no_link_data spec_reference_count stored_block
    "MAIN"
    (u32_bytes 1 ++ name_field main_name
     ++ u32_bytes 4 ++ name_field [x61] ++ [x01; x02; x03])
    empty_db
  = Err TruncatedObject.
Proof. vm_compute. reflexivity. Qed.

Example dirty_archive_header :
  get_objs_from_dgo byte_sum no_link_data spec_reference_count stored_block
    "MAIN"
    (u32_bytes 0 ++ (main_name ++ [x00; x21] ++ replicate 54 x00))
    empty_db
  = Err MalformedHeader.
Proof. vm_compute. reflexivity. Qed.

Lemma top_level_entry_convention_witness :
  name_top_level same_link_data three_segments
  = Ok (mkData [x01]
          (mkLinked 3 [[]; []; [mkFunction "(top-level-init)" tt]] tt)
          (mkRecord "foo" 0 1) 1).
Proof.
  destruct (top_level_entry_convention same_link_data (λ db, db))
    as (_ & _ & Hsingle & _).
  destruct (Hsingle three_segments (mkFunction "" tt) eq_refl eq_refl eq_refl)
    as [Hstep _].
  exact Hstep.
Defined.

Example two_functions_in_third_segment :
  name_top_level same_link_data
    (mkData [x01]
       (mkLinked 3 [[]; []; [mkFunction "" tt; mkFunction "" tt]] tt)
       (mkRecord "foo" 0 1) 1)
  = Err InvariantViolation.
Proof. reflexivity. Qed.

(** * Further properties *)

(** ** The store, continued *)

Section StoreMore.
Context {FunctionRest LinkedRest : Type}.
Variable crc32 : list byte → Z.
Variable init_linked_data : LinkedObjectFile FunctionRest LinkedRest.
Variable init_reference_count : Z.

Abbreviation Entry := (ObjectFileData FunctionRest LinkedRest).
Abbreviation Store := (ObjectFileDB FunctionRest LinkedRest).
Abbreviation add :=
  (add_obj_from_dgo crc32 init_linked_data init_reference_count).
Abbreviation add_seq :=
  (add_all crc32 init_linked_data init_reference_count).
Abbreviation scan db obj_name obj_data :=
  (find_duplicate (subscript (obj_files_by_name db) obj_name)
     (length obj_data) (crc32 obj_data)).

Implicit Types (es : list Entry) (e : Entry) (db : Store).

(** Where the entries of the store after an insertion come from: an entry
    that was there, as it was or with its reference count raised, or the new
    entry at the end of the vector of the inserted name. *)
Lemma add_entry_inv obj_name obj_data dgo db n i e' :
  stored_at (add obj_name obj_data dgo db) n i e' →
  (∃ e, stored_at db n i e
        ∧ data e' = data e ∧ record e' = record e
        ∧ (e' = e
           ∨ n = obj_name ∧ e' = bump e
             ∧ same_content e (length obj_data) (crc32 obj_data) = true))
  ∨ (n = obj_name
     ∧ i = length (subscript (obj_files_by_name db) obj_name)
     ∧ scan db obj_name obj_data = None
     ∧ e' = mkData obj_data init_linked_data
              (mkRecord obj_name (Z.of_nat i) (crc32 obj_data))
              init_reference_count).
Proof.
  unfold stored_at. destruct (decide (n = obj_name)) as [->|Hne].
  - destruct (scan db obj_name obj_data) as [[es' r]|] eqn:Hscan.
    + rewrite (add_duplicate _ _ _ _ _ _ _ _ _ Hscan). simpl.
      rewrite subscript_insert_eq.
      apply find_duplicate_Some in Hscan
        as (i0 & e0 & Hi0 & Hsame & _ & -> & _).
      destruct (decide (i0 = i)) as [->|Hii].
      * rewrite list_lookup_insert_eq by (by eapply lookup_lt_Some).
        intros [= <-]. left. exists e0. repeat split; [done|]. by right.
      * rewrite list_lookup_insert_ne by done. intros Hi. left.
        exists e'. repeat split; [done|]. by left.
    + rewrite (add_new_variant _ _ _ _ _ _ _ Hscan). simpl.
      rewrite subscript_push_back_eq.
      intros Hlook. apply lookup_app_Some in Hlook as [Hold|[Hle Hnew]].
      * left. exists e'. repeat split; [done|]. by left.
      * apply list_lookup_singleton_Some in Hnew as [Hi <-]. right.
        assert (i = length (subscript (obj_files_by_name db) obj_name))
          as -> by lia.
        done.
  - unfold subscript. rewrite add_other_name by done. intros Hi. left.
    exists e'. repeat split; [done|]. by left.
Qed.

(** *** No two variants of a name share size and hash *)

Lemma same_content_true e n h :
  same_content e n h = true ↔ length (data e) = n ∧ hash (record e) = h.
Proof.
  unfold same_content. rewrite andb_true_iff, Nat.eqb_eq, Z.eqb_eq. done.
Qed.

Lemma store_distinct_empty : store_distinct crc32 (empty_db : Store).
Proof.
  split; intros n i; unfold stored_at; simpl;
    rewrite subscript_empty, lookup_nil; done.
Qed.

Lemma store_distinct_add obj_name obj_data dgo db :
  store_distinct crc32 db → store_distinct crc32 (add obj_name obj_data dgo db).
Proof.
  intros [Hhash Hdist]. split.
  - intros n i e' [(e & He & Hd & Hr & _)|(_ & _ & _ & ->)]%add_entry_inv.
    + rewrite Hd, Hr. by eapply Hhash.
    + done.
  - intros n i j ei ej Hi Hj Hlen Hh.
    apply add_entry_inv in Hi as [(ei0 & Hi & Hdi & Hri & _)|(-> & -> & Hscan & ->)];
      apply add_entry_inv in Hj
        as [(ej0 & Hj & Hdj & Hrj & _)|(Hn & -> & Hscan' & ->)].
    + apply (Hdist n i j ei0 ej0); congruence.
    + subst n. exfalso. apply find_duplicate_None in Hscan'.
      rewrite Forall_forall in Hscan'.
      assert (Hfalse : same_content ei0 (length obj_data) (crc32 obj_data)
                       = false).
      { apply Hscan', list_elem_of_lookup. by exists i. }
      simpl in Hlen, Hh.
      assert (same_content ei0 (length obj_data) (crc32 obj_data) = true);
        [|congruence].
      apply same_content_true. split; congruence.
    + exfalso. apply find_duplicate_None in Hscan.
      rewrite Forall_forall in Hscan.
      assert (Hfalse : same_content ej0 (length obj_data) (crc32 obj_data)
                       = false).
      { apply Hscan, list_elem_of_lookup. by exists j. }
      simpl in Hlen, Hh.
      assert (same_content ej0 (length obj_data) (crc32 obj_data) = true);
        [|congruence].
      apply same_content_true. split; congruence.
    + done.
Qed.

(** X1.  In a store built by insertions the hash kept in the record of every
    entry is the fingerprint of its bytes, and two different variants of a
    name never agree in both the size of their bytes and their hash: what the
    scan of [add_obj_from_dgo] takes for a duplicate is stored once. *)
Theorem stored_variants_distinct ops :
  let db := add_seq ops empty_db in
  (∀ n i e, stored_at db n i e → hash (record e) = crc32 (data e))
  ∧ (∀ n i j ei ej,
       stored_at db n i ei → stored_at db n j ej → i ≠ j →
       ¬ (length (data ei) = length (data ej)
          ∧ crc32 (data ei) = crc32 (data ej))).
Proof.
  intros db.
  assert (Hinv : store_distinct crc32 db).
  { unfold db. apply (add_seq_preserves crc32 init_linked_data
                        init_reference_count (store_distinct crc32)).
    - intros. by apply store_distinct_add.
    - apply store_distinct_empty. }
  destruct Hinv as [Hhash Hdist]. split; [done|].
  intros n i j ei ej Hi Hj Hij [Hlen Hcrc]. apply Hij.
  apply (Hdist n i j ei ej); try done.
  by rewrite (Hhash _ _ _ Hi), (Hhash _ _ _ Hj).
Qed.

(** *** Reference counts *)

Lemma list_total_insert_at {A} (f : A → Z) (l : list A) i x y :
  l !! i = Some x →
  list_total f (<[i := y]> l) = list_total f l - f x + f y.
Proof.
  revert i. induction l as [|z l IH]; intros [|i] Hi; simpl in *; try done.
  - injection Hi as ->. lia.
  - rewrite (IH _ Hi). lia.
Qed.

Lemma add_total_references obj_name obj_data dgo db :
  total_references (add obj_name obj_data dgo db)
  = total_references db
    + match scan db obj_name obj_data with
      | Some _ => 1
      | None => init_reference_count
      end.
Proof.
  unfold total_references.
  destruct (scan db obj_name obj_data) as [[es' r]|] eqn:Hscan.
  - rewrite (add_duplicate _ _ _ _ _ _ _ _ _ Hscan). simpl.
    apply find_duplicate_Some in Hscan as (i & e & Hi & _ & _ & -> & _).
    rewrite map_total_insert, (list_total_insert_at _ _ _ _ _ Hi). simpl. lia.
  - rewrite (add_new_variant _ _ _ _ _ _ _ Hscan). simpl.
    by rewrite map_total_push_back.
Qed.

(** X2.  After any sequence of insertions the reference counts of the stored
    entries add up to the number of duplicate insertions (all insertions
    less the distinct ones) plus the initial count of each distinct entry. *)
Theorem reference_counts_add_up ops :
  let db := add_seq ops empty_db in
  total_references db
  = total_obj_files (stats db) - unique_obj_files (stats db)
    + init_reference_count * unique_obj_files (stats db).
Proof.
  induction ops as [|op ops IH] using rev_ind.
  - unfold total_references. simpl. rewrite map_total_empty. lia.
  - cbv zeta in *. rewrite add_seq_snoc, add_total_references, IH.
    pose proof (add_stats crc32 init_linked_data init_reference_count
                  op.1.1 op.1.2 op.2 (add_seq ops empty_db))
      as (Ht & _ & Hu).
    destruct (scan _ _ _); destruct Hu as [Hu _]; rewrite Ht, Hu; lia.
Qed.

(** *** Membership records point at stored entries *)

Lemma members_resolve_add obj_name obj_data dgo db :
  versions_indexed db → members_resolve db →
  members_resolve (add obj_name obj_data dgo db).
Proof.
  intros Hver Hres a r Hr.
  assert (Hkeep : ∀ r0, (0 ≤ version r0
             ∧ ∃ e, stored_at db (name r0) (Z.to_nat (version r0)) e
                    ∧ record e = r0) →
            0 ≤ version r0
            ∧ ∃ e, stored_at (add obj_name obj_data dgo db) (name r0)
                     (Z.to_nat (version r0)) e ∧ record e = r0).
  { intros r0 (Hpos & e & He & Hrec). split; [done|].
    destruct (add_keeps_entry crc32 init_linked_data init_reference_count
                obj_name obj_data dgo db _ _ _ He) as (e' & He' & Hr' & _).
    exists e'. split; [done|congruence]. }
  destruct (scan db obj_name obj_data) as [[es' r1]|] eqn:Hscan.
  - rewrite (add_duplicate _ _ _ _ _ _ _ _ _ Hscan) in Hr. simpl in Hr.
    pose proof Hscan as (i & e & Hi & _ & _ & _ & ->)%find_duplicate_Some.
    destruct (decide (a = dgo)) as [->|Ha].
    + rewrite subscript_push_back_eq in Hr.
      apply elem_of_app in Hr as [Hr|Hr%list_elem_of_singleton];
        [by apply Hkeep, (Hres dgo)|].
      subst r. apply Hkeep. destruct (Hver _ _ _ Hi) as [Hn Hv].
      split; [lia|]. exists e. rewrite Hn, Hv, Nat2Z.id. done.
    + rewrite subscript_push_back_ne in Hr by done.
      by apply Hkeep, (Hres a).
  - pose proof (add_new_variant crc32 init_linked_data init_reference_count
                  obj_name obj_data dgo db Hscan) as Hdb.
    simpl in Hdb. rewrite Hdb in Hr. simpl in Hr.
    destruct (decide (a = dgo)) as [->|Ha].
    + rewrite subscript_push_back_eq in Hr.
      apply elem_of_app in Hr as [Hr|Hr%list_elem_of_singleton];
        [by apply Hkeep, (Hres dgo)|].
      subst r. simpl. split; [lia|]. rewrite Nat2Z.id.
      exists (mkData obj_data init_linked_data
                (mkRecord obj_name
                   (Z.of_nat
                      (length (subscript (obj_files_by_name db) obj_name)))
                   (crc32 obj_data))
                init_reference_count).
      split; [|done]. unfold stored_at.
      rewrite Hdb. simpl. rewrite subscript_push_back_eq.
      by apply list_lookup_middle.
    + rewrite subscript_push_back_ne in Hr by done.
      by apply Hkeep, (Hres a).
Qed.

(** X3.  After any sequence of insertions every record of every membership
    list is the record of a stored entry, found under the record's name at
    the position of the record's version. *)
Theorem membership_records_resolve ops :
  let db := add_seq ops empty_db in
  ∀ a r, r ∈ subscript (obj_files_by_dgo db) a →
         0 ≤ version r
         ∧ ∃ e, stored_at db (name r) (Z.to_nat (version r)) e
                ∧ record e = r.
Proof.
  cut (versions_indexed (add_seq ops empty_db)
       ∧ members_resolve (add_seq ops empty_db)); [by intros [_ ?]|].
  induction ops as [|op ops [Hver Hres]] using rev_ind.
  - split; [apply versions_indexed_empty|].
    intros a r. simpl. rewrite subscript_empty. by intros ?%elem_of_nil.
  - rewrite add_seq_snoc. split.
    + by apply versions_indexed_add.
    + by apply members_resolve_add.
Qed.

(** *** Content that is in the store is not stored again *)

Lemma scan_finds db obj_name obj_data i e :
  stored_at db obj_name i e →
  length (data e) = length obj_data → hash (record e) = crc32 obj_data →
  is_Some (scan db obj_name obj_data).
Proof.
  intros Hi Hlen Hh.
  destruct (scan db obj_name obj_data) as [p|] eqn:Hscan; [by eexists|].
  apply find_duplicate_None in Hscan. rewrite Forall_forall in Hscan.
  assert (same_content e (length obj_data) (crc32 obj_data) = false)
    as Hfalse by (apply Hscan, list_elem_of_lookup; by exists i).
  assert (same_content e (length obj_data) (crc32 obj_data) = true)
    by (by apply same_content_true).
  congruence.
Qed.

(** After an insertion some variant of the name has the size and hash of the
    inserted bytes. *)
Lemma add_leaves_match obj_name obj_data dgo db :
  ∃ i e, stored_at (add obj_name obj_data dgo db) obj_name i e
         ∧ length (data e) = length obj_data
         ∧ hash (record e) = crc32 obj_data.
Proof.
  unfold stored_at.
  destruct (scan db obj_name obj_data) as [[es' r]|] eqn:Hscan.
  - rewrite (add_duplicate _ _ _ _ _ _ _ _ _ Hscan). simpl.
    rewrite subscript_insert_eq.
    apply find_duplicate_Some in Hscan as (i & e & Hi & Hsame & _ & -> & _).
    apply same_content_true in Hsame as [Hlen Hh].
    exists i, (bump e). split; [|done].
    apply list_lookup_insert_eq. by eapply lookup_lt_Some.
  - rewrite (add_new_variant _ _ _ _ _ _ _ Hscan). simpl.
    rewrite subscript_push_back_eq.
    eexists _, _. split; [by apply list_lookup_middle|done].
Qed.

Lemma variant_records_duplicate obj_name obj_data dgo db n :
  is_Some (scan db obj_name obj_data) →
  variant_records (add obj_name obj_data dgo db) n = variant_records db n.
Proof.
  intros [[es' r] Hscan]. unfold variant_records.
  destruct (decide (n = obj_name)) as [->|Hne].
  - rewrite (add_duplicate _ _ _ _ _ _ _ _ _ Hscan). simpl.
    rewrite subscript_insert_eq.
    apply find_duplicate_Some in Hscan as (i & e & Hi & _ & _ & -> & _).
    rewrite list_fmap_insert. apply list_insert_id.
    by rewrite list_lookup_fmap, Hi.
  - unfold subscript. by rewrite add_other_name.
Qed.

(** X4.  Bytes that were inserted under a name are known from then on:
    whatever is inserted in between, inserting them again under that name, from
    any archive, takes the duplicate path.  No entry and no version is added,
    the order and the counters of distinct content stay, and one reference is
    counted. *)
Theorem known_content_is_not_stored_again db0 obj_name obj_data dgo0 ops dgo :
  let db := add_seq ops (add obj_name obj_data dgo0 db0) in
  let db' := add obj_name obj_data dgo db in
  stored_entries db' = stored_entries db
  ∧ stored_bytes db' = stored_bytes db
  ∧ (∀ n, variant_records db' n = variant_records db n)
  ∧ obj_file_order db' = obj_file_order db
  ∧ unique_obj_files (stats db') = unique_obj_files (stats db)
  ∧ unique_obj_bytes (stats db') = unique_obj_bytes (stats db)
  ∧ total_references db' = total_references db + 1.
Proof.
  intros db db'.
  assert (Hknown : is_Some (scan db obj_name obj_data)).
  { destruct (add_leaves_match obj_name obj_data dgo0 db0)
      as (i & e & Hi & Hlen & Hh).
    destruct (add_seq_keeps_entry crc32 init_linked_data init_reference_count
                ops _ _ _ _ Hi) as (e' & Hi' & Hr & Hd & _).
    apply (scan_finds db obj_name obj_data i e' Hi'); congruence. }
  pose proof (add_stored crc32 init_linked_data init_reference_count
                obj_name obj_data dgo db) as Hstored.
  pose proof (add_stats crc32 init_linked_data init_reference_count
                obj_name obj_data dgo db) as (_ & _ & Hstats).
  pose proof (add_order crc32 init_linked_data init_reference_count
                obj_name obj_data dgo db) as Horder.
  pose proof (add_total_references obj_name obj_data dgo db) as Hrefs.
  fold db' in Hstored, Hstats, Horder, Hrefs.
  assert (Hnonempty : subscript (obj_files_by_name db) obj_name ≠ []).
  { intros Hnil. destruct Hknown as [p Hp]. by rewrite Hnil in Hp. }
  rewrite decide_False in Horder by done.
  pose proof (λ n, variant_records_duplicate obj_name obj_data dgo db n Hknown)
    as Hrecords.
  destruct Hknown as [p Hp]. rewrite Hp in Hstored, Hstats, Hrefs.
  naive_solver.
Qed.

(** *** The store only grows *)

Lemma add_grows obj_name obj_data dgo db :
  let db' := add obj_name obj_data dgo db in
  obj_file_order db `prefix_of` obj_file_order db'
  ∧ (∀ a, subscript (obj_files_by_dgo db) a
          `prefix_of` subscript (obj_files_by_dgo db') a)
  ∧ (∀ n, variant_records db n `prefix_of` variant_records db' n).
Proof.
  intros db'. split; [|split].
  - unfold db'. rewrite add_order. case_decide; [by apply prefix_app_r|done].
  - intros a. unfold db'.
    destruct (add_membership crc32 init_linked_data init_reference_count
                obj_name obj_data dgo db) as [r ->].
    destruct (decide (a = dgo)) as [->|Ha].
    + rewrite subscript_push_back_eq. by apply prefix_app_r.
    + by rewrite subscript_push_back_ne.
  - intros n. unfold db'.
    destruct (scan db obj_name obj_data) as [p|] eqn:Hscan.
    + by rewrite variant_records_duplicate.
    + unfold variant_records.
      rewrite (add_new_variant _ _ _ _ _ _ _ Hscan). simpl.
      destruct (decide (n = obj_name)) as [->|Hne].
      * rewrite subscript_push_back_eq, fmap_app. by apply prefix_app_r.
      * by rewrite subscript_push_back_ne.
Qed.

(** X5.  Insertions only append: the order, every membership list and the
    list of records of every name after a sequence of insertions have the
    ones before as a prefix, and every stored entry is still at its place
    with its bytes. *)
Theorem store_only_grows ops db :
  let db' := add_seq ops db in
  obj_file_order db `prefix_of` obj_file_order db'
  ∧ (∀ a, subscript (obj_files_by_dgo db) a
          `prefix_of` subscript (obj_files_by_dgo db') a)
  ∧ (∀ n, variant_records db n `prefix_of` variant_records db' n)
  ∧ (∀ n i e, stored_at db n i e →
       ∃ e', stored_at db' n i e' ∧ data e' = data e
             ∧ record e' = record e).
Proof.
  cbv zeta. split; [|split; [|split]].
  - revert db. induction ops as [|op ops IH]; intros db; [done|].
    rewrite add_seq_cons. etrans; [|apply IH]. apply add_grows.
  - revert db. induction ops as [|op ops IH]; intros db a; [done|].
    rewrite add_seq_cons. etrans; [|apply IH]. apply add_grows.
  - revert db. induction ops as [|op ops IH]; intros db n; [done|].
    rewrite add_seq_cons. etrans; [|apply IH]. apply add_grows.
  - intros n i e Hi.
    destruct (add_seq_keeps_entry crc32 init_linked_data init_reference_count
                ops db n i e Hi) as (e' & He' & Hr & Hd & _).
    by exists e'.
Qed.

(** *** Unique names *)

Lemma string_app_cons a s t : String a s +:+ t = String a (s +:+ t).
Proof. done. Qed.

Lemma string_app_nil t : "" +:+ t = t.
Proof. done. Qed.

Lemma string_app_assoc s t u : (s +:+ t) +:+ u = s +:+ (t +:+ u).
Proof.
  induction s as [|a s IH]; [done|]. by rewrite !string_app_cons, IH.
Qed.

Lemma occurs_in_app_cons c s t : occurs_in c (s +:+ String c t).
Proof.
  induction s as [|a s IH]; [by left|]. rewrite string_app_cons. by right.
Qed.

(** A string is cut in one way only at its last [c]. *)
Lemma cut_at_last c s1 s2 t1 t2 :
  ¬ occurs_in c t1 → ¬ occurs_in c t2 →
  s1 +:+ String c t1 = s2 +:+ String c t2 → s1 = s2 ∧ t1 = t2.
Proof.
  intros Ht1 Ht2. revert s2.
  induction s1 as [|a s1 IH]; intros [|b s2] Heq;
    rewrite ?string_app_cons, ?string_app_nil in Heq.
  - by injection Heq as ->.
  - injection Heq as -> ->. destruct Ht1. apply occurs_in_app_cons.
  - injection Heq as -> <-. destruct Ht2. apply occurs_in_app_cons.
  - injection Heq as -> Heq. by destruct (IH _ Heq) as [-> ->].
Qed.

Lemma pretty_N_go_digits x s :
  ¬ occurs_in "v"%char s → ¬ occurs_in "v"%char (pretty_N_go x s).
Proof.
  revert s. induction (N.lt_wf_0 x) as [x _ IH]; intros s Hs.
  assert (x = 0 ∨ 0 < x)%N as [->|Hx] by lia.
  - by rewrite pretty_N_go_0.
  - rewrite pretty_N_go_step by done. apply IH.
    { by apply N.div_lt. }
    simpl. intros [Hchar|Hin]; [|done].
    unfold pretty_N_char in Hchar. by repeat case_match.
Qed.

Lemma pretty_Z_digits (z : Z) : ¬ occurs_in "v"%char (pretty z).
Proof.
  assert (HN : ∀ x : N, ¬ occurs_in "v"%char (pretty x)).
  { intros x. unfold pretty, pretty_N. case_decide.
    - simpl. intros [?|[]]. done.
    - apply pretty_N_go_digits. simpl. tauto. }
  destruct z as [|p|p]; unfold pretty, pretty_Z.
  - simpl. intros [?|[]]. done.
  - apply HN.
  - change ("-" +:+ pretty p) with (String "-"%char (pretty p)). simpl.
    intros [?|Hin]; [done|]. by apply (HN (Npos p)).
Qed.

Lemma to_unique_name_cut r :
  to_unique_name r
  = (name r +:+ "-") +:+ String "v"%char (pretty (version r)).
Proof. unfold to_unique_name. by rewrite string_app_assoc. Qed.

Lemma string_snoc_inj c s1 s2 :
  s1 +:+ String c "" = s2 +:+ String c "" → s1 = s2.
Proof.
  revert s2. induction s1 as [|a s1 IH]; intros [|b s2] Heq;
    rewrite ?string_app_cons, ?string_app_nil in Heq.
  - done.
  - injection Heq as _ Heq. by destruct s2.
  - injection Heq as _ Heq. by destruct s1.
  - injection Heq as -> Heq. by rewrite (IH _ Heq).
Qed.

(** X6.  The unique name tells the name and the version apart: records with
    the same unique name have the same name and the same version, whatever
    the name looks like.  So in a store built by insertions no two entries,
    of one name or of two, have the same unique name. *)
Theorem unique_names_are_unique ops :
  (∀ r1 r2 : ObjectFileRecord,
     to_unique_name r1 = to_unique_name r2 →
     name r1 = name r2 ∧ version r1 = version r2)
  ∧ (let db := add_seq ops empty_db in
     ∀ n1 i1 e1 n2 i2 e2,
       stored_at db n1 i1 e1 → stored_at db n2 i2 e2 →
       to_unique_name (record e1) = to_unique_name (record e2) →
       n1 = n2 ∧ i1 = i2).
Proof.
  assert (Hinj : ∀ r1 r2 : ObjectFileRecord,
            to_unique_name r1 = to_unique_name r2 →
            name r1 = name r2 ∧ version r1 = version r2).
  { intros r1 r2. rewrite !to_unique_name_cut.
    intros [Hname Hver]%cut_at_last; try apply pretty_Z_digits.
    split; [by apply string_snoc_inj in Hname|by apply (inj pretty)]. }
  split; [done|].
  intros db n1 i1 e1 n2 i2 e2 H1 H2 [Hname Hver]%Hinj.
  assert (Hver' : versions_indexed db).
  { apply versions_indexed_add_seq, versions_indexed_empty. }
  destruct (Hver' _ _ _ H1) as [Hn1 Hv1], (Hver' _ _ _ H2) as [Hn2 Hv2].
  split; [congruence|lia].
Qed.

End StoreMore.

(** ** The container, continued *)

Section FieldsAndWords.
Import BinaryReader.
Implicit Types (field str nm bs : list byte) (r : BinaryReader.t).

(** *** Words *)

Lemma byte_of_Z_to_N b : byte_of_Z (Z.of_N (Byte.to_N b)) = b.
Proof.
  unfold byte_of_Z. pose proof (Byte.to_N_bounded b) as Hb.
  rewrite Z.mod_small by lia. rewrite N2Z.id, Byte.of_to_N. done.
Qed.

Lemma le32_range bs : length bs = 4%nat → 0 ≤ le32 bs < 2 ^ 32.
Proof.
  destruct bs as [|b0 [|b1 [|b2 [|b3 [|]]]]]; try done. intros _.
  unfold le32. simpl.
  pose proof (Byte.to_N_bounded b0). pose proof (Byte.to_N_bounded b1).
  pose proof (Byte.to_N_bounded b2). pose proof (Byte.to_N_bounded b3).
  lia.
Qed.

(** Four bytes are the bytes of the word they spell. *)
Lemma u32_bytes_le32 bs : length bs = 4%nat → u32_bytes (le32 bs) = bs.
Proof.
  destruct bs as [|b0 [|b1 [|b2 [|b3 [|]]]]]; try done. intros _.
  unfold le32, u32_bytes. simpl.
  pose proof (Byte.to_N_bounded b0). pose proof (Byte.to_N_bounded b1).
  pose proof (Byte.to_N_bounded b2). pose proof (Byte.to_N_bounded b3).
  set (n0 := Z.of_N (Byte.to_N b0)) in *.
  set (n1 := Z.of_N (Byte.to_N b1)) in *.
  set (n2 := Z.of_N (Byte.to_N b2)) in *.
  set (n3 := Z.of_N (Byte.to_N b3)) in *.
  assert (E0 : byte_of_Z (n0 + 256 * (n1 + 256 * (n2 + 256 * (n3 + 256 * 0))))
               = b0).
  { rewrite <- (byte_of_Z_to_N b0). fold n0. unfold byte_of_Z.
    do 3 f_equal. lia. }
  assert (E1 : byte_of_Z ((n0 + 256 * (n1 + 256 * (n2 + 256 * (n3 + 256 * 0))))
                          / 256) = b1).
  { rewrite <- (byte_of_Z_to_N b1). fold n1. unfold byte_of_Z.
    do 3 f_equal. lia. }
  assert (E2 : byte_of_Z ((n0 + 256 * (n1 + 256 * (n2 + 256 * (n3 + 256 * 0))))
                          / 65536) = b2).
  { rewrite <- (byte_of_Z_to_N b2). fold n2. unfold byte_of_Z.
    do 3 f_equal. lia. }
  assert (E3 : byte_of_Z ((n0 + 256 * (n1 + 256 * (n2 + 256 * (n3 + 256 * 0))))
                          / 16777216) = b3).
  { rewrite <- (byte_of_Z_to_N b3). fold n3. unfold byte_of_Z.
    do 3 f_equal. lia. }
  by rewrite E0, E1, E2, E3.
Qed.

(** What a successful read of a header has read. *)
Lemma header_read_inv r h r' :
  DgoHeader.read r = Ok (h, r') →
  here r = u32_bytes (DgoHeader.size h) ++ DgoHeader.name h ++ here r'
  ∧ length (DgoHeader.name h) = 60%nat
  ∧ 0 ≤ DgoHeader.size h < 2 ^ 32
  ∧ r' = mk (buffer r) (seek r + 64).
Proof.
  unfold DgoHeader.read.
  destruct (read_bytes 64 r) as [[bs r1]|e] eqn:Hread; [|done].
  unfold mbind, result_bind. cbv beta iota. intros [= <- <-].
  apply read_bytes_inv in Hread as (Hleft & Hlen & -> & ->).
  cbn [DgoHeader.size DgoHeader.name].
  assert (H4 : length (take 4 (take 64 (here r))) = 4%nat).
  { rewrite length_take. lia. }
  rewrite u32_bytes_le32 by done.
  split; [|split; [|split]].
  - rewrite here_advance, app_assoc, take_drop. by rewrite take_drop.
  - rewrite length_drop. lia.
  - by apply le32_range.
  - done.
Qed.

(** *** Name fields *)

Lemma strlen_Some str n :
  strlen str = Some n →
  Forall (λ b, b ≠ x00) (take n str) ∧ str !! n = Some x00.
Proof.
  revert n. induction str as [|b str IH]; intros n; simpl; [done|].
  case_decide as Hb.
  - intros [= <-]. subst b. split; [constructor|done].
  - destruct (strlen str) as [k|]; [|done]. simpl. intros [= <-].
    destruct (IH k eq_refl) as [Hall Hk]. split; [|done].
    simpl. by constructor.
Qed.

Lemma forallb_null bs :
  forallb (λ b, bool_decide (b = x00)) bs = true →
  bs = replicate (length bs) x00.
Proof.
  induction bs as [|b bs IH]; simpl; [done|].
  intros [Hb Hbs]%andb_true_iff. apply bool_decide_eq_true in Hb as ->.
  by rewrite <- IH.
Qed.

(** A 60-byte field that passes the check is the field of a name. *)
Lemma assert_string_empty_after_inv field :
  length field = 60%nat →
  assert_string_empty_after field 60 = Ok () →
  ∃ nm, name_ok nm ∧ field = name_field nm.
Proof.
  intros Hlen. unfold assert_string_empty_after.
  destruct (strlen field) as [n|] eqn:Hstrlen; [|done].
  rewrite firstn_all2 by lia.
  destruct (forallb _ _) eqn:Hnull; [|done]. intros _.
  apply forallb_null in Hnull. rewrite length_drop, Hlen in Hnull.
  destruct (strlen_Some _ _ Hstrlen) as [Hnm Hn].
  apply lookup_lt_Some in Hn. exists (take n field).
  split; [split; [done|rewrite length_take; lia]|].
  unfold name_field. rewrite length_take, Nat.min_l by lia.
  by rewrite <- Hnull, take_drop.
Qed.


End FieldsAndWords.

Section ContainerMore.
Import BinaryReader.
Context {FunctionRest LinkedRest : Type}.
Variable crc32 : list byte → Z.
Variable init_linked_data : LinkedObjectFile FunctionRest LinkedRest.
Variable init_reference_count : Z.
Variable lzo1x_decompress : list byte → list byte * bool.

Abbreviation Db := (ObjectFileDB FunctionRest LinkedRest).
Abbreviation insert_all :=
  (add_all crc32 init_linked_data init_reference_count).
Abbreviation walk :=
  (read_objs crc32 init_linked_data init_reference_count).
Abbreviation ingest :=
  (get_objs_from_dgo crc32 init_linked_data init_reference_count
     lzo1x_decompress).

Implicit Types (r : BinaryReader.t) (db : Db) (field rest : list byte).

(** What the loop has read when it comes to its end: well-formed objects,
    as many as it was asked for, and it has inserted them in order. *)
Lemma read_objs_inv n :
  ∀ base r db r' db',
  walk n base r db = Ok (r', db') →
  ∃ objs, length objs = n ∧ Forall obj_ok objs
          ∧ here r = encode_objs objs ++ here r'
          ∧ db' = insert_all (obj_insertions base objs) db.
Proof.
  induction n as [|n IH]; intros base r db r' db'.
  - simpl. intros [= <- <-]. by exists [].
  - cbn [read_objs].
    destruct (DgoHeader.read r) as [[h r1]|e] eqn:Hread; [|done].
    unfold mbind, result_bind at 1. cbv beta iota.
    apply header_read_inv in Hread as (Hhere & Hlen & Hsize & Hr1).
    case_decide as Hleft; [done|].
    destruct (assert_string_empty_after (DgoHeader.name h) 60)
      as [[]|e] eqn:Hcheck; [|done].
    unfold mbind, result_bind at 1.
    apply assert_string_empty_after_inv in Hcheck as (nm & Hnm & Hfield);
      [|done].
    rewrite Hfield at 1. rewrite c_string_name_field by done.
    unfold mbind, result_bind at 1.
    destruct (ffwd (Z.to_nat (DgoHeader.size h)) r1) as [r2|e] eqn:Hffwd;
      [|done].
    unfold mbind, result_bind at 1.
    apply ffwd_inv in Hffwd as [Hfits ->].
    intros Hwalk. apply IH in Hwalk as (objs & Hobjs & Hok & Hhere2 & ->).
    set (bytes := take (Z.to_nat (DgoHeader.size h)) (here r1)) in *.
    assert (Hbytes : length bytes = Z.to_nat (DgoHeader.size h)).
    { unfold bytes. rewrite length_take, <- bytes_left_here. lia. }
    exists ((nm, bytes) :: objs). split; [by rewrite <- Hobjs|].
    split; [|split].
    + constructor; [|done]. split; [done|]. cbn [snd]. lia.
    + change (encode_objs ((nm, bytes) :: objs))
        with (encode_obj (nm, bytes) ++ encode_objs objs).
      unfold encode_obj. cbn [fst snd]. rewrite Hbytes, Z2Nat.id by lia.
      rewrite Hhere, Hfield, <- !app_assoc. do 2 f_equal.
      rewrite here_advance in Hhere2. rewrite <- Hhere2.
      unfold bytes. by rewrite take_drop.
    + done.
Qed.

(** A successful parse, read backwards. *)
Lemma get_objs_from_dgo_inv base file db db' :
  ingest base file db = Ok db' →
  ∃ dgo_data nm objs,
    (if is_jak2 file then decompress lzo1x_decompress file else Ok file)
    = Ok dgo_data
    ∧ name_ok nm ∧ String.string_of_list_byte nm = base
    ∧ Forall obj_ok objs ∧ Z.of_nat (length objs) < 2 ^ 32
    ∧ dgo_data = dgo_file nm objs
    ∧ db' = insert_all (obj_insertions base objs)
              (count_dgo_bytes (length file) db).
Proof.
  unfold get_objs_from_dgo.
  destruct (if is_jak2 file then decompress lzo1x_decompress file
            else Ok file) as [dgo_data|e] eqn:Hexpand; [|done].
  unfold mbind, result_bind at 1.
  destruct (DgoHeader.read (mk dgo_data 0)) as [[h r1]|e] eqn:Hread;
    [|done].
  unfold mbind, result_bind at 1. cbv beta iota.
  apply header_read_inv in Hread as (Hhere & Hlen & Hsize & ->).
  destruct (c_string (DgoHeader.name h)) as [s|e] eqn:Hname; [|done].
  unfold mbind, result_bind at 1. case_decide as Hbase; [|done].
  destruct (assert_string_empty_after (DgoHeader.name h) 60)
    as [[]|e] eqn:Hcheck; [|done].
  unfold mbind, result_bind at 1.
  apply assert_string_empty_after_inv in Hcheck as (nm & Hnm & Hfield);
    [|done].
  rewrite Hfield, c_string_name_field in Hname by done.
  injection Hname as Hname.
  destruct (walk _ _ _ _) as [[r2 db2]|e] eqn:Hwalk; [|done].
  unfold mbind, result_bind. cbv beta iota.
  case_decide as Hend; [|done]. intros [= <-].
  apply read_objs_inv in Hwalk as (objs & Hobjs & Hok & Hhere2 & ->).
  exists dgo_data, nm, objs.
  split; [done|]. split; [done|]. split; [congruence|].
  split; [done|]. split; [lia|]. split; [|done].
  apply bytes_left_nil in Hend. rewrite Hend, app_nil_r in Hhere2.
  unfold dgo_file. change (here (mk dgo_data 0)) with dgo_data in Hhere.
  rewrite Hhere, Hfield, Hhere2, Hobjs, Z2Nat.id by lia. done.
Qed.

(** The parse of a file that expands to a well-formed archive. *)
Lemma get_objs_from_dgo_archive base file db nm objs :
  (if is_jak2 file then decompress lzo1x_decompress file else Ok file)
  = Ok (dgo_file nm objs) →
  name_ok nm → String.string_of_list_byte nm = base →
  Forall obj_ok objs → Z.of_nat (length objs) < 2 ^ 32 →
  ingest base file db
  = Ok (insert_all (obj_insertions base objs)
          (count_dgo_bytes (length file) db)).
Proof.
  intros Hexpand Hnm Hbase Hok Hcount.
  unfold get_objs_from_dgo. rewrite Hexpand.
  unfold mbind, result_bind at 1.
  assert (Hfield : length (name_field nm) = 60%nat)
    by (apply length_name_field; destruct Hnm; lia).
  destruct (header_read_here (mk (dgo_file nm objs) 0)
              (Z.of_nat (length objs)) (name_field nm) (encode_objs objs))
    as [-> Hhere]; [lia|done|done|].
  unfold mbind, result_bind at 1. cbv beta iota.
  cbn [DgoHeader.name DgoHeader.size].
  rewrite c_string_name_field by done.
  unfold mbind, result_bind at 1. rewrite decide_True by done.
  rewrite assert_string_empty_after_name_field by done.
  unfold mbind, result_bind at 1. rewrite Nat2Z.id.
  rewrite <- (Nat.add_0_r (length objs)) at 1.
  cbn [buffer seek] in *. change (0 + 64)%nat with 64%nat in *.
  destruct (read_objs_run crc32 init_linked_data init_reference_count
              lzo1x_decompress objs O base (mk (dgo_file nm objs) 64)
              (@nil byte) (count_dgo_bytes (length file) db) Hok)
    as [Hhere1 ->]; [by rewrite app_nil_r|].
  cbn [read_objs]. unfold mbind, result_bind. cbv beta iota.
  rewrite decide_True; [done|].
  by rewrite bytes_left_nil, Hhere1.
Qed.


End ContainerMore.

(** ** The compression tag *)

Lemma is_jak2_take4 file : is_jak2 file = true ↔ take 4 file = jak2_header.
Proof.
  unfold is_jak2, jak2_header. simpl.
  rewrite !andb_true_iff, !bool_decide_eq_true.
  destruct file as [|b0 [|b1 [|b2 [|b3 rest]]]]; simpl;
    try (split; [by intros (? & ? & ? & ? & _)|done]).
  rewrite take_0. split.
  - by intros ([= <-] & [= <-] & [= <-] & [= <-] & _).
  - by intros [= -> -> -> ->].
Qed.



(** ** Whole files *)

Section IngestMore.
Import BinaryReader.
Context {FunctionRest LinkedRest : Type}.
Variable crc32 : list byte → Z.
Variable init_linked_data : LinkedObjectFile FunctionRest LinkedRest.
Variable init_reference_count : Z.
Variable lzo1x_decompress : list byte → list byte * bool.

Abbreviation Db := (ObjectFileDB FunctionRest LinkedRest).
Abbreviation add := (add_obj_from_dgo crc32 init_linked_data
                       init_reference_count).
Abbreviation insert_all :=
  (add_all crc32 init_linked_data init_reference_count).
Abbreviation walk :=
  (read_objs crc32 init_linked_data init_reference_count).
Abbreviation ingest :=
  (get_objs_from_dgo crc32 init_linked_data init_reference_count
     lzo1x_decompress).
Abbreviation expand := (decompress lzo1x_decompress).

Implicit Types (r : BinaryReader.t) (db : Db) (field rest : list byte).

(** *** Counting the bytes of a file and inserting objects commute *)

Lemma add_count_dgo_bytes k obj_name obj_data dgo db :
  add obj_name obj_data dgo (count_dgo_bytes k db)
  = count_dgo_bytes k (add obj_name obj_data dgo db).
Proof.
  unfold add_obj_from_dgo, count_dgo_bytes. cbn [obj_files_by_name
    obj_files_by_dgo obj_file_order stats].
  destruct (find_duplicate _ _ _) as [[variants' rec]|]; done.
Qed.

Lemma insert_all_count_dgo_bytes k ops :
  ∀ db, insert_all ops (count_dgo_bytes k db)
        = count_dgo_bytes k (insert_all ops db).
Proof.
  induction ops as [|op ops IH]; intros db; [done|].
  unfold add_all in *. cbn [foldl]. by rewrite add_count_dgo_bytes, IH.
Qed.

Lemma insert_all_app ops1 ops2 db :
  insert_all (ops1 ++ ops2) db = insert_all ops2 (insert_all ops1 db).
Proof. unfold add_all. by rewrite foldl_app. Qed.

Lemma count_dgo_bytes_add k1 k2 db :
  count_dgo_bytes k2 (count_dgo_bytes k1 db) = count_dgo_bytes (k1 + k2) db.
Proof.
  unfold count_dgo_bytes. cbn [obj_files_by_name obj_files_by_dgo
    obj_file_order stats total_dgo_bytes total_obj_files unique_obj_files
    unique_obj_bytes].
  do 2 f_equal. lia.
Qed.

(** *** What the insertions of one archive do to the membership index *)

Lemma insert_all_one_archive base ops :
  ∀ db, Forall (λ op, op.2 = base) ops →
  let db' := insert_all ops db in
  (∃ new, subscript (obj_files_by_dgo db') base
          = subscript (obj_files_by_dgo db) base ++ new
          ∧ length new = length ops)
  ∧ (∀ a, a ≠ base → obj_files_by_dgo db' !! a = obj_files_by_dgo db !! a)
  ∧ total_obj_files (stats db')
    = total_obj_files (stats db) + Z.of_nat (length ops)
  ∧ total_dgo_bytes (stats db') = total_dgo_bytes (stats db).
Proof.
  induction ops as [|op ops IH]; intros db Hops db'.
  - subst db'. simpl. split; [|split; [done|lia]].
    exists []. by rewrite app_nil_r.
  - apply Forall_cons in Hops as [Hop Hops].
    subst db'. unfold add_all in *. cbn [foldl].
    specialize (IH (add op.1.1 op.1.2 op.2 db) Hops).
    cbv zeta in IH. destruct IH as ((new & Hnew & Hlen) & Hother & Ht & Hb).
    destruct (add_membership crc32 init_linked_data init_reference_count
                op.1.1 op.1.2 op.2 db) as [rec Hrec].
    pose proof (add_stats crc32 init_linked_data init_reference_count
                  op.1.1 op.1.2 op.2 db) as (Ht1 & Hb1 & _).
    rewrite Hop in *. split; [|split; [|split]].
    + exists (rec :: new). rewrite Hnew, Hrec. split; [|simpl; lia].
      unfold push_back at 1. unfold subscript at 1.
      rewrite lookup_insert_eq. simpl. by rewrite <- app_assoc.
    + intros a Ha. rewrite Hother, Hrec by done. unfold push_back.
      by rewrite lookup_insert_ne.
    + rewrite Ht, Ht1. cbn [length]. lia.
    + by rewrite Hb, Hb1.
Qed.

Lemma length_obj_insertions base objs :
  length (obj_insertions base objs) = length objs.
Proof. unfold obj_insertions. by rewrite length_fmap. Qed.

Lemma obj_insertions_archive base objs :
  Forall (λ op, op.2 = base) (obj_insertions base objs).
Proof. unfold obj_insertions. apply Forall_fmap, Forall_true. done. Qed.

(** X10.  When [get_objs_from_dgo] comes to its end, it has added the size
    of the file to [total_dgo_bytes], and one record per object of the file
    to the end of the membership list of the file's own name, which is also
    what it has added to [total_obj_files]; the membership list of every
    other archive is as it was. *)
Theorem ingest_effect base file db db' :
  ingest base file db = Ok db' →
  total_dgo_bytes (stats db')
  = total_dgo_bytes (stats db) + Z.of_nat (length file)
  ∧ (∃ new, subscript (obj_files_by_dgo db') base
            = subscript (obj_files_by_dgo db) base ++ new
            ∧ total_obj_files (stats db')
              = total_obj_files (stats db) + Z.of_nat (length new))
  ∧ (∀ a, a ≠ base → obj_files_by_dgo db' !! a = obj_files_by_dgo db !! a).
Proof.
  intros (dgo_data & nm & objs & _ & _ & _ & _ & _ & _ & ->)
    %get_objs_from_dgo_inv.
  destruct (insert_all_one_archive base (obj_insertions base objs)
              (count_dgo_bytes (length file) db)
              (obj_insertions_archive base objs))
    as ((new & Hnew & Hlen) & Hother & Ht & Hb).
  split; [by rewrite Hb|]. split; [|done].
  exists new. split; [done|]. rewrite Ht, Hlen. done.
Qed.

End IngestMore.

(** ** Decompression, continued *)

Section DecompressMore.
Import BinaryReader.
Variable lzo1x_decompress : list byte → list byte * bool.

Abbreviation chunk_step := (decompress_chunk lzo1x_decompress).
Abbreviation chunk_loop := (decompress_chunks lzo1x_decompress).
Abbreviation expand := (decompress lzo1x_decompress).

Implicit Types (r : BinaryReader.t) (out bytes : list byte).

(** *** The ways in which it fails *)

Lemma chunk_step_Err_kind chunk_size r out off e :
  chunk_step chunk_size r out off = Err e → decompression_failure e.
Proof.
  unfold decompress_chunk, decompression_failure.
  destruct (chunk_size <? Z.of_nat MAX_CHUNK_SIZE).
  - destruct (read_bytes (Z.to_nat chunk_size) r) as [[block r1]|e1]
      eqn:Hread.
    + unfold mbind, result_bind at 1. cbv beta iota.
      destruct (lzo1x_decompress block) as [written lzo_ok].
      destruct (write_at out off written) as [out1|e1] eqn:Hwrite.
      * simpl. destruct lzo_ok; [done|]. intros [= <-]. auto.
      * apply (write_at_Err lzo1x_decompress) in Hwrite as [-> _]. simpl. intros [= <-].
        right. right. by do 2 eexists.
    + apply read_bytes_Err in Hread as ->. simpl. intros [= <-]. auto.
  - destruct (read_bytes MAX_CHUNK_SIZE r) as [[block r1]|e1] eqn:Hread.
    + unfold mbind, result_bind at 1. cbv beta iota.
      destruct (write_at out off block) as [out1|e1] eqn:Hwrite; [done|].
      apply (write_at_Err lzo1x_decompress) in Hwrite as [-> _]. simpl. intros [= <-].
      right. right. by do 2 eexists.
    + apply read_bytes_Err in Hread as ->. simpl. intros [= <-]. auto.
Qed.

Lemma chunk_loop_Err_kind fuel :
  ∀ n r out off e,
  chunk_loop fuel n r out off = Err e →
  decompression_failure e ∨ e = OutOfFuel.
Proof.
  induction fuel as [|fuel IH]; intros n r out off e.
  - simpl. intros [= <-]. by right.
  - cbn [decompress_chunks].
    destruct (read_chunk_size (S (bytes_left r)) r) as [[w r1]|e1] eqn:Hsize.
    2: { simpl. intros [= <-].
         destruct (read_chunk_size_Err _ _ _ Hsize) as [-> | ->];
           [left; by left|by right]. }
    unfold mbind, result_bind at 1. cbv beta iota.
    destruct (chunk_step w r1 out off) as [[[r2 out'] off']|e1] eqn:Hstep.
    2: { simpl. intros [= <-]. left. by eapply chunk_step_Err_kind. }
    unfold mbind, result_bind at 1. cbv beta iota.
    case_decide; [done|].
    rewrite (skip_alignment_spec lzo1x_decompress) by apply alignment_bound.
    case_decide.
    + unfold mbind, result_bind at 1. apply IH.
    + simpl. intros [= <-]. left. by left.
Qed.

(** X11.  The decompression of a file comes to an end on every input, and
    when it fails it is in one of three ways: the input ends before a word
    or a block that is read from it, [lzo1x_decompress] does not return
    [LZO_E_OK], or a chunk is written past the end of the output. *)
Theorem decompression_failures dgo_data :
  (∃ out, expand dgo_data = Ok out)
  ∨ (∃ e, expand dgo_data = Err e ∧ decompression_failure e).
Proof.
  destruct (expand dgo_data) as [out|e] eqn:Hexpand; [left; by exists out|].
  right. exists e. split; [done|].
  destruct (decide (8 ≤ length dgo_data)%nat) as [Hlen|Hlen].
  - pose proof (decompress_fuel lzo1x_decompress dgo_data) as Hfuel.
    pose proof Hexpand as Hloop.
    rewrite decompress_unfold in Hloop by done.
    apply chunk_loop_Err_kind in Hloop as [?|Hout]; [done|].
    by rewrite Hout in Hexpand.
  - rewrite decompress_short in Hexpand by lia.
    injection Hexpand as <-. by left.
Qed.

(** *** Streams that stop early *)

(** The loop over chunks that leave room in the output. *)
Lemma chunk_loop_skip pre :
  ∀ fuel n written r rest,
  Forall (λ zc, chunk_well_formed lzo1x_decompress zc.2) pre →
  (seek r mod 4 = 0)%nat →
  here r = encode_chunks pre ++ rest →
  (∀ k, (0 < k ≤ length pre)%nat →
     (length written
      + length (chunks_output lzo1x_decompress (take k pre)) < n)%nat) →
  let written' := written ++ chunks_output lzo1x_decompress pre in
  ∃ r', (seek r' mod 4 = 0)%nat ∧ here r' = rest
        ∧ chunk_loop (length pre + fuel) n r
            (written ++ replicate (n - length written) x00) (length written)
          = chunk_loop fuel n r'
              (written' ++ replicate (n - length written') x00)
              (length written').
Proof.
  induction pre as [|[z0 c0] pre IH];
    intros fuel n written r rest Hwf Haligned Hhere Hpre written'.
  - exists r. subst written'. unfold chunks_output. simpl.
    by rewrite app_nil_r.
  - apply Forall_cons in Hwf as [Hc0 Hwf]. cbn [snd] in Hc0.
    rewrite encode_chunks_cons, <- app_assoc in Hhere.
    assert (Hone : (length written
                    + length (chunk_output lzo1x_decompress c0) < n)%nat).
    { pose proof (Hpre 1%nat ltac:(simpl; lia)) as Hone.
      unfold chunks_output in Hone. simpl in Hone.
      by rewrite app_nil_r in Hone. }
    destruct (chunk_loop_turn lzo1x_decompress (length pre + fuel) n written
                r z0 c0 _ Hc0 Haligned Hhere)
      as (Haligned' & Hhere' & Hturn); [lia|].
    rewrite decide_False in Hturn by lia.
    destruct (IH fuel n (written ++ chunk_output lzo1x_decompress c0) _ rest
                Hwf Haligned' Hhere') as (r' & Hal & Hrest & Hloop).
    { intros k Hk. specialize (Hpre (S k) ltac:(simpl; lia)).
      simpl in Hpre. rewrite chunks_output_cons, length_app in Hpre.
      cbn [snd] in Hpre. rewrite length_app. lia. }
    exists r'. split; [done|]. split; [done|].
    cbn [length Nat.add]. rewrite Hturn, Hloop.
    subst written'. rewrite chunks_output_cons. cbn [snd].
    by rewrite <- !app_assoc.
Qed.

Lemma read_chunk_size_runs_out zero_words :
  ∀ fuel r tail,
  (zero_words < fuel)%nat → (length tail < 4)%nat →
  here r = mjoin (replicate zero_words (u32_bytes 0)) ++ tail →
  read_chunk_size fuel r = Err OutOfBounds.
Proof.
  induction zero_words as [|z IH]; intros fuel r tail Hfuel Htail Hhere;
    (destruct fuel as [|fuel]; [lia|]); simpl in Hhere |- *.
  - destruct (read_u32 r) as [[w r1]|e] eqn:Hread.
    + apply read_u32_inv in Hread as [Hleft _].
      rewrite bytes_left_here, Hhere in Hleft. lia.
    + by apply read_u32_Err in Hread as ->.
  - destruct (read_u32_here r 0 (mjoin (replicate z (u32_bytes 0)) ++ tail))
      as [-> Hrest]; [lia|done|].
    simpl. by apply (IH fuel _ tail); [lia| |].
Qed.

Lemma length_zero_words z :
  length (mjoin (replicate z (u32_bytes 0))) = (4 * z)%nat.
Proof.
  rewrite length_join, fmap_replicate, sum_list_replicate.
  change (length (u32_bytes 0)) with 4%nat. lia.
Qed.

(** The state of the loop behind chunks that leave room in the output. *)
Lemma decompress_skip n pre rest :
  0 ≤ n < 2 ^ 32 →
  Forall (λ zc, chunk_well_formed lzo1x_decompress zc.2) pre →
  (∀ k, (0 < k ≤ length pre)%nat →
     (length (chunks_output lzo1x_decompress (take k pre)) < Z.to_nat n)%nat) →
  let written := chunks_output lzo1x_decompress pre in
  ∃ r fuel, (seek r mod 4 = 0)%nat ∧ here r = rest
    ∧ expand (compressed_archive n pre ++ rest)
      = chunk_loop (S fuel) (Z.to_nat n) r
          (written ++ replicate (Z.to_nat n - length written) x00)
          (length written).
Proof.
  intros Hn Hwf Hpre written.
  destruct (compressed_archive_header lzo1x_decompress n pre rest Hn)
    as (Hlen & Hsize & Hhere & Hfuel).
  rewrite decompress_unfold, Hsize by done.
  set (file := compressed_archive n pre ++ rest) in *.
  destruct (chunk_loop_skip pre (S (length file - length pre)) (Z.to_nat n)
              [] (mk file 8) rest Hwf eq_refl Hhere)
    as (r' & Hal & Hrest & Hloop); [done|].
  exists r', (length file - length pre)%nat. split; [done|]. split; [done|].
  cbn [length app] in Hloop. rewrite Nat.sub_0_r in Hloop.
  subst written. rewrite <- Hloop. f_equal. lia.
Qed.

(** X12.  A compressed file whose chunks expand to fewer bytes than it
    declares, and which has nothing behind them but zero words and fewer
    than four further bytes, fails when the next size word is read: the
    reader runs off the end of the file.  This is so also for a file that
    declares no bytes and has no chunk: the first size word is read before
    the declared size is looked at. *)
Theorem truncated_stream n chunks zero_words tail :
  0 ≤ n < 2 ^ 32 →
  Forall (λ zc, chunk_well_formed lzo1x_decompress zc.2) chunks →
  (∀ k, (0 < k ≤ length chunks)%nat →
     (length (chunks_output lzo1x_decompress (take k chunks))
      < Z.to_nat n)%nat) →
  (length tail < 4)%nat →
  expand (compressed_archive n chunks
          ++ mjoin (replicate zero_words (u32_bytes 0)) ++ tail)
  = Err OutOfBounds.
Proof.
  intros Hn Hwf Hpre Htail.
  destruct (decompress_skip n chunks
              (mjoin (replicate zero_words (u32_bytes 0)) ++ tail)
              Hn Hwf Hpre) as (r & fuel & _ & Hhere & ->).
  cbn [decompress_chunks].
  rewrite (read_chunk_size_runs_out zero_words _ r tail); [done| |done..].
  rewrite bytes_left_here, Hhere, length_app, length_zero_words. lia.
Qed.

(** X13.  A block of which [lzo1x_decompress] does not return [LZO_E_OK]
    stops the decompression with [DecompressionError], when the chunks
    before it leave room in the output and what was written for it fits
    there. *)
Theorem failed_block n pre zero_words block rest :
  0 ≤ n < 2 ^ 32 →
  Forall (λ zc, chunk_well_formed lzo1x_decompress zc.2) pre →
  (∀ k, (0 < k ≤ length pre)%nat →
     (length (chunks_output lzo1x_decompress (take k pre)) < Z.to_nat n)%nat) →
  (0 < length block < MAX_CHUNK_SIZE)%nat →
  (lzo1x_decompress block).2 = false →
  (length (chunks_output lzo1x_decompress pre)
   + length (lzo1x_decompress block).1 ≤ Z.to_nat n)%nat →
  expand (compressed_archive n pre
          ++ mjoin (replicate zero_words (u32_bytes 0))
          ++ u32_bytes (Z.of_nat (length block)) ++ block ++ rest)
  = Err DecompressionError.
Proof.
  intros Hn Hwf Hpre Hblock Hfail Hfit.
  pose proof MAX_CHUNK_SIZE_value as Hmax.
  destruct (decompress_skip n pre
              (mjoin (replicate zero_words (u32_bytes 0))
               ++ u32_bytes (Z.of_nat (length block)) ++ block ++ rest)
              Hn Hwf Hpre) as (r & fuel & _ & Hhere & ->).
  cbn [decompress_chunks].
  edestruct (read_chunk_size_here lzo1x_decompress (S (bytes_left r)) r
               zero_words (Z.of_nat (length block))) as [-> Hhere1];
    [lia| |exact Hhere|].
  { rewrite bytes_left_here, Hhere, length_app, length_zero_words. lia. }
  unfold mbind, result_bind at 1. cbv beta iota.
  unfold decompress_chunk.
  rewrite (proj2 (Z.ltb_lt _ _)) by lia. rewrite Nat2Z.id.
  destruct (read_bytes_here _ _ _ Hhere1) as [-> _].
  unfold mbind, result_bind. cbv beta iota.
  destruct (lzo1x_decompress block) as [written lzo_ok]. simpl in Hfail, Hfit.
  subst lzo_ok. rewrite (write_at_fill lzo1x_decompress) by lia. done.
Qed.

End DecompressMore.

(** ** Whole files, continued *)

Section IngestFailures.
Import BinaryReader.
Context {FunctionRest LinkedRest : Type}.
Variable crc32 : list byte → Z.
Variable init_linked_data : LinkedObjectFile FunctionRest LinkedRest.
Variable init_reference_count : Z.
Variable lzo1x_decompress : list byte → list byte * bool.

Abbreviation Db := (ObjectFileDB FunctionRest LinkedRest).
Abbreviation insert_all :=
  (add_all crc32 init_linked_data init_reference_count).
Abbreviation walk :=
  (read_objs crc32 init_linked_data init_reference_count).
Abbreviation ingest :=
  (get_objs_from_dgo crc32 init_linked_data init_reference_count
     lzo1x_decompress).
Abbreviation expand := (decompress lzo1x_decompress).

Implicit Types (r : BinaryReader.t) (db : Db) (field rest : list byte).

Lemma is_jak2_compressed_archive n chunks trailing :
  is_jak2 (compressed_archive n chunks ++ trailing) = true.
Proof. by apply is_jak2_take4. Qed.

(** X14.  A compressed file whose chunks expand to a well-formed archive is
    read as that archive: its objects are inserted in order under the name
    of the file, and [total_dgo_bytes] has grown by the size of the
    compressed file, not by that of the archive.  Bytes behind the last
    chunk are not looked at. *)
Theorem compressed_archive_ingest base nm objs n chunks trailing db :
  0 ≤ n < 2 ^ 32 →
  Forall (λ zc, chunk_well_formed lzo1x_decompress zc.2) chunks →
  chunks_fill lzo1x_decompress (Z.to_nat n) chunks →
  chunks_output lzo1x_decompress chunks = dgo_file nm objs →
  name_ok nm → String.string_of_list_byte nm = base →
  Forall obj_ok objs → Z.of_nat (length objs) < 2 ^ 32 →
  ingest base (compressed_archive n chunks ++ trailing) db
  = Ok (insert_all (obj_insertions base objs)
          (count_dgo_bytes (length (compressed_archive n chunks ++ trailing))
             db)).
Proof.
  intros Hn Hwf Hfill Hout Hnm Hbase Hok Hcount.
  apply get_objs_from_dgo_archive with nm; try done.
  rewrite is_jak2_compressed_archive, <- Hout.
  by apply decompress_archive.
Qed.

(** X15.  The name in the archive header is compared with the name of the
    file before anything else of the archive is checked: when they differ
    the parse stops with [ArchiveNameMismatch], whatever the padding of the
    name field, the number of objects and the rest of the file are. *)
Theorem archive_name_checked_first base file count field body db s :
  is_jak2 file = false →
  file = u32_bytes count ++ field ++ body →
  0 ≤ count < 2 ^ 32 → length field = 60%nat →
  c_string field = Ok s → s ≠ base →
  ingest base file db = Err ArchiveNameMismatch.
Proof.
  intros Hplain Hfile Hcount Hlen Hname Hne.
  destruct (header_read_here (mk file 0) count field body Hcount Hlen)
    as [Hread Hhere]; [by rewrite Hfile|].
  unfold get_objs_from_dgo. rewrite Hplain.
  unfold mbind, result_bind at 1. rewrite Hread.
  unfold mbind, result_bind at 1. cbv beta iota.
  cbn [DgoHeader.name DgoHeader.size]. rewrite Hname.
  unfold mbind, result_bind at 1. by rewrite decide_False.
Qed.


End IngestFailures.

(** ** The constructor *)

Section ConstructionFacts.
Context {FunctionRest LinkedRest : Type}.
Variable crc32 : list byte → Z.
Variable init_linked_data : LinkedObjectFile FunctionRest LinkedRest.
Variable init_reference_count : Z.
Variable lzo1x_decompress : list byte → list byte * bool.

Abbreviation Db := (ObjectFileDB FunctionRest LinkedRest).
Abbreviation add := (add_obj_from_dgo crc32 init_linked_data
                       init_reference_count).
Abbreviation insert_all :=
  (add_all crc32 init_linked_data init_reference_count).
Abbreviation ingest :=
  (get_objs_from_dgo crc32 init_linked_data init_reference_count
     lzo1x_decompress).
Abbreviation load :=
  (load_dgos crc32 init_linked_data init_reference_count lzo1x_decompress).
Abbreviation new :=
  (new_ObjectFileDB crc32 init_linked_data init_reference_count
     lzo1x_decompress).

Implicit Types (db : Db) (_dgos : list (string * list byte)).

Lemma count_dgo_bytes_0 db : count_dgo_bytes 0 db = db.
Proof.
  destruct db as [by_name by_dgo order [t o u b]]. unfold count_dgo_bytes.
  simpl. do 2 f_equal. lia.
Qed.

(** The loop of the constructor, from any store. *)
Lemma load_dgos_exact _dgos :
  ∀ db db',
  load _dgos db = Ok db'
  ↔ ∃ archives,
      Forall2 (well_formed_dgo lzo1x_decompress) _dgos archives
      ∧ db' = count_dgo_bytes (total_size _dgos)
                (insert_all (dgo_insertions _dgos archives) db).
Proof.
  induction _dgos as [|[base file] _dgos IH]; intros db db'.
  - simpl. split.
    + intros [= <-]. exists []. split; [constructor|].
      by rewrite count_dgo_bytes_0.
    + intros (archives & ->%Forall2_nil_inv_l & ->).
      by rewrite count_dgo_bytes_0.
  - cbn [load_dgos fst snd]. split.
    + destruct (ingest base file db) as [db1|e] eqn:Hingest; [|done].
      unfold mbind, result_bind at 1.
      apply get_objs_from_dgo_inv in Hingest
        as (dgo_data & nm & objs & Hexpand & Hnm & Hbase & Hok & Hcount & ->
            & ->).
      intros (archives & Hall & ->)%IH.
      exists ((nm, objs) :: archives). split.
      { constructor; [|done]. unfold well_formed_dgo, archive_of.
        cbn [fst snd]. by rewrite Hexpand. }
      unfold dgo_insertions. cbn [zip_with mjoin list_join fst snd].
      rewrite insert_all_app, !insert_all_count_dgo_bytes.
      by rewrite count_dgo_bytes_add.
    + intros (archives & Hall & ->).
      apply Forall2_cons_inv_l in Hall
        as ([nm objs] & archives' & Har & Hall & ->).
      destruct Har as (Hexpand & Hnm & Hbase & Hok & Hcount).
      cbn [fst snd] in *.
      rewrite (get_objs_from_dgo_archive crc32 init_linked_data
                 init_reference_count lzo1x_decompress base file db nm objs)
        by done.
      unfold mbind, result_bind at 1. apply IH.
      exists archives'. split; [done|].
      unfold dgo_insertions. cbn [zip_with mjoin list_join fst snd].
      rewrite insert_all_app, !insert_all_count_dgo_bytes.
      by rewrite count_dgo_bytes_add.
Qed.


(** *** What the store keeps true of itself *)

Lemma consistent_empty : consistent crc32 (empty_db : Db).
Proof.
  split; [apply versions_indexed_empty|].
  split; [apply order_complete_empty|].
  split; [apply store_distinct_empty|].
  split.
  - intros a r. simpl. rewrite subscript_empty. by intros ?%elem_of_nil.
  - exists O. apply counters_consistent_empty.
Qed.

Lemma consistent_add obj_name obj_data dgo db :
  consistent crc32 db → consistent crc32 (add obj_name obj_data dgo db).
Proof.
  intros (Hver & Horder & Hdistinct & Hres & calls & Hcount).
  split; [by apply versions_indexed_add|].
  split; [by apply order_complete_add|].
  split; [by apply store_distinct_add|].
  split; [by apply members_resolve_add|].
  exists (S calls). by apply counters_consistent_add.
Qed.

Lemma consistent_count_dgo_bytes k db :
  consistent crc32 db → consistent crc32 (count_dgo_bytes k db).
Proof. done. Qed.

Lemma consistent_insert_all ops :
  ∀ db, consistent crc32 db → consistent crc32 (insert_all ops db).
Proof.
  induction ops as [|op ops IH]; intros db Hdb; [done|].
  unfold add_all in *. cbn [foldl]. by apply IH, consistent_add.
Qed.

Lemma total_dgo_bytes_insert_all ops :
  ∀ db, total_dgo_bytes (stats (insert_all ops db))
        = total_dgo_bytes (stats db).
Proof.
  induction ops as [|op ops IH]; intros db; [done|].
  unfold add_all in *. cbn [foldl]. rewrite IH.
  by destruct (add_stats crc32 init_linked_data init_reference_count
                 op.1.1 op.1.2 op.2 db) as (_ & -> & _).
Qed.

(** X18.  A store that the constructor has built is consistent: every
    entry sits under its name at the place of its version, the order lists
    each stored name once, no two variants of a name have the same size and
    hash, every membership record names a stored entry, and the counters
    are the numbers of what is stored; [total_dgo_bytes] is the size of all
    files together.  Reading one more file into a consistent store leaves
    it consistent. *)
Theorem constructed_store_consistent _dgos db :
  new _dgos = Ok db →
  consistent crc32 db
  ∧ total_dgo_bytes (stats db) = Z.of_nat (total_size _dgos)
  ∧ ∀ base file db', ingest base file db = Ok db' → consistent crc32 db'.
Proof.
  intros (archives & _ & ->)%load_dgos_exact.
  split; [|split].
  - apply consistent_count_dgo_bytes, consistent_insert_all,
      consistent_empty.
  - cbn [count_dgo_bytes stats total_dgo_bytes].
    rewrite total_dgo_bytes_insert_all. simpl. lia.
  - intros base file db'
      (dgo_data & nm & objs & _ & _ & _ & _ & _ & _ & ->)
        %get_objs_from_dgo_inv.
    apply consistent_insert_all, consistent_count_dgo_bytes,
      consistent_count_dgo_bytes, consistent_insert_all, consistent_empty.
Qed.

End ConstructionFacts.

(** ** The listing *)

Section ListingFacts.
Context {FunctionRest LinkedRest : Type}.
Implicit Type db : ObjectFileDB FunctionRest LinkedRest.

Lemma merge_sort_iteration (kvs1 kvs2 : list string) :
  kvs1 ≡ₚ kvs2 → merge_sort String.le kvs1 = merge_sort String.le kvs2.
Proof.
  intros Hperm. apply (Sorted_unique String.le).
  - apply (Sorted_merge_sort String.le).
  - apply (Sorted_merge_sort String.le).
  - by rewrite !merge_sort_Permutation.
Qed.

(** X19.  The listing does not depend on the order in which the iteration
    over the unordered map comes by the names of the archives: the names are
    sorted before they are listed. *)
Theorem listing_independent_of_iteration db kvs1 kvs2 :
  iterates db kvs1 → iterates db kvs2 →
  generate_dgo_listing kvs1 db = generate_dgo_listing kvs2 db.
Proof.
  unfold iterates, generate_dgo_listing. intros H1 H2. cbv zeta.
  rewrite (merge_sort_iteration kvs1 kvs2); [done|]. by rewrite H1, H2.
Qed.

End ListingFacts.

Lemma two_archives_iteration :
  (map_to_list (obj_files_by_dgo two_archives)).*1 ≡ₚ ["A"; "B"].
Proof.
  unfold two_archives. cbn [obj_files_by_dgo].
  rewrite map_to_list_insert by done.
  rewrite map_to_list_insert by done.
  by rewrite map_to_list_empty.
Qed.

Lemma listing_independent_of_iteration_witness :
  iterates two_archives ["A"; "B"] ∧ iterates two_archives ["B"; "A"]
  ∧ generate_dgo_listing ["A"; "B"] two_archives
    = generate_dgo_listing ["B"; "A"] two_archives.
Proof.
  assert (H1 : iterates two_archives ["A"; "B"]).
  { unfold iterates. by rewrite two_archives_iteration. }
  assert (H2 : iterates two_archives ["B"; "A"]).
  { unfold iterates. rewrite two_archives_iteration. apply Permutation_swap. }
  exact (conj H1 (conj H2
           (listing_independent_of_iteration two_archives _ _ H1 H2))).
Defined.

Example listing_example :
  generate_dgo_listing ["B"; "A"] two_archives
  = ";; DGO File Listing" +:+ newline +:+ newline
    +:+ "(" +:+ double_quote +:+ "A" +:+ double_quote +:+ newline
    +:+ "  x :version 0" +:+ newline
    +:+ "  )" +:+ newline +:+ newline
    +:+ "(" +:+ double_quote +:+ "B" +:+ double_quote +:+ newline
    +:+ "  y :version 0" +:+ newline
    +:+ "  )" +:+ newline +:+ newline.
Proof. vm_compute. reflexivity. Qed.

(** ** The keys of the maps *)

Section StoreKeys.
Context {FunctionRest LinkedRest : Type}.
Variable crc32 : list byte → Z.
Variable init_linked_data : LinkedObjectFile FunctionRest LinkedRest.
Variable init_reference_count : Z.

Abbreviation Store := (ObjectFileDB FunctionRest LinkedRest).
Abbreviation add := (add_obj_from_dgo crc32 init_linked_data
                       init_reference_count).
Abbreviation add_seq := (add_all crc32 init_linked_data init_reference_count).

Implicit Types (db : Store).

Lemma no_empty_vector_insert {A} (m : gmap string (list A)) k l :
  l ≠ [] → no_empty_vector m → no_empty_vector (<[k := l]> m).
Proof.
  intros Hl Hm k' l' [[<- <-]|[_ Hk']]%lookup_insert_Some; [done|].
  by eapply Hm.
Qed.

Lemma no_empty_vector_push_back {A} (m : gmap string (list A)) k x :
  no_empty_vector m → no_empty_vector (push_back m k x).
Proof.
  apply no_empty_vector_insert. intros Hnil.
  by apply app_eq_nil in Hnil as [_ ?].
Qed.

Lemma is_Some_push_back {A} (m : gmap string (list A)) k x k' :
  is_Some (push_back m k x !! k') ↔ k = k' ∨ is_Some (m !! k').
Proof.
  unfold push_back. rewrite lookup_insert_is_Some.
  destruct (decide (k = k')); naive_solver.
Qed.

(** One insertion: the key of the name and the key of the archive are there
    afterwards, no other key is new, and no vector is empty. *)
Lemma add_keys obj_name obj_data dgo db :
  let db' := add obj_name obj_data dgo db in
  no_empty_vector (obj_files_by_name db) →
  no_empty_vector (obj_files_by_dgo db) →
  no_empty_vector (obj_files_by_name db')
  ∧ no_empty_vector (obj_files_by_dgo db')
  ∧ (∀ n, is_Some (obj_files_by_name db' !! n)
          ↔ obj_name = n ∨ is_Some (obj_files_by_name db !! n))
  ∧ (∀ a, is_Some (obj_files_by_dgo db' !! a)
          ↔ dgo = a ∨ is_Some (obj_files_by_dgo db !! a)).
Proof.
  intros db' Hname Hdgo. subst db'.
  destruct (find_duplicate (subscript (obj_files_by_name db) obj_name)
              (length obj_data) (crc32 obj_data)) as [[es' r]|] eqn:Hscan.
  - rewrite (add_duplicate _ _ _ _ _ _ _ _ _ Hscan).
    cbn [obj_files_by_name obj_files_by_dgo].
    apply find_duplicate_Some in Hscan as (i & e & Hi & _ & _ & -> & _).
    split; [|split; [|split]].
    + apply no_empty_vector_insert; [|done]. intros Hnil.
      apply (f_equal length) in Hnil. rewrite length_insert in Hnil.
      apply lookup_lt_Some in Hi. simpl in Hnil. lia.
    + by apply no_empty_vector_push_back.
    + intros n. rewrite lookup_insert_is_Some.
      destruct (decide (obj_name = n)); naive_solver.
    + intros a. apply is_Some_push_back.
  - rewrite (add_new_variant _ _ _ _ _ _ _ Hscan).
    cbn [obj_files_by_name obj_files_by_dgo].
    split; [|split; [|split]].
    + by apply no_empty_vector_push_back.
    + by apply no_empty_vector_push_back.
    + intros n. apply is_Some_push_back.
    + intros a. apply is_Some_push_back.
Qed.

(** X20.  In a store built by insertions, the names that are keys of
    [obj_files_by_name] are the names that were inserted, the archives that
    are keys of [obj_files_by_dgo] are the archives that an object was
    inserted from, and no key of either map holds an empty vector: the
    subscript that creates a missing key is always followed by a
    [push_back]. *)
Theorem keys_are_what_was_inserted ops :
  let db := add_seq ops empty_db in
  no_empty_vector (obj_files_by_name db)
  ∧ no_empty_vector (obj_files_by_dgo db)
  ∧ (∀ n, is_Some (obj_files_by_name db !! n) ↔ n ∈ ops.*1.*1)
  ∧ (∀ a, is_Some (obj_files_by_dgo db !! a) ↔ a ∈ ops.*2).
Proof.
  induction ops as [|op ops (Hname & Hdgo & Hnames & Hdgos)] using rev_ind.
  - simpl. split; [by intros k l; rewrite lookup_empty|].
    split; [by intros k l; rewrite lookup_empty|].
    split; intros k; rewrite lookup_empty, elem_of_nil;
      (split; [by intros [? ?]|done]).
  - cbv zeta. rewrite add_seq_snoc.
    destruct (add_keys op.1.1 op.1.2 op.2 _ Hname Hdgo)
      as (Hname' & Hdgo' & Hnames' & Hdgos').
    split; [done|]. split; [done|]. split.
    + intros n. rewrite Hnames', Hnames, !fmap_app, elem_of_app.
      simpl. rewrite list_elem_of_singleton. naive_solver.
    + intros a. rewrite Hdgos', Hdgos, fmap_app, elem_of_app.
      simpl. rewrite list_elem_of_singleton. naive_solver.
Qed.

End StoreKeys.

(** ** The analysis and the store *)

Section AnalysisFacts.
Context {FunctionRest LinkedRest : Type}.
Variable find_global_function_defs :
  nat → nat → LinkedObjectFile FunctionRest LinkedRest
  → LinkedObjectFile FunctionRest LinkedRest.
Variable find_basic_blocks_pass :
  ObjectFileDB FunctionRest LinkedRest → ObjectFileDB FunctionRest LinkedRest.

Abbreviation Obj := (ObjectFileData FunctionRest LinkedRest).
Abbreviation name_step := (name_top_level find_global_function_defs).
Abbreviation analyze :=
  (analyze_functions find_global_function_defs find_basic_blocks_pass).

Implicit Types (d : Obj) (func : Function FunctionRest).

Lemma name_step_keeps d d' :
  name_step d = Ok d' →
  data d' = data d ∧ record d' = record d
  ∧ reference_count d' = reference_count d.
Proof.
  intros [[_ ->]|(_ & func & _ & _ & ->)]
    %(name_step_Ok find_global_function_defs); done.
Qed.

(** X21.  The last pass of [analyze_functions] changes link data only: the
    membership index, the order and the counters are as they were before
    it, and under every name there are the same entries as before, each with
    its bytes, its record and its reference count. *)
Theorem analysis_keeps_the_store (find_basic_blocks : bool)
    (db db' : ObjectFileDB FunctionRest LinkedRest) :
  let db1 := if find_basic_blocks then find_basic_blocks_pass db else db in
  NoDup (obj_file_order db1) →
  analyze find_basic_blocks db = Ok db' →
  obj_files_by_dgo db' = obj_files_by_dgo db1
  ∧ obj_file_order db' = obj_file_order db1
  ∧ stats db' = stats db1
  ∧ ∀ n, Forall2 (λ d d', data d' = data d ∧ record d' = record d
                          ∧ reference_count d' = reference_count d)
           (subscript (obj_files_by_name db1) n)
           (subscript (obj_files_by_name db') n).
Proof.
  intros db1 Hnodup. unfold analyze_functions. fold db1. unfold for_each_obj.
  destruct (for_each_obj_in name_step (obj_file_order db1)
              (obj_files_by_name db1)) as [by_name'|e] eqn:Hvisit; [|done].
  unfold mbind, result_bind. intros [= <-].
  cbn [obj_files_by_dgo obj_file_order stats obj_files_by_name].
  split; [done|]. split; [done|]. split; [done|].
  destruct (for_each_obj_in_Ok _ _ _ _ Hnodup Hvisit) as [Hin Hout].
  intros n. destruct (decide (n ∈ obj_file_order db1)) as [Hn|Hn].
  - destruct (Hin n Hn) as (objs & objs' & Hobjs & Hobjs' & Hall).
    unfold subscript. rewrite Hobjs, Hobjs'. simpl.
    eapply Forall2_impl; [exact Hall|].
    intros d d'. apply name_step_keeps.
  - unfold subscript. rewrite (Hout n Hn).
    apply Forall_Forall2_diag, Forall_true. done.
Qed.

End AnalysisFacts.

Lemma foo_store_analysis :
  analyze_functions same_link_data (λ db, db) false foo_store
  = Ok foo_store_analyzed.
Proof. vm_compute. reflexivity. Qed.

Lemma analysis_keeps_the_store_witness :
  NoDup (obj_file_order foo_store)
  ∧ analyze_functions same_link_data (λ db, db) false foo_store
    = Ok foo_store_analyzed
  ∧ obj_files_by_dgo foo_store_analyzed = obj_files_by_dgo foo_store
  ∧ obj_file_order foo_store_analyzed = obj_file_order foo_store
  ∧ stats foo_store_analyzed = stats foo_store
  ∧ ∀ n, Forall2 (λ d d', data d' = data d ∧ record d' = record d
                          ∧ reference_count d' = reference_count d)
           (subscript (obj_files_by_name foo_store) n)
           (subscript (obj_files_by_name foo_store_analyzed) n).
Proof.
  assert (H1 : NoDup (obj_file_order foo_store)).
  { apply NoDup_singleton. }
  exact (conj H1 (conj foo_store_analysis
           (analysis_keeps_the_store same_link_data (λ db, db) false
              foo_store foo_store_analyzed H1 foo_store_analysis))).
Defined.

(** ** The dumps *)

Lemma string_app_empty_r (s : string) : s +:+ "" = s.
Proof. induction s as [|a s IH]; [done|]. by rewrite string_app_cons, IH. Qed.

Lemma string_app_inj_r (s s1 s2 : string) : s1 +:+ s = s2 +:+ s → s1 = s2.
Proof.
  revert s1 s2. induction s as [|c s IH]; intros s1 s2 Heq.
  - by rewrite !string_app_empty_r in Heq.
  - change (String c s) with (String c "" +:+ s) in Heq.
    rewrite <- !string_app_assoc in Heq.
    by apply IH, string_snoc_inj in Heq.
Qed.

Lemma to_unique_name_eq (r1 r2 : ObjectFileRecord) :
  to_unique_name r1 = to_unique_name r2 →
  name r1 = name r2 ∧ version r1 = version r2.
Proof.
  rewrite !to_unique_name_cut.
  intros [Hname Hver]%cut_at_last; try apply pretty_Z_digits.
  split; [by apply string_snoc_inj in Hname|by apply (inj pretty)].
Qed.

Lemma omap_selected_sublist {A B C} (sel : A → bool) (f : A → B) (g : A → C)
    (l : list A) :
  (omap (λ x, if sel x then Some (f x, g x) else None) l).*1
  `sublist_of` (f <$> l).
Proof.
  induction l as [|x l IH]; [done|]. simpl.
  destruct (sel x); simpl; by constructor.
Qed.

Section DumpFacts.
Context {FunctionRest LinkedRest : Type}.
Variable crc32 : list byte → Z.
Variable init_linked_data : LinkedObjectFile FunctionRest LinkedRest.
Variable init_reference_count : Z.
Variable print_words print_disassembly :
  LinkedObjectFile FunctionRest LinkedRest → string.
Variable has_any_functions : LinkedObjectFile FunctionRest LinkedRest → bool.
Variable combine_path : string → string → string.

Abbreviation Store := (ObjectFileDB FunctionRest LinkedRest).
Abbreviation add_seq := (add_all crc32 init_linked_data init_reference_count).

Implicit Types (db : Store).

Lemma elem_of_visited db x :
  x ∈ visited db
  ↔ ∃ n i, n ∈ obj_file_order db ∧ stored_at db n i x.
Proof.
  unfold visited, stored_at. rewrite list_elem_of_bind. split.
  - intros (n & [i Hi]%list_elem_of_lookup & Hn). by exists n, i.
  - intros (n & i & Hn & Hi). exists n. split; [|done].
    by eapply list_elem_of_lookup_2.
Qed.

Lemma visited_NoDup db :
  versions_indexed db → NoDup (obj_file_order db) → NoDup (visited db).
Proof.
  intros Hver Horder. apply NoDup_bind; [| |done].
  - intros n1 n2 x _ _ [i1 H1]%list_elem_of_lookup [i2 H2]%list_elem_of_lookup.
    destruct (Hver _ _ _ H1) as [<- _]. by destruct (Hver _ _ _ H2) as [<- _].
  - intros n _. apply NoDup_alt. intros i j x Hi Hj.
    destruct (Hver _ _ _ Hi) as [_ Hvi], (Hver _ _ _ Hj) as [_ Hvj]. lia.
Qed.

Lemma visited_unique_names db x y :
  versions_indexed db → x ∈ visited db → y ∈ visited db →
  to_unique_name (record x) = to_unique_name (record y) → x = y.
Proof.
  intros Hver (n1 & i1 & _ & H1)%elem_of_visited
    (n2 & i2 & _ & H2)%elem_of_visited [Hname Hversion]%to_unique_name_eq.
  destruct (Hver _ _ _ H1) as [Hn1 Hv1], (Hver _ _ _ H2) as [Hn2 Hv2].
  assert (n1 = n2) as -> by congruence.
  assert (i1 = i2) as -> by lia.
  unfold stored_at in *. congruence.
Qed.

(** The names of the files of a dump with suffix [ext]. *)
Lemma dump_names_NoDup db output_dir ext :
  (∀ a b, combine_path output_dir a = combine_path output_dir b → a = b) →
  versions_indexed db → NoDup (obj_file_order db) →
  NoDup ((λ obj : ObjectFileData FunctionRest LinkedRest,
            combine_path output_dir (to_unique_name (record obj) +:+ ext))
         <$> visited db).
Proof.
  intros Hpath Hver Horder. apply NoDup_fmap_2_strong.
  - intros x y Hx Hy Heq%Hpath%string_app_inj_r.
    by apply (visited_unique_names db).
  - by apply visited_NoDup.
Qed.

(** X22.  No dump overwrites another: when [combine_path] gives different
    paths for different file names in the output directory, the files
    written by [write_object_file_words] for a store built by insertions
    all have different names, and so have those written by
    [write_disassembly]. *)
Theorem dumps_do_not_overwrite ops output_dir (dump_v3_only
    disassemble_objects_without_functions : bool) :
  (∀ a b, combine_path output_dir a = combine_path output_dir b → a = b) →
  let db := add_seq ops empty_db in
  NoDup (write_object_file_words print_words combine_path output_dir
           dump_v3_only db).*1
  ∧ NoDup (write_disassembly print_disassembly has_any_functions
             combine_path output_dir disassemble_objects_without_functions
             db).*1.
Proof.
  intros Hpath db.
  assert (Hver : versions_indexed db).
  { apply versions_indexed_add_seq, versions_indexed_empty. }
  assert (Horder : NoDup (obj_file_order db)).
  { apply (add_seq_preserves crc32 init_linked_data init_reference_count
             order_complete).
    - intros. by apply order_complete_add.
    - apply order_complete_empty. }
  split.
  - eapply sublist_NoDup; [|apply omap_selected_sublist].
    by apply dump_names_NoDup.
  - eapply sublist_NoDup; [|apply omap_selected_sublist].
    by apply dump_names_NoDup.
Qed.

(** *** How many entries the visit comes by *)

Lemma visit_same {A} (f g : string → list A) (l : list string) :
  (∀ n, n ∈ l → length (g n) = length (f n)) →
  length (l ≫= g) = length (l ≫= f).
Proof.
  induction l as [|m l IH]; intros Hsame; csimpl; [done|].
  rewrite !length_app, Hsame, IH; [done| |by left].
  intros n Hn. apply Hsame. by right.
Qed.

Lemma visit_grow {A} (f g : string → list A) (l : list string) n :
  NoDup l → n ∈ l → length (g n) = S (length (f n)) →
  (∀ m, m ≠ n → m ∈ l → length (g m) = length (f m)) →
  length (l ≫= g) = S (length (l ≫= f)).
Proof.
  induction l as [|k l IH]; intros Hnodup Hn Hgrow Hsame; csimpl.
  - by apply elem_of_nil in Hn.
  - apply NoDup_cons in Hnodup as [Hk Hnodup]. rewrite !length_app.
    destruct (decide (k = n)) as [->|Hne].
    + rewrite Hgrow, (visit_same f g l); [simpl; lia|].
      intros m Hm. apply Hsame; [|by right]. by intros ->.
    + rewrite (Hsame k), IH; [lia|done| |done| |done|by left].
      * apply elem_of_cons in Hn as [->|Hn]; done.
      * intros m Hm Hin. apply Hsame; [done|by right].
Qed.

Lemma visited_add obj_name obj_data dgo db :
  order_complete db →
  Z.of_nat (length (visited (add_obj_from_dgo crc32 init_linked_data
                               init_reference_count obj_name obj_data dgo
                               db)))
  - unique_obj_files
      (stats (add_obj_from_dgo crc32 init_linked_data init_reference_count
                obj_name obj_data dgo db))
  = Z.of_nat (length (visited db)) - unique_obj_files (stats db).
Proof.
  intros [Hnodup Horder].
  destruct (find_duplicate (subscript (obj_files_by_name db) obj_name)
              (length obj_data) (crc32 obj_data)) as [[es' r]|] eqn:Hscan.
  - rewrite (add_duplicate _ _ _ _ _ _ _ _ _ Hscan). unfold visited.
    cbn [obj_files_by_name obj_file_order stats unique_obj_files count_obj].
    apply find_duplicate_Some in Hscan as (i & e & _ & _ & _ & -> & _).
    rewrite (visit_same (λ n, subscript (obj_files_by_name db) n)); [done|].
    intros n _. destruct (decide (obj_name = n)) as [<-|Hne].
    + by rewrite subscript_insert_eq, length_insert.
    + by rewrite subscript_insert_ne.
  - rewrite (add_new_variant _ _ _ _ _ _ _ Hscan). unfold visited.
    cbn [obj_files_by_name obj_file_order stats unique_obj_files count_obj
         count_unique].
    destruct (subscript (obj_files_by_name db) obj_name) as [|e0 es] eqn:Hes.
    + assert (Hnew : obj_name ∉ obj_file_order db).
      { rewrite Horder, Hes. by intros []. }
      rewrite bind_app, length_app. csimpl.
      rewrite app_nil_r, subscript_push_back_eq, Hes.
      rewrite (visit_same (λ n, subscript (obj_files_by_name db) n)).
      * cbn [app length]. lia.
      * intros n Hn. rewrite subscript_push_back_ne; [done|].
        by intros ->.
    + assert (Hold : obj_name ∈ obj_file_order db).
      { rewrite Horder, Hes. done. }
      rewrite (visit_grow (λ n, subscript (obj_files_by_name db) n) _ _
                 obj_name);
        [lia|done|done| |].
      * rewrite subscript_push_back_eq, length_app. simpl. lia.
      * intros m Hm _. by rewrite subscript_push_back_ne.
Qed.

Lemma length_visited ops :
  Z.of_nat (length (visited (add_seq ops empty_db)))
  = unique_obj_files (stats (add_seq ops empty_db)).
Proof.
  cut (order_complete (add_seq ops empty_db)
       ∧ Z.of_nat (length (visited (add_seq ops empty_db)))
         - unique_obj_files (stats (add_seq ops empty_db)) = 0).
  { intros [_ ?]. lia. }
  induction ops as [|op ops [Horder Hlen]] using rev_ind.
  - split; [apply order_complete_empty|done].
  - rewrite add_seq_snoc. split; [by apply order_complete_add|].
    by rewrite visited_add.
Qed.

Lemma length_omap_all {A B} (f : A → option B) (l : list A) :
  (∀ x, is_Some (f x)) → length (omap f l) = length l.
Proof.
  intros Hf. induction l as [|x l IH]; [done|]. csimpl.
  destruct (Hf x) as [y ->]. csimpl. by rewrite IH.
Qed.

(** X23.  A dump of all objects writes one file for every stored entry: with
    [dump_v3_only] off, [write_object_file_words] writes as many files as
    [unique_obj_files] counts, and so does [write_disassembly] when it is
    asked to disassemble the objects without functions as well. *)
Theorem dumps_of_all_entries ops output_dir :
  let db := add_seq ops empty_db in
  Z.of_nat (length (write_object_file_words print_words combine_path
                      output_dir false db))
  = unique_obj_files (stats db)
  ∧ Z.of_nat (length (write_disassembly print_disassembly has_any_functions
                        combine_path output_dir true db))
    = unique_obj_files (stats db).
Proof.
  intros db. unfold write_object_file_words, write_disassembly.
  rewrite !length_omap_all.
  - split; apply length_visited.
  - intros obj. rewrite orb_true_r. by eexists.
  - intros obj. rewrite orb_true_r. by eexists.
Qed.

End DumpFacts.

(** ** The properties at work *)

Lemma main_name_ok : name_ok main_name.
Proof. split; [|simpl; lia]. repeat constructor; discriminate. Qed.

Lemma one_object_ok : Forall obj_ok one_object.
Proof.
  constructor; [|constructor]. split; [|simpl; lia].
  split; [|simpl; lia]. repeat constructor; discriminate.
Qed.

Lemma main_archive_ingest :
  get_objs_from_dgo byte_sum no_link_data spec_reference_count stored_block
    "MAIN" (dgo_file main_name one_object) empty_db
  = Ok (add_all byte_sum no_link_data spec_reference_count
          (obj_insertions "MAIN" one_object)
          (count_dgo_bytes (length (dgo_file main_name one_object))
             empty_db)).
Proof.
  apply get_objs_from_dgo_archive with main_name.
  - reflexivity.
  - apply main_name_ok.
  - reflexivity.
  - apply one_object_ok.
  - simpl. lia.
Qed.


Lemma ingest_effect_witness :
  let db' :=
    add_all byte_sum no_link_data spec_reference_count
      (obj_insertions "MAIN" one_object)
      (count_dgo_bytes (length (dgo_file main_name one_object))
         (empty_db : ObjectFileDB unit unit)) in
  total_dgo_bytes (stats db')
  = total_dgo_bytes (stats (empty_db : ObjectFileDB unit unit))
    + Z.of_nat (length (dgo_file main_name one_object))
  ∧ (∃ new,
       subscript (obj_files_by_dgo db') "MAIN"
       = subscript (obj_files_by_dgo (empty_db : ObjectFileDB unit unit))
           "MAIN" ++ new
       ∧ total_obj_files (stats db')
         = total_obj_files (stats (empty_db : ObjectFileDB unit unit))
           + Z.of_nat (length new))
  ∧ (∀ a, a ≠ "MAIN" →
       obj_files_by_dgo db' !! a
       = obj_files_by_dgo (empty_db : ObjectFileDB unit unit) !! a).
Proof.
  exact (ingest_effect byte_sum no_link_data spec_reference_count
           stored_block "MAIN" (dgo_file main_name one_object) empty_db _
           main_archive_ingest).
Defined.

Lemma truncated_stream_witness :
  decompress stored_block
    (compressed_archive 16 [(O, CompressedChunk eight_bytes)]
     ++ mjoin (replicate 1 (u32_bytes 0)) ++ [x00])
  = Err OutOfBounds.
Proof.
  apply (truncated_stream stored_block 16 [(O, CompressedChunk eight_bytes)]
           1 [x00]).
  - lia.
  - constructor; [apply eight_bytes_well_formed|constructor].
  - intros k Hk. assert (k = 1%nat) as -> by (simpl in Hk; lia).
    simpl. lia.
  - simpl. lia.
Defined.

Lemma failed_block_witness :
  decompress failing_block
    (compressed_archive 8 []
     ++ mjoin (replicate 0 (u32_bytes 0))
     ++ u32_bytes (Z.of_nat (length eight_bytes)) ++ eight_bytes ++ [])
  = Err DecompressionError.
Proof.
  pose proof MAX_CHUNK_SIZE_value as Hmax.
  apply (failed_block failing_block 8 [] 0 eight_bytes []).
  - lia.
  - constructor.
  - intros k Hk. simpl in Hk. lia.
  - simpl. lia.
  - reflexivity.
  - simpl. lia.
Defined.

Lemma compressed_archive_ingest_witness :
  let file :=
    compressed_archive 131
      [(O, CompressedChunk (dgo_file main_name one_object))] ++ [xff] in
  get_objs_from_dgo byte_sum no_link_data spec_reference_count stored_block
    "MAIN" file (empty_db : ObjectFileDB unit unit)
  = Ok (add_all byte_sum no_link_data spec_reference_count
          (obj_insertions "MAIN" one_object)
          (count_dgo_bytes (length file) empty_db)).
Proof.
  pose proof MAX_CHUNK_SIZE_value as Hmax.
  apply (compressed_archive_ingest byte_sum no_link_data spec_reference_count
           stored_block "MAIN" main_name one_object 131
           [(O, CompressedChunk (dgo_file main_name one_object))] [xff]
           empty_db).
  - lia.
  - constructor; [|constructor]. split; [simpl; lia|reflexivity].
  - split; [done|]. split; [reflexivity|].
    intros k Hk. simpl in Hk. lia.
  - reflexivity.
  - apply main_name_ok.
  - reflexivity.
  - apply one_object_ok.
  - simpl. lia.
Defined.

Lemma archive_name_checked_first_witness :
  get_objs_from_dgo byte_sum no_link_data spec_reference_count stored_block
    "OTHER" (dgo_file main_name one_object)
    (empty_db : ObjectFileDB unit unit)
  = Err ArchiveNameMismatch.
Proof.
  apply (archive_name_checked_first byte_sum no_link_data
           spec_reference_count stored_block "OTHER"
           (dgo_file main_name one_object) 1 (name_field main_name)
           (encode_objs one_object) empty_db "MAIN").
  - reflexivity.
  - reflexivity.
  - lia.
  - reflexivity.
  - reflexivity.
  - discriminate.
Defined.


Lemma main_archive_construction :
  new_ObjectFileDB byte_sum no_link_data spec_reference_count stored_block
    [("MAIN", dgo_file main_name one_object)]
  = Ok (add_all byte_sum no_link_data spec_reference_count
          (obj_insertions "MAIN" one_object)
          (count_dgo_bytes (length (dgo_file main_name one_object))
             empty_db)).
Proof.
  unfold new_ObjectFileDB. cbn [load_dgos fst snd].
  by rewrite main_archive_ingest.
Qed.

Lemma constructed_store_consistent_witness :
  let _dgos := [("MAIN", dgo_file main_name one_object)] in
  let db :=
    add_all byte_sum no_link_data spec_reference_count
      (obj_insertions "MAIN" one_object)
      (count_dgo_bytes (length (dgo_file main_name one_object))
         (empty_db : ObjectFileDB unit unit)) in
  consistent byte_sum db
  ∧ total_dgo_bytes (stats db) = Z.of_nat (total_size _dgos)
  ∧ ∀ base file db',
      get_objs_from_dgo byte_sum no_link_data spec_reference_count
        stored_block base file db = Ok db' →
      consistent byte_sum db'.
Proof.
  exact (constructed_store_consistent byte_sum no_link_data
           spec_reference_count stored_block
           [("MAIN", dgo_file main_name one_object)] _
           main_archive_construction).
Defined.

Lemma dumps_do_not_overwrite_witness :
  let combine_path := λ dir file : string, dir +:+ "/" +:+ file in
  let db :=
    add_all byte_sum no_link_data spec_reference_count
      [("a", [x01], "MAIN"); ("a", [x02], "MAIN")] empty_db in
  NoDup (write_object_file_words (λ _, "words") combine_path "out" false
           db).*1
  ∧ NoDup (write_disassembly (λ _, "code") (λ _, true) combine_path "out"
             false db).*1.
Proof.
  apply (dumps_do_not_overwrite byte_sum no_link_data spec_reference_count
           (λ _, "words") (λ _, "code") (λ _, true)
           (λ dir file : string, dir +:+ "/" +:+ file)
           [("a", [x01], "MAIN"); ("a", [x02], "MAIN")] "out" false false).
  intros a b Heq. by injection Heq.
Defined.

Lemma membership_records_resolve_witness :
  let db :=
    add_all byte_sum no_link_data spec_reference_count
      [("a", [x01; x02; x03], "MAIN")] (empty_db : ObjectFileDB unit unit) in
  let r := mkRecord "a" 0 6 in
  r ∈ subscript (obj_files_by_dgo db) "MAIN"
  ∧ 0 ≤ version r
  ∧ ∃ e, stored_at db (name r) (Z.to_nat (version r)) e ∧ record e = r.
Proof.
  assert (H : mkRecord "a" 0 6
              ∈ subscript
                  (obj_files_by_dgo
                     (add_all byte_sum no_link_data spec_reference_count
                        [("a", [x01; x02; x03], "MAIN")]
                        (empty_db : ObjectFileDB unit unit))) "MAIN").
  { assert (subscript
              (obj_files_by_dgo
                 (add_all byte_sum no_link_data spec_reference_count
                    [("a", [x01; x02; x03], "MAIN")]
                    (empty_db : ObjectFileDB unit unit))) "MAIN"
            = [mkRecord "a" 0 6]) as -> by (vm_compute; reflexivity).
    apply list_elem_of_here. }
  exact (conj H (membership_records_resolve byte_sum no_link_data
                   spec_reference_count [("a", [x01; x02; x03], "MAIN")]
                   "MAIN" (mkRecord "a" 0 6) H)).
Defined.
